(** * Ernesto: a reconciler for watched git repositories

    A shallow embedding of the three variants of the program
    ([cmd/main.go], [cronjob/main.go] and the ticker-only variant) together
    with the library calls they rest on: the dynamic cluster client
    (List / Get / Update on unstructured records), [unstructured.SetNestedField],
    [retry.RetryOnConflict] with [retry.DefaultRetry] and the random
    lengthening of its sleeps, go-git's in-memory clone,
    [time.Now().Format(time.RFC1123)], [log/slog] and [sync.WaitGroup].

    Effects are threaded through an explicit [World]; a panic is an outcome
    of its own, distinct from a returned [error]. *)

From stdpp Require Import base gmap strings list pretty.
From Stdlib Require Import ZArith String Ascii Lia.
From Stdlib Require QArith.QArith_base QArith.Qround.

#[local] Set Warnings "-register-all".
#[local] Open Scope string_scope.
#[local] Open Scope list_scope.

(* ===================================================================== *)
(** ** Go values *)
(* ===================================================================== *)

(** What [encoding/json] puts behind an [any]: the shape of every
    [unstructured.Unstructured.Object]. *)
Inductive value :=
| VNil
| VBool (b : bool)
| VNumber (n : Z)
| VString (s : string)
| VSlice (l : list value)
| VMap (m : gmap string value).

(** [map[string]any] *)
Abbreviation Obj := (gmap string value).

(** A Go slice is either [nil] or backed by an array; [range] sees no
    difference, the caller comparing against [nil] does. *)
Definition slice (A : Type) := option (list A).
Definition elems {A} (s : slice A) : list A := default [] s.

(** Outcome of running Go code: it returns, it panics, or it blocks for
    good. *)
Inductive outcome (A : Type) :=
| Ret (a : A)
| Panic (msg : string)
| Hang.
Arguments Ret {A} a.
Arguments Panic {A} msg.
Arguments Hang {A}.

(* ===================================================================== *)
(** ** Errors *)
(* ===================================================================== *)

Inductive StatusReason :=
| StatusReasonUnknown
| StatusReasonUnauthorized
| StatusReasonForbidden
| StatusReasonNotFound
| StatusReasonConflict
| StatusReasonInvalid
| StatusReasonTimeout
| StatusReasonInternalError.

(** The [error] values the program can meet: an API status error; a
    plain error made with [errors.New] / [fmt.Errorf]; the timeout of the
    [wait] package; and an error in whose chain [errors.Is] finds
    [context.Canceled], or [context.DeadlineExceeded] when [deadline], which
    is what a call returns when its context has ended or the client has
    given up waiting. *)
Inductive error :=
| StatusError (reason : StatusReason) (message : string)
| errorString (message : string)
| ErrWaitTimeout
| contextError (deadline : bool) (message : string).

Definition Error (e : error) : string :=
  match e with
  | StatusError _ m => m
  | errorString m => m
  | ErrWaitTimeout => "timed out waiting for the condition"
  | contextError _ m => m
  end.

(** [context.Canceled] *)
Definition Canceled : error := contextError false "context canceled".

(** [wait.Interrupted]: the timeout of the [wait] package, a cancelled
    context or a deadline that has passed. *)
Definition Interrupted (e : error) : bool :=
  match e with
  | ErrWaitTimeout | contextError _ _ => true
  | _ => false
  end.

(** [apierrors.IsConflict] *)
Definition IsConflict (e : error) : bool :=
  match e with
  | StatusError StatusReasonConflict _ => true
  | _ => false
  end.

(** [ErrWaitTimeout] is the sentinel of the [wait] package: the retry
    wrapper tells it apart by identity, not by its text, so it is a
    constructor of its own and no call of the cluster client or of go-git
    hands it out. *)
Definition from_library (e : error) : Prop := e ≠ ErrWaitTimeout.

#[global] Instance StatusReason_eq_dec : EqDecision StatusReason.
Proof. solve_decision. Defined.
#[global] Instance error_eq_dec : EqDecision error.
Proof. solve_decision. Defined.

(* ===================================================================== *)
(** ** Unstructured helpers (k8s.io/apimachinery, unstructured package) *)
(* ===================================================================== *)

(** [jsonPath]: the fields joined with dots, each preceded by one. *)
Fixpoint jsonPath (fields : list string) : string :=
  match fields with
  | [] => EmptyString
  | f :: rest => "." +:+ f +:+ jsonPath rest
  end.

(** [setNestedFieldNoCopy]: walks [fields] but the last through maps,
    making the maps that are missing, and stores [v] under the last field.
    A level that holds something other than a map is an error; the walk has
    changed nothing by then, since a freshly made map has no entries to
    trip over.  [seen] is the part of the path walked so far (for the
    message).  With no field at all the Go code slices [fields[:-1]] and
    panics. *)
Fixpoint setNestedFieldNoCopy (seen : list string) (obj : Obj) (v : value)
    (fields : list string) : outcome (Obj * option error) :=
  match fields with
  | [] => Panic "slice bounds out of range [:-1]"
  | [last] => Ret (<[last := v]> obj, None)
  | field :: rest =>
      match obj !! field with
      | Some (VMap valMap) =>
          match setNestedFieldNoCopy (seen ++ [field]) valMap v rest with
          | Ret (valMap', None) => Ret (<[field := VMap valMap']> obj, None)
          | Ret (_, Some err) => Ret (obj, Some err)
          | Panic msg => Panic msg
          | Hang => Hang
          end
      | Some _ =>
          Ret (obj, Some (errorString
                 ("value cannot be set because " +:+ jsonPath (seen ++ [field])
                  +:+ " is not a map[string]interface{}")))
      | None =>
          match setNestedFieldNoCopy (seen ++ [field]) ∅ v rest with
          | Ret (newVal, None) => Ret (<[field := VMap newVal]> obj, None)
          | Ret (_, Some err) => Ret (obj, Some err)
          | Panic msg => Panic msg
          | Hang => Hang
          end
      end
  end.

(** [unstructured.SetNestedField]: the value is deep-copied first, which
    for a JSON value is the identity. *)
Definition SetNestedField (obj : Obj) (v : value) (fields : list string)
  : outcome (Obj * option error) :=
  setNestedFieldNoCopy [] obj v fields.

(** [unstructured.NestedFieldNoCopy], with "not found" and "not a map on
    the way" both read as [None]. *)
Fixpoint NestedField (obj : Obj) (fields : list string) : option value :=
  match fields with
  | [] => Some (VMap obj)
  | [last] => obj !! last
  | field :: rest =>
      match obj !! field with
      | Some (VMap m) => NestedField m rest
      | _ => None
      end
  end.

(** [getNestedString]: the string at the path, or the empty string when
    there is none or it is no string. *)
Definition getNestedString (obj : Obj) (fields : list string) : string :=
  match NestedField obj fields with
  | Some (VString s) => s
  | _ => EmptyString
  end.

(** The [GetName], [GetNamespace] and [GetResourceVersion] methods of
    [Unstructured]. *)
Definition GetName (obj : Obj) : string := getNestedString obj ["metadata"; "name"].
Definition GetNamespace (obj : Obj) : string := getNestedString obj ["metadata"; "namespace"].
Definition GetResourceVersion (obj : Obj) : string :=
  getNestedString obj ["metadata"; "resourceVersion"].

(** Two paths are unrelated when neither runs through the other. *)
Definition unrelated (p q : list string) : Prop :=
  ¬ p `prefix_of` q ∧ ¬ q `prefix_of` p.

(* ===================================================================== *)
(** ** Wall-clock time and [time.RFC1123] *)
(* ===================================================================== *)

Inductive Weekday :=
| Sunday | Monday | Tuesday | Wednesday | Thursday | Friday | Saturday.

Inductive Month :=
| January | February | March | April | May | June
| July | August | September | October | November | December.

(** A [time.Time] as [Format] sees it: the civil date, the time of day and
    the zone abbreviation. *)
Record Time := {
  Year : nat;
  Mon : Month;
  Day : nat;
  Wday : Weekday;
  Hour : nat;
  Minute : nat;
  Second : nat;
  Zone : string;
}.

Definition shortDayName (d : Weekday) : string :=
  match d with
  | Sunday => "Sun" | Monday => "Mon" | Tuesday => "Tue" | Wednesday => "Wed"
  | Thursday => "Thu" | Friday => "Fri" | Saturday => "Sat"
  end.

Definition shortMonthName (m : Month) : string :=
  match m with
  | January => "Jan" | February => "Feb" | March => "Mar" | April => "Apr"
  | May => "May" | June => "Jun" | July => "Jul" | August => "Aug"
  | September => "Sep" | October => "Oct" | November => "Nov" | December => "Dec"
  end.

Fixpoint zeros (n : nat) : string :=
  match n with
  | 0 => EmptyString
  | S n' => "0" +:+ zeros n'
  end.

(** [appendInt]: decimal digits, padded with zeros up to [width]. *)
Definition appendInt (x width : nat) : string :=
  let digits := pretty x in
  zeros (width - String.length digits) +:+ digits.

(** [t.Format(time.RFC1123)], layout ["Mon, 02 Jan 2006 15:04:05 MST"]. *)
Definition Format_RFC1123 (t : Time) : string :=
  shortDayName (Wday t) +:+ ", " +:+ appendInt (Day t) 2 +:+ " "
  +:+ shortMonthName (Mon t) +:+ " " +:+ appendInt (Year t) 4 +:+ " "
  +:+ appendInt (Hour t) 2 +:+ ":" +:+ appendInt (Minute t) 2 +:+ ":"
  +:+ appendInt (Second t) 2 +:+ " " +:+ Zone t.

Definition zeroTime : Time :=
  {| Year := 1; Mon := January; Day := 1; Wday := Monday;
     Hour := 0; Minute := 0; Second := 0; Zone := "UTC" |}.

(* ===================================================================== *)
(** ** The world outside the process *)
(* ===================================================================== *)

(** The two contexts of [main]: [context.Background()], never cancelled,
    and the one made by [signal.NotifyContext], cancelled by an interrupt
    or by [cancel()]. *)
Inductive context := Background | NotifyContext.

(** How a remote call can fail on its way: the server answers with a
    status, the transport gives up, or the call is cut short because its
    context has ended or its time is up ([deadline]). *)
Inductive fault :=
| ApiStatus (reason : StatusReason) (message : string)
| Transport (message : string)
| CutShort (deadline : bool) (message : string).

Definition fault_error (f : fault) : error :=
  match f with
  | ApiStatus r m => StatusError r m
  | Transport m => errorString m
  | CutShort deadline m => contextError deadline m
  end.

(** What the network, the servers and the other clients of the cluster do
    around one remote call: nothing, fail the call, or let another writer
    set a field of a record first. *)
Inductive incident :=
| Calm
| Fault (f : fault)
| Rival (namespace name : string) (fields : list string) (v : value).

(** A git remote: the credentials it accepts and the commit HEAD points to
    (none when HEAD cannot be resolved). *)
Record remote := {
  remote_username : string;
  remote_password : string;
  remote_head : option string;
}.

(** [*git.Repository] held in [memory.NewStorage()] *)
Record GitRepository := { storage_head : option string }.

Inductive Level := LevelInfo | LevelWarn | LevelError.

Inductive event :=
| EvList (namespace : string) (res : list Obj + error)
| EvGet (namespace name : string) (res : Obj + error)
| EvUpdate (namespace : string) (obj : Obj) (res : Obj + error)
| EvClone (url username password : string) (res : GitRepository + error)
| EvHead (res : string + error)
| EvNow (t : Time)
| EvSleep (d : Z)
| EvLog (lvl : Level) (msg : string) (attrs : list (string * value))
| EvDump
| EvAdd (delta : Z)
| EvDone
| EvCancel.

Record World := {
  objects : gmap (string * string) Obj;  (* the cluster: (namespace, name) to record *)
  revision : N;                          (* last resourceVersion handed out *)
  schedule : list incident;              (* one entry consumed by each remote call *)
  remotes : gmap string remote;          (* git remotes by URL *)
  clock : list Time;                     (* the readings [time.Now] will give *)
  random : list N;                       (* what the source of [math/rand] will yield *)
  cancelled : bool;                      (* the NotifyContext is done *)
  wg : Z;                                (* counter of the [sync.WaitGroup] *)
  trace : list event;                    (* what happened, oldest first *)
}.

Definition set_objects (o : gmap (string * string) Obj) (r : N) (w : World) : World :=
  {| objects := o; revision := r; schedule := schedule w; remotes := remotes w;
     clock := clock w; random := random w; cancelled := cancelled w; wg := wg w;
     trace := trace w |}.
Definition set_schedule (s : list incident) (w : World) : World :=
  {| objects := objects w; revision := revision w; schedule := s; remotes := remotes w;
     clock := clock w; random := random w; cancelled := cancelled w; wg := wg w;
     trace := trace w |}.
Definition set_clock (c : list Time) (w : World) : World :=
  {| objects := objects w; revision := revision w; schedule := schedule w;
     remotes := remotes w; clock := c; random := random w;
     cancelled := cancelled w; wg := wg w; trace := trace w |}.
Definition set_random (r : list N) (w : World) : World :=
  {| objects := objects w; revision := revision w; schedule := schedule w;
     remotes := remotes w; clock := clock w; random := r;
     cancelled := cancelled w; wg := wg w; trace := trace w |}.
Definition set_cancelled (b : bool) (w : World) : World :=
  {| objects := objects w; revision := revision w; schedule := schedule w;
     remotes := remotes w; clock := clock w; random := random w;
     cancelled := b; wg := wg w; trace := trace w |}.
Definition set_wg (n : Z) (w : World) : World :=
  {| objects := objects w; revision := revision w; schedule := schedule w;
     remotes := remotes w; clock := clock w; random := random w;
     cancelled := cancelled w; wg := n; trace := trace w |}.
Definition emit (ev : event) (w : World) : World :=
  {| objects := objects w; revision := revision w; schedule := schedule w;
     remotes := remotes w; clock := clock w; random := random w;
     cancelled := cancelled w; wg := wg w; trace := trace w ++ [ev] |}.

(* ===================================================================== *)
(** ** Running Go code against the world *)
(* ===================================================================== *)

Definition M (A : Type) : Type := World → outcome A * World.

#[global] Instance M_ret : MRet M := λ A a w, (Ret a, w).
#[global] Instance M_bind : MBind M := λ A B k m w,
  match m w with
  | (Ret a, w') => k a w'
  | (Panic msg, w') => (Panic msg, w')
  | (Hang, w') => (Hang, w')
  end.

Definition panic {A} (msg : string) : M A := λ w, (Panic msg, w).
Definition hang {A} : M A := λ w, (Hang, w).
Definition tell (ev : event) : M unit := λ w, (Ret (), emit ev w).

(** A pure computation that may panic, run inside [M]. *)
Definition lift {A} (o : outcome A) : M A := λ w, (o, w).

(** *** The cluster *)

(** The error of a call made under a context that is already done. *)
Definition ctx_err (ctx : context) (w : World) : option error :=
  match ctx with
  | Background => None
  | NotifyContext =>
      if cancelled w then Some Canceled else None
  end.

(** The server stamps every stored record with a fresh resourceVersion. *)
Definition stamp (rv : string) (obj : Obj) : Obj :=
  match SetNestedField obj (VString rv) ["metadata"; "resourceVersion"] with
  | Ret (obj', None) => obj'
  | _ => obj
  end.

Definition put (namespace name : string) (obj : Obj) (w : World) : World :=
  let r := (revision w + 1)%N in
  set_objects (<[(namespace, name) := stamp (pretty r) obj]> (objects w)) r w.

(** One remote call meets the next incident of the schedule: a fault is
    the call's error; a rival's write lands in the cluster before the call
    is served (the server turns down a write that would rename the
    record). *)
Definition befall (w : World) : option error * World :=
  match schedule w with
  | [] => (None, w)
  | Calm :: rest => (None, set_schedule rest w)
  | Fault f :: rest => (Some (fault_error f), set_schedule rest w)
  | Rival namespace name fields v :: rest =>
      let w1 := set_schedule rest w in
      (None,
       match objects w1 !! (namespace, name) with
       | Some cur =>
           match SetNestedField cur v fields with
           | Ret (cur', None) =>
               if decide (GetName cur' = GetName cur)
               then put namespace name cur' w1 else w1
           | _ => w1
           end
       | None => w1
       end)
  end.

Definition notFound (name : string) : error :=
  StatusError StatusReasonNotFound
    ("githubrepositories.0x42.in " +:+ name +:+ " not found").

Definition conflict (name : string) : error :=
  StatusError StatusReasonConflict
    ("Operation cannot be fulfilled on githubrepositories.0x42.in " +:+ name
     +:+ ": the object has been modified; please apply your changes to the latest version and try again").

(** [Resource(r).Namespace(ns).List(ctx, opts)]: the records of the
    namespace. *)
Definition serve_list (namespace : string) (w : World) : list Obj + error :=
  inl ((λ kv, kv.2) <$>
       filter (λ kv : (string * string) * Obj, kv.1.1 = namespace)
              (map_to_list (objects w))).

(** [Resource(r).Namespace(ns).Get(ctx, name, opts)] *)
Definition serve_get (namespace name : string) (w : World) : Obj + error :=
  match objects w !! (namespace, name) with
  | Some cur => inl cur
  | None => inr (notFound name)
  end.

(** [Resource(r).Namespace(ns).Update(ctx, obj, opts)]: a whole-record
    write, accepted only when the record submitted carries the
    resourceVersion the cluster holds. *)
Definition serve_update (namespace : string) (obj : Obj) (w : World)
  : (Obj + error) * World :=
  let name := GetName obj in
  if decide (name = EmptyString) then (inr (errorString "name is required"), w)
  else
    match objects w !! (namespace, name) with
    | None => (inr (notFound name), w)
    | Some cur =>
        if decide (GetResourceVersion obj = GetResourceVersion cur) then
          let w' := put namespace name obj w in
          (inl (default obj (objects w' !! (namespace, name))), w')
        else (inr (conflict name), w)
    end.

(** A remote call: refused at once under a context that is done, else it
    meets the next incident and, unless that is a fault, is served. *)
Definition remote_call {A} (ctx : context) (serve : World → (A + error) * World)
  (w : World) : (A + error) * World :=
  match ctx_err ctx w with
  | Some e => (inr e, w)
  | None =>
      match befall w with
      | (Some e, w1) => (inr e, w1)
      | (None, w1) => serve w1
      end
  end.

Definition List (ctx : context) (namespace : string) : M (list Obj + error) := λ w,
  let '(res, w1) := remote_call ctx (λ w, (serve_list namespace w, w)) w in
  (Ret res, emit (EvList namespace res) w1).

Definition Get (ctx : context) (namespace name : string) : M (Obj + error) := λ w,
  let '(res, w1) := remote_call ctx (λ w, (serve_get namespace name w, w)) w in
  (Ret res, emit (EvGet namespace name res) w1).

Definition Update (ctx : context) (namespace : string) (obj : Obj)
  : M (Obj + error) := λ w,
  let '(res, w1) := remote_call ctx (serve_update namespace obj) w in
  (Ret res, emit (EvUpdate namespace obj res) w1).

(** *** go-git *)

Definition ErrRepositoryNotFound : error := errorString "repository not found".
Definition ErrAuthenticationRequired : error := errorString "authentication required".
Definition ErrReferenceNotFound : error := errorString "reference not found".

Definition serve_clone (url username password : string) (w : World)
  : GitRepository + error :=
  match remotes w !! url with
  | None => inr ErrRepositoryNotFound
  | Some r =>
      if decide (username = remote_username r ∧ password = remote_password r)
      then inl {| storage_head := remote_head r |}
      else inr ErrAuthenticationRequired
  end.

(** [git.Clone(memory.NewStorage(), nil, &git.CloneOptions{URL, Auth})]:
    takes no context. *)
Definition Clone (url username password : string) : M (GitRepository + error) := λ w,
  let '(res, w1) :=
    remote_call Background (λ w, (serve_clone url username password w, w)) w in
  (Ret res, emit (EvClone url username password res) w1).

(** [r.Head()] and, on success, [ref.Hash().String()]: read from the
    in-memory storage. *)
Definition Head (r : GitRepository) : M (string + error) := λ w,
  let res := match storage_head r with
             | Some h => inl h
             | None => inr ErrReferenceNotFound
             end in
  (Ret res, emit (EvHead res) w).

(** *** time, slog, spew, sync *)

Definition time_Now : M Time := λ w,
  match clock w with
  | [] => (Ret zeroTime, emit (EvNow zeroTime) w)
  | t :: rest => (Ret t, emit (EvNow t) (set_clock rest w))
  end.

Definition time_Sleep (d : Z) : M unit := tell (EvSleep d).

Definition slog_Info (msg : string) (attrs : list (string * value)) : M unit :=
  tell (EvLog LevelInfo msg attrs).
Definition slog_Warn (msg : string) (attrs : list (string * value)) : M unit :=
  tell (EvLog LevelWarn msg attrs).
Definition slog_Error (msg : string) (attrs : list (string * value)) : M unit :=
  tell (EvLog LevelError msg attrs).

Definition spew_Dump : M unit := tell EvDump.

(** [wg.Add(delta)] *)
Definition wg_Add (delta : Z) : M unit := λ w,
  let n := (wg w + delta)%Z in
  if decide (n < 0)%Z then (Panic "sync: negative WaitGroup counter", w)
  else (Ret (), emit (EvAdd delta) (set_wg n w)).

(** [wg.Done()] is [wg.Add(-1)] *)
Definition wg_Done : M unit := λ w,
  let n := (wg w - 1)%Z in
  if decide (n < 0)%Z then (Panic "sync: negative WaitGroup counter", w)
  else (Ret (), emit EvDone (set_wg n w)).

(** [wg.Wait()] returns once the counter is zero. With the workers run to
    their end, a counter still positive stays so. *)
Definition wg_Wait : M unit := λ w,
  if decide (wg w = 0)%Z then (Ret (), w) else (Hang, w).

(** [cancel()] of the NotifyContext *)
Definition cancel : M unit := λ w, (Ret (), emit EvCancel (set_cancelled true w)).

(** [go f(...)]: the goroutine is run to its end where it is started; the
    workers share nothing but the cluster and the WaitGroup. *)
Definition go (f : M unit) : M unit := f.

(* ===================================================================== *)
(** ** k8s.io/apimachinery wait and k8s.io/client-go util/retry *)
(* ===================================================================== *)

Record Backoff := {
  Duration : Z;                 (* nanoseconds *)
  Factor : QArith_base.Q;
  Jitter : QArith_base.Q;
  Steps : nat;
  Cap : Z;
}.

(** [retry.DefaultRetry]: five steps of ten milliseconds, each sleep
    lengthened at random by up to a tenth. *)
Definition DefaultRetry : Backoff :=
  {| Steps := 5; Duration := 10 * 1000000;
     Factor := QArith_base.Qmake 1 1; Jitter := QArith_base.Qmake 1 10; Cap := 0 |}.

(** [rand.Float64()]: the next yield of the source, 63 bits of it, over
    [2^63]; a number from 0 up to but not 1.  (The rounding to a float is
    left out; a source that has run dry yields 0.) *)
Definition int63 : positive := (2 ^ 63)%positive.

Definition Float64_of (w : World) : QArith_base.Q :=
  match random w with
  | [] => QArith_base.Qmake 0 1
  | n :: _ => QArith_base.Qmake (Z.of_N (n mod Npos int63)) int63
  end.

Definition rand_Float64 : M QArith_base.Q := λ w,
  (Ret (Float64_of w), set_random (tail (random w)) w).

(** [wait.Jitter],
<<
    if maxFactor <= 0.0 { maxFactor = 1.0 }
    wait := duration + time.Duration(rand.Float64() * maxFactor * float64(duration))
>>
    for the random number [u]. *)
Definition lengthen (duration : Z) (maxFactor u : QArith_base.Q) : Z :=
  let maxFactor :=
    if bool_decide (QArith_base.Qnum maxFactor ≤ 0)%Z then QArith_base.Qmake 1 1
    else maxFactor in
  (duration
   + Qround.Qfloor
       (QArith_base.Qmult (QArith_base.Qmult u maxFactor)
          (QArith_base.inject_Z duration)))%Z.

Definition wait_Jitter (duration : Z) (maxFactor : QArith_base.Q) : M Z :=
  u ← rand_Float64;
  mret (lengthen duration maxFactor u).

(** [(b *Backoff).Step()]: the next sleep, and the backoff with one step
    less and its duration scaled by the factor,
<<
    if b.Steps < 1 {
        if b.Jitter > 0 { return Jitter(b.Duration, b.Jitter) }
        return b.Duration
    }
    b.Steps--
    duration := b.Duration
    if b.Factor != 0 {
        b.Duration = time.Duration(float64(b.Duration) * b.Factor)
        if b.Cap > 0 && b.Duration > b.Cap { b.Duration = b.Cap; b.Steps = 0 }
    }
    if b.Jitter > 0 { duration = Jitter(duration, b.Jitter) }
    return duration
>> *)
Definition Step (b : Backoff) : M (Z * Backoff) :=
  let jittered (duration : Z) : M Z :=
    if bool_decide (0 < QArith_base.Qnum (Jitter b))%Z
    then wait_Jitter duration (Jitter b)
    else mret duration in
  match Steps b with
  | 0 => d ← jittered (Duration b); mret (d, b)
  | S steps =>
      let duration := Duration b in
      let '(next, steps) :=
        if decide (QArith_base.Qnum (Factor b) = 0)%Z then (duration, steps)
        else
          let scaled :=
            Qround.Qfloor
              (QArith_base.Qmult (QArith_base.inject_Z duration) (Factor b)) in
          if bool_decide (0 < Cap b)%Z && bool_decide (Cap b < scaled)%Z
          then (Cap b, 0)
          else (scaled, steps) in
      d ← jittered duration;
      mret (d, {| Duration := next; Factor := Factor b; Jitter := Jitter b;
                  Steps := steps; Cap := Cap b |})
  end.

(** The loop of [wait.ExponentialBackoff],
<<
    for backoff.Steps > 0 {
        if ok, err := condition(); err != nil || ok { return err }
        if backoff.Steps == 1 { break }
        time.Sleep(backoff.Step())
    }
    return ErrWaitTimeout
>>
    [st] is what the condition closure has captured and may assign to.
    Every round takes at least one step off, so [Steps] rounds of fuel are
    never used up before the steps are. *)
Fixpoint ExponentialBackoff_loop {St : Type} (fuel : nat) (backoff : Backoff)
    (condition : St → M (St * (bool * option error))) (st : St)
  : M (St * option error) :=
  match fuel with
  | 0 => mret (st, Some ErrWaitTimeout)
  | S fuel' =>
      if decide (Steps backoff = 0) then mret (st, Some ErrWaitTimeout)
      else
        '(st1, (ok, err)) ← condition st;
        if bool_decide (err ≠ None) || ok then mret (st1, err)
        else if decide (Steps backoff = 1) then mret (st1, Some ErrWaitTimeout)
        else
          '(d, backoff') ← Step backoff;
          time_Sleep d;;
          ExponentialBackoff_loop fuel' backoff' condition st1
  end.

Definition ExponentialBackoff {St : Type} (backoff : Backoff)
    (condition : St → M (St * (bool * option error))) (st : St)
  : M (St * option error) :=
  ExponentialBackoff_loop (Steps backoff) backoff condition st.

(** [retry.OnError],
<<
    var lastErr error
    err := wait.ExponentialBackoff(backoff, func() (bool, error) {
        err := fn()
        switch {
        case err == nil:    return true, nil
        case retriable(err): lastErr = err; return false, nil
        default:            return false, err
        }
    })
    if wait.Interrupted(err) && lastErr != nil { err = lastErr }
    return err
>>
    [lastErr] is the variable the closure assigns. *)
Definition OnError (backoff : Backoff) (retriable : error → bool)
    (fn : M (option error)) : M (option error) :=
  '(lastErr, err) ← ExponentialBackoff backoff
      (λ lastErr : option error,
         err ← fn;
         match err with
         | None => mret (lastErr, (true, None))
         | Some e =>
             if retriable e then mret (Some e, (false, None))
             else mret (lastErr, (false, Some e))
         end)
      None;
  match err, lastErr with
  | Some e, Some _ => if Interrupted e then mret lastErr else mret err
  | _, _ => mret err
  end.

(** [retry.RetryOnConflict] *)
Definition RetryOnConflict (backoff : Backoff) (fn : M (option error))
  : M (option error) :=
  OnError backoff IsConflict fn.

(* ===================================================================== *)
(** ** Type assertions *)
(* ===================================================================== *)

Definition typeName (x : option value) : string :=
  match x with
  | None | Some VNil => "nil"
  | Some (VBool _) => "bool"
  | Some (VNumber _) => "int64"
  | Some (VString _) => "string"
  | Some (VSlice _) => "[]interface {}"
  | Some (VMap _) => "map[string]interface {}"
  end.

(** [x.(map[string]any)]: the single-result form, which panics. *)
Definition assert_map (x : option value) : outcome Obj :=
  match x with
  | Some (VMap m) => Ret m
  | _ => Panic ("interface conversion: interface {} is " +:+ typeName x
                +:+ ", not map[string]interface {}")
  end.

(** [x.(string)] *)
Definition assert_string (x : option value) : outcome string :=
  match x with
  | Some (VString s) => Ret s
  | _ => Panic ("interface conversion: interface {} is " +:+ typeName x
                +:+ ", not string")
  end.

(** A map entry read for logging: a missing key reads as nil. *)
Definition map_index (m : Obj) (k : string) : value := default VNil (m !! k).

(** The namespace every variant lists. *)
Definition tacos : string := "tacos".

Definition error_attr (e : error) : string * value := ("error", VString (Error e)).

(** What the loop of [main] picks in its [select]: the ticker's channel or
    the context's [Done] channel.  The interrupt is taken to fire when the
    select receives from [Done]. *)
Inductive select_case := case_ticker | case_done.

(** Where [main] stands after a finite run of selects: past [wg.Wait()],
    or still inside the loop, blocked in [select]. *)
Inductive standing := Exited | InLoop.

(* ===================================================================== *)
(** ** cmd/main.go *)
(* ===================================================================== *)

Module Cmd.

Record Repository := {
  Name : string;
  Namespace : string;
  URL : string;
  AccessToken : string;
  Username : string;
}.

(** The body of the [range repos.Items] loop of [getRepos]. *)
Definition decode (repo : Obj) : M Repository :=
  metadata ← lift (assert_map (repo !! "metadata"));
  slog_Info "Found repo" [("name", map_index metadata "name")];;
  spec ← lift (assert_map (repo !! "spec"));
  url ← lift (assert_string (spec !! "repoUrl"));
  accessToken ← lift (assert_string (spec !! "accessToken"));
  username ← lift (assert_string (spec !! "username"));
  mret {| Name := GetName repo; Namespace := GetNamespace repo; URL := url;
          AccessToken := accessToken; Username := username |}.

Fixpoint decode_all (items : list Obj) : M (list Repository) :=
  match items with
  | [] => mret []
  | repo :: rest =>
      r ← decode repo;
      rs ← decode_all rest;
      mret (r :: rs)
  end.

Definition getRepos (ctx : context) : M (slice Repository * option error) :=
  repos ← List ctx tacos;
  match repos with
  | inr err => mret (None, Some err)
  | inl items =>
      repositories ← decode_all items;
      mret (Some repositories, None)
  end.

Definition getLatestCommit (ctx : context) (repo : Repository)
  : M (string * option error) :=
  r ← Clone (URL repo) (Username repo) (AccessToken repo);
  match r with
  | inr err => mret (EmptyString, Some err)
  | inl r =>
      ref ← Head r;
      match ref with
      | inr err => mret (EmptyString, Some err)
      | inl hash => mret (hash, None)
      end
  end.

(** [defer wg.Done()] is the last statement: it is reached, and the call
    registered and run, only when the function gets that far. *)
Definition processRepo (ctx : context) (repo : Repository) : M unit :=
  '(hash, err) ← getLatestCommit ctx repo;
  match err with
  | Some err =>
      slog_Error "Failed to get latest commit"
        [error_attr err; ("repository", VString (URL repo))]
  | None =>
      slog_Info "Latest commit hash retrieved from repository"
        [("repository", VString (Name repo)); ("hash", VString hash)];;
      wg_Done
  end.

(** [for _, repo := range repos { wg.Add(1); go processRepo(ctx, wg, repo) }] *)
Fixpoint dispatch (repos : list Repository) : M unit :=
  match repos with
  | [] => mret ()
  | repo :: rest => wg_Add 1;; go (processRepo Background repo);; dispatch rest
  end.

(** One firing of the ticker. *)
Definition tick : M unit :=
  '(repos, err) ← getRepos NotifyContext;
  match err with
  | Some err => slog_Error "Failed to get repos" [error_attr err]
  | None => dispatch (elems repos)
  end.

(** The labelled [for { select { ... } }] loop over the cases picked. *)
Fixpoint Loop (picked : list select_case) : M standing :=
  match picked with
  | [] => mret InLoop
  | case_ticker :: rest => tick;; Loop rest
  | case_done :: _ => cancel;; mret Exited
  end.

Definition main (picked : list select_case) : M standing :=
  slog_Info "Ernesto initialized" [];;
  '(repos, err) ← getRepos NotifyContext;
  match err with
  | Some err => slog_Error "Failed to get repos" [error_attr err]
  | None => spew_Dump
  end;;
  st ← Loop picked;
  match st with
  | InLoop => mret InLoop
  | Exited => wg_Wait;; cancel;; mret Exited
  end.

End Cmd.

(* ===================================================================== *)
(** ** cronjob/main.go *)
(* ===================================================================== *)

Module Cronjob.

Record Repository := {
  Name : string;
  Namespace : string;
  URL : string;
  AccessToken : string;
  Username : string;
  Unstructured : Obj;
}.

Definition decode (repo : Obj) : M Repository :=
  metadata ← lift (assert_map (repo !! "metadata"));
  slog_Info "Found repo" [("name", map_index metadata "name")];;
  spec ← lift (assert_map (repo !! "spec"));
  url ← lift (assert_string (spec !! "repoUrl"));
  accessToken ← lift (assert_string (spec !! "accessToken"));
  username ← lift (assert_string (spec !! "username"));
  mret {| Name := GetName repo; Namespace := GetNamespace repo; URL := url;
          AccessToken := accessToken; Username := username;
          Unstructured := repo |}.

Fixpoint decode_all (items : list Obj) : M (list Repository) :=
  match items with
  | [] => mret []
  | repo :: rest =>
      r ← decode repo;
      rs ← decode_all rest;
      mret (r :: rs)
  end.

Definition getRepos (ctx : context) : M (slice Repository * option error) :=
  repos ← List ctx tacos;
  match repos with
  | inr err => mret (None, Some err)
  | inl items =>
      repositories ← decode_all items;
      mret (Some repositories, None)
  end.

Definition getLatestCommit (ctx : context) (repo : Repository)
  : M (string * option error) :=
  r ← Clone (URL repo) (Username repo) (AccessToken repo);
  match r with
  | inr err => mret (EmptyString, Some err)
  | inl r =>
      ref ← Head r;
      match ref with
      | inr err => mret (EmptyString, Some err)
      | inl hash => mret (hash, None)
      end
  end.

Record unstructuredChange := {
  keys : list string;
  value : string;
}.

Definition last_sync_time : list string :=
  ["metadata"; "annotations"; "ernesto.0x42.in/last-sync-time"].
Definition commit_hash : list string :=
  ["metadata"; "annotations"; "ernesto.0x42.in/commit-hash"].

(** The changeset literal of [processRepo], for the clock reading [now]
    and the resolved [hash]. *)
Definition changeset (now : Time) (hash : string) : list unstructuredChange :=
  [ {| keys := last_sync_time; value := Format_RFC1123 now |};
    {| keys := commit_hash; value := hash |} ].

(** [for _, change := range changeset { SetNestedField(...) }]: stops at
    the first error, with the record as changed so far. *)
Fixpoint apply (obj : Obj) (changes : list unstructuredChange)
  : outcome (Obj * option error) :=
  match changes with
  | [] => Ret (obj, None)
  | change :: rest =>
      match SetNestedField obj (VString (value change)) (keys change) with
      | Ret (obj', None) => apply obj' rest
      | other => other
      end
  end.

(** The closure handed to [retry.RetryOnConflict]. *)
Definition attempt (ctx : context) (repo : Repository)
    (changes : list unstructuredChange) : M (option error) :=
  result ← Get ctx (Namespace repo) (Name repo);
  match result with
  | inr getErr => mret (Some getErr)
  | inl obj =>
      '(obj', err) ← lift (apply obj changes);
      match err with
      | Some err => mret (Some err)
      | None =>
          updated ← Update ctx (Namespace repo) obj';
          match updated with
          | inr updateErr => mret (Some updateErr)
          | inl _ => mret None
          end
      end
  end.

(** The conflict-safe update of [processRepo]. *)
Definition applyChangeset (ctx : context) (repo : Repository)
    (changes : list unstructuredChange) : M (option error) :=
  RetryOnConflict DefaultRetry (attempt ctx repo changes).

(** [defer wg.Done()] is the last statement: it is reached, and the call
    registered and run, only when the function gets that far. *)
Definition processRepo (ctx : context) (repo : Repository) : M unit :=
  '(hash, err) ← getLatestCommit ctx repo;
  match err with
  | Some err =>
      slog_Error "Failed to get latest commit"
        [error_attr err; ("repository", VString (URL repo))]
  | None =>
      slog_Info "Latest commit hash retrieved from repository"
        [("repository", VString (Name repo)); ("hash", VString hash)];;
      now ← time_Now;
      retryErr ← applyChangeset ctx repo (changeset now hash);
      match retryErr with
      | Some retryErr =>
          slog_Warn "failed to update GithubRepository"
            [error_attr retryErr; ("namespace", VString (Namespace repo));
             ("name", VString (Name repo))]
      | None => mret ()
      end;;
      wg_Done
  end.

Fixpoint dispatch (repos : list Repository) : M unit :=
  match repos with
  | [] => mret ()
  | repo :: rest => wg_Add 1;; go (processRepo Background repo);; dispatch rest
  end.

Definition main : M unit :=
  slog_Info "Ernesto initialized" [];;
  '(repos, err) ← getRepos Background;
  match err with
  | Some err => slog_Error "Failed to get repos" [error_attr err]
  | None => spew_Dump
  end;;
  dispatch (elems repos);;
  wg_Wait.

End Cronjob.

(* ===================================================================== *)
(** ** The ticker-only variant *)
(* ===================================================================== *)

(** The third [main] package of the repository: it lists on start and on
    every tick of ten seconds, and does nothing else. *)

Module Ticker.

Record Repository := {
  Name : string;
  Namespace : string;
  URL : option string;
  AccessToken : string;
}.

Definition decode (repo : Obj) : M Repository :=
  metadata ← lift (assert_map (repo !! "metadata"));
  slog_Info "Found repo" [("name", map_index metadata "name")];;
  mret {| Name := GetName repo; Namespace := GetNamespace repo;
          URL := None; AccessToken := EmptyString |}.

Fixpoint decode_all (items : list Obj) : M (list Repository) :=
  match items with
  | [] => mret []
  | repo :: rest =>
      r ← decode repo;
      rs ← decode_all rest;
      mret (r :: rs)
  end.

(** Ends in [return nil, nil]. *)
Definition getRepos (ctx : context) : M (slice Repository * option error) :=
  repos ← List ctx tacos;
  match repos with
  | inr err => mret (None, Some err)
  | inl items =>
      repositories ← decode_all items;
      mret (None, None)
  end.

Definition tick : M unit :=
  '(repos, err) ← getRepos NotifyContext;
  match err with
  | Some err => slog_Error "Failed to get repos" [error_attr err]
  | None => spew_Dump
  end.

(** The [for { select { ... } }] loop: no case leaves it. *)
Fixpoint Loop (picked : list select_case) : M standing :=
  match picked with
  | [] => mret InLoop
  | case_ticker :: rest => tick;; Loop rest
  | case_done :: rest => cancel;; Loop rest
  end.

Definition main (picked : list select_case) : M standing :=
  slog_Info "Ernesto initialized" [];;
  tick;;
  Loop picked.

End Ticker.

(* ===================================================================== *)
(** ** Observations used in the statements *)
(* ===================================================================== *)

(** Every level the two annotation paths walk through is either missing or
    a map. *)
Definition containers_on_path (record : Obj) : Prop :=
  match record !! "metadata" with
  | None => True
  | Some (VMap metadata) =>
      match metadata !! "annotations" with
      | None | Some (VMap _) => True
      | Some _ => False
      end
  | Some _ => False
  end.

#[global] Instance containers_on_path_dec (record : Obj) :
  Decision (containers_on_path record).
Proof.
  unfold containers_on_path.
  destruct (record !! "metadata") as [[| | | | |metadata]|]; try apply _.
  destruct (metadata !! "annotations") as [[| | | | |annotations]|]; apply _.
Defined.

(** The sleep between two rounds under a backoff of duration [d] with the
    jitter of [retry.DefaultRetry]: [d] lengthened by the next random
    number. *)
Definition pause (d : Z) : M unit :=
  s ← wait_Jitter d (Jitter DefaultRetry);
  time_Sleep s.

(** What [pause] sleeps in [w], and the world it leaves. *)
Definition slept (d : Z) (w : World) : Z :=
  lengthen d (Jitter DefaultRetry) (Float64_of w).

(** [s] is [d] lengthened by less than a tenth. *)
Definition lengthened (d s : Z) : Prop := (d ≤ s ∧ 10 * (s - d) < d)%Z.

(** [RetryOnConflict] under a backoff of steady duration [d] with the
    jitter of [retry.DefaultRetry], written as its rounds: [n] attempts are
    left and [lastErr] is what the closure has assigned so far. *)
Fixpoint retry_rounds (d : Z) (n : nat) (fn : M (option error))
    (lastErr : option error) : M (option error) :=
  match n with
  | 0 => mret (Some (default ErrWaitTimeout lastErr))
  | S n' =>
      err ← fn;
      match err with
      | None => mret None
      | Some e =>
          if IsConflict e then
            match n' with
            | 0 => mret (Some e)
            | S _ => pause d;; retry_rounds d n' fn (Some e)
            end
          else if Interrupted e then mret (Some (default e lastErr))
          else mret (Some e)
      end
  end.

(** The first [k] rounds of the loop, each ended by a conflict and
    followed by its sleep: the conflict of the last of them (or [lastErr],
    when [k] is none) and the world in which the next round starts; [None]
    when one of the [k] rounds ends otherwise. *)
Fixpoint rounds_before (k : nat) (d : Z) (fn : M (option error))
    (lastErr : option error) (w : World) : option (option error * World) :=
  match k with
  | 0 => Some (lastErr, w)
  | S k' =>
      match fn w with
      | (Ret (Some e), w1) =>
          if IsConflict e then rounds_before k' d fn (Some e) (pause d w1).2
          else None
      | _ => None
      end
  end.

(** A backoff whose duration stays what it is, with the jitter of
    [retry.DefaultRetry]: factor one, no cap. *)
Definition steady (b : Backoff) : Prop :=
  Factor b = QArith_base.Qmake 1 1 ∧ Cap b = 0%Z ∧ Jitter b = Jitter DefaultRetry.

Inductive kind :=
| KList | KGet | KUpdate | KClone | KHead | KNow | KSleep | KLog | KDump
| KAdd | KDone | KCancel.

Definition kind_of (ev : event) : kind :=
  match ev with
  | EvList _ _ => KList
  | EvGet _ _ _ => KGet
  | EvUpdate _ _ _ => KUpdate
  | EvClone _ _ _ _ => KClone
  | EvHead _ => KHead
  | EvNow _ => KNow
  | EvSleep _ => KSleep
  | EvLog _ _ _ => KLog
  | EvDump => KDump
  | EvAdd _ => KAdd
  | EvDone => KDone
  | EvCancel => KCancel
  end.

#[global] Instance kind_eq_dec : EqDecision kind.
Proof. solve_decision. Defined.

(** How many events of kind [k] a stretch of the trace holds. *)
Definition count (k : kind) (evs : list event) : nat :=
  List.length (filter (λ ev, kind_of ev = k) evs).

(** The events of one run of the closure of [processRepo], with the error
    it returns: a read that failed; a read followed by a path that could
    not be set; a read and the write of the record just read with the
    changes applied, refused or accepted. *)
Inductive round_trace (namespace name : string)
    (changes : list Cronjob.unstructuredChange) : list event → option error → Prop :=
| round_read_failed e :
    round_trace namespace name changes [EvGet namespace name (inr e)] (Some e)
| round_set_failed read obj' e :
    Cronjob.apply read changes = Ret (obj', Some e) →
    round_trace namespace name changes [EvGet namespace name (inl read)] (Some e)
| round_write_failed read payload e :
    Cronjob.apply read changes = Ret (payload, None) →
    round_trace namespace name changes
      [EvGet namespace name (inl read); EvUpdate namespace payload (inr e)] (Some e)
| round_written read payload stored :
    Cronjob.apply read changes = Ret (payload, None) →
    round_trace namespace name changes
      [EvGet namespace name (inl read); EvUpdate namespace payload (inl stored)] None.

(** The events of the whole retry loop with [n] attempts to go, after
    rounds of which the last conflict was [lastErr], and the error the loop
    returns.  A round that succeeds ends the loop with no error.  A round
    that fails with an error that is no conflict ends it with that error,
    unless the error is one of [wait.Interrupted] and a conflict came
    before: then with that conflict.  A round that fails with a conflict
    ends it with that conflict when no attempt is left; else there follow a
    sleep of [d], lengthened by less than a tenth, and the rest. *)
Inductive rounds_trace (namespace name : string)
    (changes : list Cronjob.unstructuredChange) (d : Z)
  : nat → option error → list event → option error → Prop :=
| rounds_done n lastErr evs :
    round_trace namespace name changes evs None →
    rounds_trace namespace name changes d (S n) lastErr evs None
| rounds_failed n lastErr evs e :
    round_trace namespace name changes evs (Some e) →
    IsConflict e = false →
    rounds_trace namespace name changes d (S n) lastErr evs
      (Some (if Interrupted e then default e lastErr else e))
| rounds_exhausted lastErr evs e :
    round_trace namespace name changes evs (Some e) →
    IsConflict e = true →
    rounds_trace namespace name changes d 1 lastErr evs (Some e)
| rounds_retry n lastErr evs e s rest res :
    round_trace namespace name changes evs (Some e) →
    IsConflict e = true →
    lengthened d s →
    rounds_trace namespace name changes d (S n) (Some e) rest res →
    rounds_trace namespace name changes d (S (S n)) lastErr
      (evs ++ EvSleep s :: rest) res.

(** The closure has just been refused on its write with [e]: the last
    event is a write answered with that error. *)
Definition refused_on_write (w : World) (e : error) : bool :=
  match last (trace w) with
  | Some (EvUpdate _ _ (inr e')) => bool_decide (e' = e)
  | _ => false
  end.

(** Runs [fn] for [k] rounds with the sleeps of a backoff of [d] between
    them, as long as each round is refused on its write with a conflict:
    the conflict of the last round if all [k] were, [None] as soon as a
    round ends otherwise. *)
Fixpoint writes_refused (k : nat) (d : Z) (fn : M (option error)) (w : World)
  : option error :=
  match k with
  | 0 => None
  | S k' =>
      match fn w with
      | (Ret (Some e), w1) =>
          if IsConflict e && refused_on_write w1 e then
            match k' with
            | 0 => Some e
            | S _ => writes_refused k' d fn (pause d w1).2
            end
          else None
      | _ => None
      end
  end.

(** The world after [k] rounds of [fn] and the sleeps of a backoff of [d]
    between them. *)
Fixpoint after_rounds (k : nat) (d : Z) (fn : M (option error)) (w : World) : World :=
  match k with
  | 0 => w
  | 1 => (fn w).2
  | S k' => after_rounds k' d fn (pause d (fn w).2).2
  end.

(** The kinds of events of [n] rounds that each end in a refused write,
    with the sleeps between them. *)
Fixpoint write_conflict_kinds (n : nat) : list kind :=
  match n with
  | 0 => []
  | 1 => [KGet; KUpdate]
  | S n' => KGet :: KUpdate :: KSleep :: write_conflict_kinds n'
  end.

(** The text of the error has [needle] somewhere in it. *)
Definition mentions (e : error) (needle : string) : bool :=
  match String.index 0 needle (Error e) with
  | Some _ => true
  | None => false
  end.

(** The record passes the type assertion made for the log line. *)
Definition metadata_is_map (repo : Obj) : Prop :=
  match repo !! "metadata" with
  | Some (VMap _) => True
  | _ => False
  end.

(** The record passes every type assertion of the decoding loop of
    [cmd/main.go] and [cronjob/main.go]: [metadata] and [spec] are maps and
    the three fields read from [spec] are strings.  The name is not among
    them: it is read with [GetName]. *)
Definition decodable (repo : Obj) : Prop :=
  match repo !! "metadata", repo !! "spec" with
  | Some (VMap _), Some (VMap spec) =>
      match spec !! "repoUrl", spec !! "accessToken", spec !! "username" with
      | Some (VString _), Some (VString _), Some (VString _) => True
      | _, _, _ => False
      end
  | _, _ => False
  end.

(** Events that are no work on a repository: listing, logging, dumping,
    cancelling. *)
Definition idle_kind (k : kind) : bool :=
  match k with
  | KList | KLog | KDump | KCancel => true
  | _ => false
  end.

#[global] Instance decodable_dec (repo : Obj) : Decision (decodable repo).
Proof.
  unfold decodable.
  destruct (repo !! "metadata") as [[| | | | |metadata]|]; try apply _.
  destruct (repo !! "spec") as [[| | | | |spec]|]; try apply _.
  destruct (spec !! "repoUrl") as [[| | |url| |]|]; try apply _.
  destruct (spec !! "accessToken") as [[| | |token| |]|]; try apply _.
  destruct (spec !! "username") as [[| | |user| |]|]; apply _.
Defined.

(** From [w] to [w'] nothing has happened but events of idle kinds. *)
Definition quiet (w w' : World) : Prop :=
  ∃ evs : list event,
    trace w' = trace w ++ evs ∧ Forall (λ ev, idle_kind (kind_of ev) = true) evs.

(** The log line of [processRepo] once the commit is known. *)
Definition retrieved (repo : Cronjob.Repository) (hash : string) : event :=
  EvLog LevelInfo "Latest commit hash retrieved from repository"
    [("repository", VString (Cronjob.Name repo)); ("hash", VString hash)].


(** A write the cluster has accepted. *)
Definition accepted (ev : event) : bool :=
  match ev with
  | EvUpdate _ _ (inl _) => true
  | _ => false
  end.

(** How many writes of a stretch of the trace the cluster has accepted. *)
Definition writes_accepted (evs : list event) : nat :=
  List.length (filter (λ ev, accepted ev = true) evs).

(** The line a worker logs when its resolver has failed. *)
Definition resolve_failure (ev : event) : bool :=
  match ev with
  | EvLog LevelError msg _ => bool_decide (msg = "Failed to get latest commit")
  | _ => false
  end.

(** How many workers of a stretch of the trace have had their resolver
    fail. *)
Definition failed_resolves (evs : list event) : nat :=
  List.length (filter (λ ev, resolve_failure ev = true) evs).

(** The durations slept in a stretch of the trace. *)
Definition sleeps (evs : list event) : list Z :=
  omap (λ ev, match ev with EvSleep d => Some d | _ => None end) evs.

(** Events a worker of [cmd/main.go] can leave: of the resolver, the log
    and the WaitGroup. *)
Definition resolver_kind (k : kind) : bool :=
  match k with
  | KClone | KHead | KLog | KDone => true
  | _ => false
  end.

(** Events the lister leaves, and the dump of what it returned: the list
    call, log lines at level info, the dump. *)
Definition lister_event (ev : event) : bool :=
  match ev with
  | EvList _ _ | EvLog LevelInfo _ _ | EvDump => true
  | _ => false
  end.

(** From [w] to [w'] nothing but listing has happened: the WaitGroup is as
    it was. *)
Definition listing (w w' : World) : Prop :=
  wg w' = wg w
  ∧ ∃ evs : list event,
      trace w' = trace w ++ evs ∧ Forall (λ ev, lister_event ev = true) evs.

(** The books of the WaitGroup over a stretch of a run: every worker added
    has signalled [Done] or has logged a failed resolver, and the counter
    has risen by the number of those that failed. *)
Definition accounted (w w' : World) (evs : list event) : Prop :=
  trace w' = trace w ++ evs
  ∧ count KAdd evs = count KDone evs + failed_resolves evs
  ∧ wg w' = (wg w + Z.of_nat (failed_resolves evs))%Z.

(** The cluster proper: what other clients can see and change. *)
Definition cluster (w : World) : gmap (string * string) Obj * N * list incident :=
  (objects w, revision w, schedule w).

(** [k] incidents go by with no call served. *)
Fixpoint idle (k : nat) (w : World) : World :=
  match k with
  | 0 => w
  | S k' => idle k' (befall w).2
  end.

(** [w'] has the cluster that [w] would have after some incidents and no
    call served. *)
Definition drifted (w w' : World) : Prop := ∃ k, cluster w' = cluster (idle k w).

(** Every record but the one under [key] is in [w'] as it would be in [w]
    after some incidents and no call served: as the others have left it. *)
Definition others_as_left (key : string * string) (w w' : World) : Prop :=
  ∃ k, ∀ key', key' ≠ key → objects w' !! key' = objects (idle k w) !! key'.

Definition is_rival (i : incident) : bool :=
  match i with
  | Rival _ _ _ _ => true
  | _ => false
  end.

(** Every record is stored under its own name. *)
Definition consistent (w : World) : Prop :=
  ∀ namespace name obj,
    objects w !! (namespace, name) = Some obj → GetName obj = name.

(* ===================================================================== *)
(** ** Sample inputs *)
(* ===================================================================== *)

Module Sample.

(** The record of the scenario: [repo-a] in [tacos]. *)
Definition repo_a : Obj :=
  <["metadata" := VMap (<["name" := VString "repo-a"]>
                       (<["namespace" := VString "tacos"]>
                       (<["resourceVersion" := VString "1"]> ∅)))]>
  (<["spec" := VMap (<["repoUrl" := VString "https://example/a.git"]>
                    (<["username" := VString "u"]>
                    (<["accessToken" := VString "t"]> ∅)))]> ∅).

(** The reference time of Go's layouts. *)
Definition reference_time : Time :=
  {| Year := 2006; Mon := January; Day := 2; Wday := Monday;
     Hour := 15; Minute := 4; Second := 5; Zone := "MST" |}.

Definition origin : remote :=
  {| remote_username := "u"; remote_password := "t"; remote_head := Some "abc123" |}.

(** A cluster holding [repo_a], its remote at commit [abc123], and the
    given incidents ahead. *)
Definition world (incidents : list incident) : World :=
  {| objects := <[("tacos", "repo-a") := repo_a]> ∅;
     revision := 1;
     schedule := incidents;
     remotes := <["https://example/a.git" := origin]> ∅;
     clock := [reference_time];
     random := [];
     cancelled := false;
     wg := 0;
     trace := [] |}.

(** Another controller labels the record. *)
Definition relabel : incident :=
  Rival "tacos" "repo-a" ["metadata"; "labels"; "owner"] (VString "rival").

(** The rival gets in before each of the five writes. *)
Definition storm : World :=
  world [Calm; relabel; Calm; relabel; Calm; relabel; Calm; relabel; Calm; relabel].

(** The first read is answered with a conflict status. *)
Definition hiccup : World :=
  world [Fault (ApiStatus StatusReasonConflict "try again")].

(** The first read cannot reach the server. *)
Definition outage : World :=
  world [Fault (Transport "dial tcp: i/o timeout")].

(** The remote cannot be reached: the error of the transport names the
    request it could not make. *)
Definition offline : World :=
  world [Fault (Transport
                  ("Get https://example/a.git/info/refs?service=git-upload-pack: "
                   +:+ "dial tcp: i/o timeout"))].

(** The rival gets in before the first write, and the second read is cut
    short by its deadline. *)
Definition lapse : World :=
  world [Calm; relabel; Fault (CutShort true "context deadline exceeded")].

(** The scenario with a source of random numbers that yields a half and
    then three quarters. *)
Definition dice : list N := [2 ^ 62; 2 ^ 62 + 2 ^ 61]%N.

(** [repo_a] with no [accessToken] in its spec. *)
Definition tokenless : World :=
  {| objects :=
       <[("tacos", "repo-a") :=
           <["spec" := VMap (<["repoUrl" := VString "https://example/a.git"]>
                            (<["username" := VString "u"]> ∅))]> repo_a]> ∅;
     revision := 1; schedule := []; remotes := ∅; clock := []; random := [];
     cancelled := false; wg := 0; trace := [] |}.

(** [repo_a] with nothing in its metadata, not even a name. *)
Definition nameless : World :=
  {| objects := <[("tacos", "repo-a") := <["metadata" := VMap ∅]> repo_a]> ∅;
     revision := 1; schedule := []; remotes := ∅; clock := []; random := [];
     cancelled := false; wg := 0; trace := [] |}.

(** The rival gets in before the first write, and then keeps still. *)
Definition gust : World := world [Calm; Calm; relabel].

(** [repo_a] and beside it [repo-b], whose remote is not there. *)
Definition repo_b : Obj :=
  <["metadata" := VMap (<["name" := VString "repo-b"]>
                       (<["namespace" := VString "tacos"]>
                       (<["resourceVersion" := VString "1"]> ∅)))]>
  (<["spec" := VMap (<["repoUrl" := VString "https://example/b.git"]>
                    (<["username" := VString "u"]>
                    (<["accessToken" := VString "t"]> ∅)))]> ∅).

Definition pair : World :=
  {| objects := <[("tacos", "repo-b") := repo_b]> (<[("tacos", "repo-a") := repo_a]> ∅);
     revision := 1; schedule := [];
     remotes := <["https://example/a.git" := origin]> ∅;
     clock := [reference_time]; random := []; cancelled := false; wg := 0;
     trace := [] |}.

(** The network fails under the clone (the list before it goes well). *)
Definition unreachable : World :=
  world [Calm; Fault (Transport "dial tcp: i/o timeout")].

(** The entry of [repo_a] as [cmd/main.go] decodes it, and with a token
    the remote does not accept. *)
Definition cmd_repository : Cmd.Repository :=
  {| Cmd.Name := "repo-a"; Cmd.Namespace := "tacos";
     Cmd.URL := "https://example/a.git"; Cmd.AccessToken := "t";
     Cmd.Username := "u" |}.


Definition repository : Cronjob.Repository :=
  {| Cronjob.Name := "repo-a"; Cronjob.Namespace := "tacos";
     Cronjob.URL := "https://example/a.git"; Cronjob.AccessToken := "t";
     Cronjob.Username := "u"; Cronjob.Unstructured := repo_a |}.

Definition intruder : Cronjob.Repository :=
  {| Cronjob.Name := "repo-a"; Cronjob.Namespace := "tacos";
     Cronjob.URL := "https://example/a.git"; Cronjob.AccessToken := "stale";
     Cronjob.Username := "u"; Cronjob.Unstructured := repo_a |}.

(** The scenario with one worker added to the WaitGroup and not yet
    run. *)
Definition started : World := set_wg 1 (world []).

End Sample.

(* ===================================================================== *)
(** * Properties *)
(* ===================================================================== *)

(** ** Nested fields *)

Lemma NestedField_cons (obj : Obj) (k : string) (q : list string) :
  NestedField obj (k :: q) =
  match q with
  | [] => obj !! k
  | _ :: _ => match obj !! k with
              | Some (VMap m) => NestedField m q
              | _ => None
              end
  end.
Proof. destruct q; reflexivity. Qed.

Lemma NestedField_head_eq (obj obj' : Obj) (k : string) (q : list string) :
  obj' !! k = obj !! k → NestedField obj' (k :: q) = NestedField obj (k :: q).
Proof. intros H. rewrite !NestedField_cons, H. reflexivity. Qed.

Lemma NestedField_empty (q : list string) :
  q ≠ [] → NestedField (∅ : Obj) q = None.
Proof.
  destruct q as [|k q]; [done|]. intros _.
  rewrite NestedField_cons, lookup_empty. by destruct q.
Qed.

Lemma unrelated_cons_inv (k : string) (p q : list string) :
  unrelated (k :: p) (k :: q) → unrelated p q.
Proof.
  intros [H1 H2]. split; intros [r ->]; [apply H1 | apply H2]; by exists r.
Qed.

Lemma unrelated_nonempty (p q : list string) : unrelated p q → p ≠ [] ∧ q ≠ [].
Proof.
  intros [H1 H2]. split; intros ->; [apply H1 | apply H2]; apply prefix_nil.
Qed.

(** One level of the walk. *)
Lemma setNestedFieldNoCopy_step seen (obj : Obj) v field r rest :
  setNestedFieldNoCopy seen obj v (field :: r :: rest) =
  match obj !! field with
  | Some (VMap valMap) =>
      match setNestedFieldNoCopy (seen ++ [field]) valMap v (r :: rest) with
      | Ret (valMap', None) => Ret (<[field := VMap valMap']> obj, None)
      | Ret (_, Some err) => Ret (obj, Some err)
      | Panic msg => Panic msg
      | Hang => Hang
      end
  | Some _ =>
      Ret (obj, Some (errorString
             ("value cannot be set because " +:+ jsonPath (seen ++ [field])
              +:+ " is not a map[string]interface{}")))
  | None =>
      match setNestedFieldNoCopy (seen ++ [field]) ∅ v (r :: rest) with
      | Ret (newVal, None) => Ret (<[field := VMap newVal]> obj, None)
      | Ret (_, Some err) => Ret (obj, Some err)
      | Panic msg => Panic msg
      | Hang => Hang
      end
  end.
Proof. reflexivity. Qed.

(** A successful set leaves every path unrelated to [fields] as it was. *)
Lemma setNestedFieldNoCopy_frame (fields : list string) :
  ∀ seen (obj obj' : Obj) v q,
    setNestedFieldNoCopy seen obj v fields = Ret (obj', None) →
    unrelated q fields →
    NestedField obj' q = NestedField obj q.
Proof.
  induction fields as [|field rest IH]; intros seen obj obj' v q Hset Hq; [done|].
  destruct (unrelated_nonempty _ _ Hq) as [Hq0 _].
  destruct q as [|k q]; [done|]. clear Hq0.
  destruct (decide (k = field)) as [->|Hne].
  - apply unrelated_cons_inv in Hq.
    destruct (unrelated_nonempty _ _ Hq) as [Hqn Hrn].
    destruct rest as [|r rest]; [done|].
    rewrite setNestedFieldNoCopy_step in Hset.
    rewrite !NestedField_cons. destruct q as [|k' q]; [done|].
    destruct (obj !! field) as [[| | | | |valMap]|] eqn:Hf; try done.
    + destruct (setNestedFieldNoCopy _ valMap v (r :: rest))
        as [[valMap' [e|]]| |] eqn:Hrec; try done.
      injection Hset as <-. rewrite lookup_insert_eq.
      eapply IH; eauto.
    + destruct (setNestedFieldNoCopy _ ∅ v (r :: rest))
        as [[newVal [e|]]| |] eqn:Hrec; try done.
      injection Hset as <-. rewrite lookup_insert_eq.
      erewrite IH; eauto. by apply NestedField_empty.
  - apply NestedField_head_eq.
    destruct rest as [|r rest];
      [cbn [setNestedFieldNoCopy] in Hset
      |rewrite setNestedFieldNoCopy_step in Hset].
    + injection Hset as <-. by rewrite lookup_insert_ne.
    + destruct (obj !! field) as [[| | | | |valMap]|] eqn:Hf; try done.
      * destruct (setNestedFieldNoCopy _ valMap v (r :: rest))
          as [[valMap' [e|]]| |]; try done.
        injection Hset as <-. by rewrite lookup_insert_ne.
      * destruct (setNestedFieldNoCopy _ ∅ v (r :: rest))
          as [[newVal [e|]]| |]; try done.
        injection Hset as <-. by rewrite lookup_insert_ne.
Qed.

(** A successful set is read back at [fields]. *)
Lemma setNestedFieldNoCopy_read (fields : list string) :
  ∀ seen (obj obj' : Obj) v,
    setNestedFieldNoCopy seen obj v fields = Ret (obj', None) →
    NestedField obj' fields = Some v.
Proof.
  induction fields as [|field rest IH]; intros seen obj obj' v Hset; [done|].
  destruct rest as [|r rest];
    [cbn [setNestedFieldNoCopy] in Hset
    |rewrite setNestedFieldNoCopy_step in Hset].
  - injection Hset as <-. cbn. by rewrite lookup_insert_eq.
  - rewrite NestedField_cons.
    destruct (obj !! field) as [[| | | | |valMap]|] eqn:Hf; try done.
    + destruct (setNestedFieldNoCopy _ valMap v (r :: rest))
        as [[valMap' [e|]]| |] eqn:Hrec; try done.
      injection Hset as <-. rewrite lookup_insert_eq. eauto.
    + destruct (setNestedFieldNoCopy _ ∅ v (r :: rest))
        as [[newVal [e|]]| |] eqn:Hrec; try done.
      injection Hset as <-. rewrite lookup_insert_eq. eauto.
Qed.

(** On an error nothing has been written. *)
Lemma setNestedFieldNoCopy_error (fields : list string) :
  ∀ seen (obj obj' : Obj) v err,
    setNestedFieldNoCopy seen obj v fields = Ret (obj', Some err) →
    obj' = obj ∧ IsConflict err = false ∧ from_library err.
Proof.
  induction fields as [|field rest IH]; intros seen obj obj' v err Hset; [done|].
  destruct rest as [|r rest]; [done|].
  rewrite setNestedFieldNoCopy_step in Hset.
  destruct (obj !! field) as [[| | | | |valMap]|] eqn:Hf;
    try (injection Hset as <- <-; done).
  - destruct (setNestedFieldNoCopy _ valMap v (r :: rest))
      as [[valMap' [e|]]| |] eqn:Hrec; try done.
    injection Hset as <- <-. by apply IH in Hrec as (_ & ? & ?).
  - destruct (setNestedFieldNoCopy _ ∅ v (r :: rest))
      as [[newVal [e|]]| |] eqn:Hrec; try done.
    injection Hset as <- <-. by apply IH in Hrec as (_ & ? & ?).
Qed.

(** Three-level paths, as the changeset has them, written out. *)
Lemma SetNestedField_three (obj : Obj) (v : value) (a b c : string) :
  SetNestedField obj v [a; b; c] =
  match obj !! a with
  | None => Ret (<[a := VMap (<[b := VMap (<[c := v]> ∅)]> ∅)]> obj, None)
  | Some (VMap m) =>
      match m !! b with
      | None => Ret (<[a := VMap (<[b := VMap (<[c := v]> ∅)]> m)]> obj, None)
      | Some (VMap n) => Ret (<[a := VMap (<[b := VMap (<[c := v]> n)]> m)]> obj, None)
      | Some _ =>
          Ret (obj, Some (errorString
                 ("value cannot be set because " +:+ jsonPath [a; b]
                  +:+ " is not a map[string]interface{}")))
      end
  | Some _ =>
      Ret (obj, Some (errorString
             ("value cannot be set because " +:+ jsonPath [a]
              +:+ " is not a map[string]interface{}")))
  end.
Proof.
  unfold SetNestedField. cbn [setNestedFieldNoCopy app].
  destruct (obj !! a) as [[| | | | |m]|]; try reflexivity.
  destruct (m !! b) as [[| | | | |n]|]; reflexivity.
Qed.

(** ** The changeset loop *)

Lemma apply_frame (changes : list Cronjob.unstructuredChange) :
  ∀ (obj obj' : Obj) q,
    Cronjob.apply obj changes = Ret (obj', None) →
    Forall (λ c, unrelated q (Cronjob.keys c)) changes →
    NestedField obj' q = NestedField obj q.
Proof.
  induction changes as [|c rest IH]; intros obj obj' q Happ Hq; cbn in Happ.
  - by injection Happ as <-.
  - apply Forall_cons in Hq as [Hc Hrest].
    destruct (SetNestedField obj _ (Cronjob.keys c))
      as [[obj1 [e|]]| |] eqn:Hset; try done.
    rewrite (IH _ _ _ Happ Hrest).
    eapply setNestedFieldNoCopy_frame; eauto.
Qed.

(** An error of the loop comes from [SetNestedField]: it is no conflict. *)
Lemma apply_error (changes : list Cronjob.unstructuredChange) :
  ∀ (obj obj' : Obj) err,
    Cronjob.apply obj changes = Ret (obj', Some err) →
    IsConflict err = false ∧ from_library err.
Proof.
  induction changes as [|c rest IH]; intros obj obj' err Happ; cbn in Happ; [done|].
  destruct (SetNestedField obj _ (Cronjob.keys c))
    as [[obj1 [e|]]| |] eqn:Hset; try done; [|eauto].
  injection Happ as <- <-.
  by apply setNestedFieldNoCopy_error in Hset as (_ & ? & ?).
Qed.

Lemma last_sync_time_unrelated : unrelated Cronjob.last_sync_time Cronjob.commit_hash.
Proof. split; intros [k Hk]; discriminate Hk. Qed.

(** With its containers in place the changeset goes through. *)
Lemma apply_changeset_ok (record : Obj) (now : Time) (hash : string) :
  containers_on_path record →
  ∃ record', Cronjob.apply record (Cronjob.changeset now hash) = Ret (record', None).
Proof.
  unfold containers_on_path, Cronjob.changeset, Cronjob.apply,
    Cronjob.last_sync_time, Cronjob.commit_hash; cbn [Cronjob.keys Cronjob.value].
  intros Hshape. rewrite SetNestedField_three.
  destruct (record !! "metadata") as [[| | | | |md]|]; try done.
  - destruct (md !! "annotations") as [[| | | | |ann]|]; try done;
      rewrite SetNestedField_three, lookup_insert_eq, lookup_insert_eq; eauto.
  - rewrite SetNestedField_three, lookup_insert_eq, lookup_insert_eq; eauto.
Qed.

(** Without them it stops with an error at the first path. *)
Lemma apply_changeset_stuck (record : Obj) (now : Time) (hash : string) :
  ¬ containers_on_path record →
  ∃ err, Cronjob.apply record (Cronjob.changeset now hash) = Ret (record, Some err).
Proof.
  unfold containers_on_path, Cronjob.changeset, Cronjob.apply,
    Cronjob.last_sync_time, Cronjob.commit_hash; cbn [Cronjob.keys Cronjob.value].
  intros Hshape. rewrite SetNestedField_three.
  destruct (record !! "metadata") as [[| | | | |md]|]; eauto; try (by destruct Hshape).
  destruct (md !! "annotations") as [[| | | | |ann]|]; eauto; by destruct Hshape.
Qed.

Lemma apply_changeset_read (record record' : Obj) (now : Time) (hash : string) :
  Cronjob.apply record (Cronjob.changeset now hash) = Ret (record', None) →
  NestedField record' Cronjob.last_sync_time = Some (VString (Format_RFC1123 now))
  ∧ NestedField record' Cronjob.commit_hash = Some (VString hash).
Proof.
  unfold Cronjob.changeset, Cronjob.apply; cbn [Cronjob.keys Cronjob.value].
  destruct (SetNestedField record _ Cronjob.last_sync_time)
    as [[obj1 [e|]]| |] eqn:H1; try done.
  destruct (SetNestedField obj1 _ Cronjob.commit_hash)
    as [[obj2 [e|]]| |] eqn:H2; try done.
  intros [= <-]. split.
  - erewrite setNestedFieldNoCopy_frame;
      [eapply setNestedFieldNoCopy_read; exact H1 | exact H2
      | apply last_sync_time_unrelated].
  - eapply setNestedFieldNoCopy_read; exact H2.
Qed.

(** C6. Applying the changeset to a record whose [metadata] and
    [metadata.annotations] are each a map or missing succeeds, making the
    maps that are missing; afterwards the two annotation paths hold the
    formatted time and the commit hash, [metadata.annotations] is a map, and
    every path [q] that neither leads to one of the two paths nor runs
    through one reads exactly as before. *)
Theorem changeset_sets_its_paths_only
    (record : Obj) (now : Time) (hash : string) (q : list string) :
  containers_on_path record →
  unrelated q Cronjob.last_sync_time →
  unrelated q Cronjob.commit_hash →
  ∃ record' annotations,
    Cronjob.apply record (Cronjob.changeset now hash) = Ret (record', None)
    ∧ NestedField record' ["metadata"; "annotations"] = Some (VMap annotations)
    ∧ NestedField record' Cronjob.last_sync_time = Some (VString (Format_RFC1123 now))
    ∧ NestedField record' Cronjob.commit_hash = Some (VString hash)
    ∧ NestedField record' q = NestedField record q.
Proof.
  intros Hshape Hq1 Hq2.
  destruct (apply_changeset_ok record now hash Hshape) as [record' Happ].
  destruct (apply_changeset_read _ _ _ _ Happ) as [Ht Hh].
  assert (∃ annotations,
            NestedField record' ["metadata"; "annotations"] = Some (VMap annotations))
    as [annotations Hann].
  { unfold Cronjob.commit_hash in Hh. cbn in Hh |- *.
    destruct (record' !! "metadata") as [[| | | | |md]|]; try done.
    destruct (md !! "annotations") as [[| | | | |ann]|]; try done. eauto. }
  exists record', annotations. repeat split; try done.
  eapply apply_frame; [exact Happ|].
  unfold Cronjob.changeset. by repeat apply Forall_cons_2; [..|apply Forall_nil].
Qed.

(** The scenario's record has no annotations; its name is left alone. *)
Lemma changeset_sets_its_paths_only_witness :
  ∃ record' annotations,
    Cronjob.apply Sample.repo_a (Cronjob.changeset Sample.reference_time "abc123")
      = Ret (record', None)
    ∧ NestedField record' ["metadata"; "annotations"] = Some (VMap annotations)
    ∧ NestedField record' Cronjob.last_sync_time
      = Some (VString (Format_RFC1123 Sample.reference_time))
    ∧ NestedField record' Cronjob.commit_hash = Some (VString "abc123")
    ∧ NestedField record' ["metadata"; "name"]
      = NestedField Sample.repo_a ["metadata"; "name"].
Proof.
  apply (changeset_sets_its_paths_only Sample.repo_a Sample.reference_time "abc123"
           ["metadata"; "name"]).
  - vm_compute. exact I.
  - split; intros [k Hk]; discriminate Hk.
  - split; intros [k Hk]; discriminate Hk.
Defined.

(** ** Running monadic code *)

Lemma run_bind {A B} (m : M A) (k : A → M B) (w : World) :
  (m ≫= k) w =
  match m w with
  | (Ret a, w') => k a w'
  | (Panic msg, w') => (Panic msg, w')
  | (Hang, w') => (Hang, w')
  end.
Proof. reflexivity. Qed.

Lemma run_ret {A} (a : A) (w : World) : (mret a : M A) w = (Ret a, w).
Proof. reflexivity. Qed.

(** ** The retry wrapper *)

(** A pause is a sleep, lengthened by what the next random number
    says. *)
Lemma pause_run (d : Z) (w : World) :
  pause d w = (Ret (), emit (EvSleep (slept d w)) (set_random (tail (random w)) w)).
Proof. reflexivity. Qed.

Lemma lengthen_tenth (d m : Z) (b : positive) :
  (0 < d)%Z → (0 ≤ m < Zpos b)%Z →
  lengthened d (lengthen d (QArith_base.Qmake 1 10) (QArith_base.Qmake m b)).
Proof.
  intros Hd Hm. unfold lengthened, lengthen.
  replace (bool_decide (QArith_base.Qnum (QArith_base.Qmake 1 10) ≤ 0)%Z) with false
    by reflexivity.
  unfold Qround.Qfloor, QArith_base.Qmult, QArith_base.inject_Z.
  cbn [QArith_base.Qnum QArith_base.Qden].
  rewrite !Pos2Z.inj_mul.
  set (B := Zpos b) in *.
  assert (0 ≤ m * 1 * d / (B * 10 * 1))%Z as Hq0 by (apply Z.div_pos; nia).
  assert ((B * 10 * 1) * (m * 1 * d / (B * 10 * 1)) ≤ m * 1 * d)%Z as Hq1
    by (apply Z.mul_div_le; lia).
  set (q := (m * 1 * d / (B * 10 * 1))%Z) in *.
  change (Z.pos 10) with 10%Z in *. change (Z.pos 1) with 1%Z in *.
  split; [lia|nia].
Qed.

Lemma slept_lengthened (d : Z) (w : World) : (0 < d)%Z → lengthened d (slept d w).
Proof.
  intros Hd. unfold slept, Float64_of.
  change (Jitter DefaultRetry) with (QArith_base.Qmake 1 10).
  destruct (random w) as [|n rest].
  - apply (lengthen_tenth d 0 1 Hd). lia.
  - apply lengthen_tenth; [done|]. split; [apply N2Z.is_nonneg|].
    apply (N2Z.inj_lt _ (Npos int63)). by apply N.mod_lt.
Qed.

Lemma Step_steady (b : Backoff) (n : nat) (w : World) :
  steady b → Steps b = S n →
  Step b w = (Ret (slept (Duration b) w,
                   {| Duration := Duration b; Factor := Factor b; Jitter := Jitter b;
                      Steps := n; Cap := Cap b |}),
              set_random (tail (random w)) w).
Proof.
  intros (HF & HC & HJ) HS. unfold Step. rewrite HS, HF, HC, HJ.
  replace (bool_decide (0 < QArith_base.Qnum (Jitter DefaultRetry))%Z) with true
    by reflexivity.
  cbn -[wait_Jitter Jitter DefaultRetry]. rewrite Z.mul_1_r, Z.div_1_r. reflexivity.
Qed.

(** The wrapper is its rounds. *)
Lemma OnError_rounds (fn : M (option error)) (n : nat) :
  ∀ (b : Backoff) (lastErr : option error) (w : World),
    steady b → Steps b = n →
    (ExponentialBackoff_loop n b
       (λ lastErr : option error,
          err ← fn;
          match err with
          | None => mret (lastErr, (true, None))
          | Some e =>
              if IsConflict e then mret (Some e, (false, None))
              else mret (lastErr, (false, Some e))
          end) lastErr
     ≫= (λ '(lastErr, err),
           match err, lastErr with
           | Some e, Some _ => if Interrupted e then mret lastErr else mret err
           | _, _ => mret err
           end)) w
    = retry_rounds (Duration b) n fn lastErr w.
Proof.
  induction n as [|n IH]; intros b lastErr w Hb HS; [by destruct lastErr|].
  cbn [ExponentialBackoff_loop retry_rounds].
  destruct (decide (Steps b = 0)) as [H0|_]; [congruence|].
  rewrite !run_bind.
  destruct (fn w) as [[[e|]| |] w1]; try reflexivity.
  destruct (IsConflict e) eqn:Hc; cbn -[ExponentialBackoff_loop retry_rounds Step decide pause].
  - destruct (decide (Steps b = 1)) as [H1|H1].
    + assert (n = 0) as -> by lia. reflexivity.
    + destruct n as [|n]; [lia|].
      rewrite !run_bind, (Step_steady b (S n) w1 Hb HS), pause_run.
      cbn -[ExponentialBackoff_loop retry_rounds Step decide pause].
      apply (IH {| Duration := Duration b; Factor := Factor b; Jitter := Jitter b;
                   Steps := S n; Cap := Cap b |});
        [by destruct Hb as (? & ? & ?) | reflexivity].
  - by destruct lastErr, (Interrupted e).
Qed.

Lemma RetryOnConflict_rounds (fn : M (option error)) (w : World) :
  RetryOnConflict DefaultRetry fn w = retry_rounds 10000000 5 fn None w.
Proof.
  unfold RetryOnConflict, OnError, ExponentialBackoff.
  exact (OnError_rounds fn 5 DefaultRetry None w
           (conj eq_refl (conj eq_refl eq_refl)) eq_refl).
Qed.

(** ** What a remote call can do to the world *)

Lemma befall_trace (w : World) : trace (befall w).2 = trace w.
Proof.
  unfold befall. destruct (schedule w) as [|[|f|ns name fields v] rest]; try done.
  cbn. destruct (objects w !! (ns, name)) as [cur|]; [|done].
  destruct (SetNestedField cur v fields) as [[cur' [e|]]| |]; try done.
  by destruct (decide _).
Qed.

Lemma befall_wg (w : World) : wg (befall w).2 = wg w.
Proof.
  unfold befall. destruct (schedule w) as [|[|f|ns name fields v] rest]; try done.
  cbn. destruct (objects w !! (ns, name)) as [cur|]; [|done].
  destruct (SetNestedField cur v fields) as [[cur' [e|]]| |]; try done.
  by destruct (decide _).
Qed.

Lemma befall_from_library (w : World) (e : error) :
  (befall w).1 = Some e → from_library e.
Proof.
  unfold befall. destruct (schedule w) as [|[|f|ns name fields v] rest]; try done.
  cbn. intros [= <-]. by destruct f.
Qed.

Lemma befall_cluster (w1 w2 : World) :
  cluster w1 = cluster w2 →
  (befall w1).1 = (befall w2).1 ∧ cluster (befall w1).2 = cluster (befall w2).2.
Proof.
  unfold cluster. intros [= Ho Hr Hs].
  destruct w1 as [o1 r1 s1 g1 c1 d1 x1 n1 t1], w2 as [o2 r2 s2 g2 c2 d2 x2 n2 t2].
  cbn in Ho, Hr, Hs. subst o2 r2 s2. unfold befall; cbn.
  destruct s1 as [|[|f|ns name fields v] rest]; cbn; try done.
  destruct (o1 !! (ns, name)) as [cur|]; [|done].
  destruct (SetNestedField cur v fields) as [[cur' [e|]]| |]; try done.
  by destruct (decide _).
Qed.

Lemma idle_cluster (k : nat) :
  ∀ w1 w2, cluster w1 = cluster w2 → cluster (idle k w1) = cluster (idle k w2).
Proof.
  induction k as [|k IH]; intros w1 w2 H; [done|].
  cbn. apply IH. by apply befall_cluster.
Qed.

Lemma idle_add (j k : nat) (w : World) : idle k (idle j w) = idle (j + k) w.
Proof. revert w. induction j as [|j IH]; intros w; [done|]. cbn. apply IH. Qed.

Lemma drifted_refl (w : World) : drifted w w.
Proof. by exists 0. Qed.

Lemma drifted_trans (w1 w2 w3 : World) : drifted w1 w2 → drifted w2 w3 → drifted w1 w3.
Proof.
  intros [j Hj] [k Hk]. exists (j + k).
  rewrite Hk, <- idle_add. by apply idle_cluster.
Qed.

Lemma drifted_emit (w w' : World) (ev : event) : drifted w w' → drifted w (emit ev w').
Proof. intros [k Hk]. by exists k. Qed.

Lemma drifted_drawn (w w' : World) (r : list N) :
  drifted w w' → drifted w (set_random r w').
Proof. intros [k Hk]. by exists k. Qed.

Lemma drifted_befall (w : World) : drifted w (befall w).2.
Proof. by exists 1. Qed.

(** With no rival ahead the records stay as they are. *)
Lemma idle_no_rival (k : nat) :
  ∀ w, Forall (λ i, is_rival i = false) (schedule w) →
       objects (idle k w) = objects w.
Proof.
  induction k as [|k IH]; intros w Hs; [done|]. cbn.
  assert (objects (befall w).2 = objects w
          ∧ Forall (λ i, is_rival i = false) (schedule (befall w).2)) as [Ho Hs'].
  { unfold befall. destruct (schedule w) as [|i rest] eqn:Hw; [by cbn; rewrite Hw|].
    apply Forall_cons in Hs as [Hi Hrest].
    destruct i; try done. }
  by rewrite IH.
Qed.

(** A read-only call: at most one incident goes by. *)
Lemma remote_call_read {A} (ctx : context) (f : World → A + error)
    (w w1 : World) (res : A + error) :
  remote_call ctx (λ w, (f w, w)) w = (res, w1) →
  trace w1 = trace w ∧ wg w1 = wg w ∧ drifted w w1
  ∧ (∀ e, res = inr e → (∀ w0 e0, f w0 = inr e0 → from_library e0) → from_library e)
  ∧ (∀ a, res = inl a → f w1 = inl a).
Proof.
  unfold remote_call. destruct (ctx_err ctx w) as [e|] eqn:Hctx.
  - intros [= <- <-]. repeat split; try done; [apply drifted_refl|].
    intros e' [= <-] _. unfold ctx_err in Hctx.
    destruct ctx; [done|]. destruct (cancelled w); [|done]. by injection Hctx as <-.
  - destruct (befall w) as [[e|] wb] eqn:Hb.
    + intros [= <- <-].
      pose proof (befall_trace w) as Ht. pose proof (befall_wg w) as Hw.
      pose proof (drifted_befall w) as Hd.
      pose proof (befall_from_library w e) as Hl.
      rewrite Hb in Ht, Hw, Hd, Hl. cbn in *.
      repeat split; try done. intros e' [= <-] _. by apply Hl.
    + intros [= <- <-].
      pose proof (befall_trace w) as Ht. pose proof (befall_wg w) as Hw.
      pose proof (drifted_befall w) as Hd. rewrite Hb in Ht, Hw, Hd. cbn in *.
      repeat split; try done. intros e Hres Hf. eapply Hf. exact Hres.
Qed.

Lemma serve_get_from_library namespace name (w : World) (e : error) :
  serve_get namespace name w = inr e → from_library e.
Proof. unfold serve_get. destruct (objects w !! _); [done|]. by intros [= <-]. Qed.

(** A write that is turned down: at most one incident goes by. *)
Lemma remote_call_update_refused (ctx : context) namespace (payload : Obj)
    (w w1 : World) (e : error) :
  remote_call ctx (serve_update namespace payload) w = (inr e, w1) →
  trace w1 = trace w ∧ wg w1 = wg w ∧ drifted w w1 ∧ from_library e.
Proof.
  unfold remote_call. destruct (ctx_err ctx w) as [e0|] eqn:Hctx.
  - intros [= <- <-]. repeat split; try done; [apply drifted_refl|].
    unfold ctx_err in Hctx.
    destruct ctx; [done|]. destruct (cancelled w); [|done]. by injection Hctx as <-.
  - pose proof (befall_trace w) as Ht. pose proof (befall_wg w) as Hw.
    pose proof (drifted_befall w) as Hd.
    pose proof (befall_from_library w) as Hl.
    destruct (befall w) as [[e0|] wb] eqn:Hb; cbn in *.
    + intros [= <- <-]. repeat split; try done. by apply Hl.
    + unfold serve_update. destruct (decide _).
      { intros [= <- <-]. done. }
      destruct (objects wb !! _) as [cur|].
      * destruct (decide _); [done|]. intros [= <- <-]. done.
      * intros [= <- <-]. done.
Qed.

(** A write that is accepted: the record submitted, stamped, is what the
    cluster holds under the record's own name. *)
Lemma remote_call_update_accepted (ctx : context) namespace (payload stored : Obj)
    (w w1 : World) :
  remote_call ctx (serve_update namespace payload) w = (inl stored, w1) →
  trace w1 = trace w ∧ wg w1 = wg w
  ∧ let wb := (befall w).2 in
    objects w1 = <[(namespace, GetName payload) :=
                    stamp (pretty (revision wb + 1)%N) payload]> (objects wb)
    ∧ is_Some (objects wb !! (namespace, GetName payload)).
Proof.
  unfold remote_call. destruct (ctx_err ctx w) as [e0|]; [done|].
  pose proof (befall_trace w) as Ht. pose proof (befall_wg w) as Hw.
  destruct (befall w) as [[e0|] wb] eqn:Hb; [done|]; cbn in *.
  unfold serve_update. destruct (decide _); [done|].
  destruct (objects wb !! _) as [cur|] eqn:Hcur; [|done].
  destruct (decide _); [|done]. intros [= <- <-].
  repeat split; done.
Qed.

(** ** One run of the closure *)

(** The runs of the closure, by where they end. *)
Lemma attempt_inv (ctx : context) (repo : Cronjob.Repository)
    (changes : list Cronjob.unstructuredChange) (w w' : World)
    (r : outcome (option error)) :
  Cronjob.attempt ctx repo changes w = (r, w') →
  let namespace := Cronjob.Namespace repo in
  let name := Cronjob.Name repo in
  let get := λ w, (serve_get namespace name w, w) in
  (∃ e w1, remote_call ctx get w = (inr e, w1)
           ∧ r = Ret (Some e) ∧ w' = emit (EvGet namespace name (inr e)) w1)
  ∨ (∃ read w1, remote_call ctx get w = (inl read, w1)
      ∧ let wr := emit (EvGet namespace name (inl read)) w1 in
        (∃ o, Cronjob.apply read changes = o ∧ w' = wr
              ∧ match o with
                | Ret (_, Some e) => r = Ret (Some e)
                | Ret (_, None) => False
                | Panic msg => r = Panic msg
                | Hang => r = Hang
                end)
        ∨ (∃ payload, Cronjob.apply read changes = Ret (payload, None)
            ∧ ((∃ e w2, remote_call ctx (serve_update namespace payload) wr = (inr e, w2)
                        ∧ r = Ret (Some e)
                        ∧ w' = emit (EvUpdate namespace payload (inr e)) w2)
               ∨ (∃ stored w2,
                     remote_call ctx (serve_update namespace payload) wr = (inl stored, w2)
                     ∧ r = Ret None
                     ∧ w' = emit (EvUpdate namespace payload (inl stored)) w2)))).
Proof.
  intros Hrun namespace name get. unfold Cronjob.attempt in Hrun.
  rewrite run_bind in Hrun. unfold Get in Hrun. fold namespace name get in Hrun.
  destruct (remote_call ctx get w) as [[read|e] w1] eqn:Hget.
  - right. exists read, w1. split; [done|]. cbn zeta.
    rewrite run_bind in Hrun. unfold lift in Hrun.
    destruct (Cronjob.apply read changes) as [[payload [e|]]|msg|] eqn:Happ.
    + left. rewrite run_ret in Hrun. injection Hrun as <- <-. eauto.
    + right. exists payload. split; [done|].
      rewrite run_bind in Hrun. unfold Update in Hrun.
      destruct (remote_call ctx (serve_update namespace payload) _)
        as [[stored|e] w2] eqn:Hupd;
        rewrite run_ret in Hrun; injection Hrun as <- <-; eauto 10.
    + left. injection Hrun as <- <-. eauto.
    + left. injection Hrun as <- <-. eauto.
  - left. rewrite run_ret in Hrun. injection Hrun as <- <-. eauto.
Qed.

(** What one run leaves in the trace. *)
Lemma attempt_trace (ctx : context) (repo : Cronjob.Repository)
    (changes : list Cronjob.unstructuredChange) (w w' : World) (r : option error) :
  Cronjob.attempt ctx repo changes w = (Ret r, w') →
  ∃ evs : list event, trace w' = trace w ++ evs
         ∧ round_trace (Cronjob.Namespace repo) (Cronjob.Name repo) changes evs r.
Proof.
  intros Hrun. apply attempt_inv in Hrun. cbn zeta in Hrun.
  destruct Hrun as [(e & w1 & Hget & [= ->] & ->)
                   |(read & w1 & Hget & [(o & Happ & -> & Ho)
                                        |(payload & Happ & [(e & w2 & Hupd & [= ->] & ->)
                                                           |(stored & w2 & Hupd & [= ->] & ->)])])].
  - apply remote_call_read in Hget as (Ht & _). eexists. split.
    + cbn. by rewrite Ht.
    + constructor.
  - apply remote_call_read in Hget as (Ht & _).
    destruct o as [[obj' [e|]]| |]; try done. injection Ho as ->.
    eexists. split; [cbn; by rewrite Ht|]. econstructor. exact Happ.
  - apply remote_call_read in Hget as (Ht & _).
    apply remote_call_update_refused in Hupd as (Ht2 & _).
    eexists. split; [cbn; rewrite Ht2; cbn; rewrite Ht, <- app_assoc; reflexivity|].
    by constructor.
  - apply remote_call_read in Hget as (Ht & _).
    apply remote_call_update_accepted in Hupd as (Ht2 & _).
    eexists. split; [cbn; rewrite Ht2; cbn; rewrite Ht, <- app_assoc; reflexivity|].
    by constructor.
Qed.

(** A run that ends in an error has written nothing, and its error is one
    of the client's or of [SetNestedField]. *)
Lemma attempt_error (ctx : context) (repo : Cronjob.Repository)
    (changes : list Cronjob.unstructuredChange) (w w' : World) (e : error) :
  Cronjob.attempt ctx repo changes w = (Ret (Some e), w') →
  from_library e ∧ drifted w w' ∧ wg w' = wg w.
Proof.
  intros Hrun. apply attempt_inv in Hrun. cbn zeta in Hrun.
  destruct Hrun as [(e1 & w1 & Hget & [= ->] & ->)
                   |(read & w1 & Hget & [(o & Happ & -> & Ho)
                                        |(payload & Happ & [(e1 & w2 & Hupd & [= ->] & ->)
                                                           |(stored & w2 & Hupd & [=] & _)])])].
  - apply remote_call_read in Hget as (_ & Hw & Hd & Hl & _).
    repeat split; [|by apply drifted_emit|done].
    apply Hl; [done|]. intros w0 e0. apply serve_get_from_library.
  - apply remote_call_read in Hget as (_ & Hw & Hd & _).
    destruct o as [[obj' [e1|]]| |]; try done. injection Ho as ->.
    apply apply_error in Happ as [_ Hl].
    repeat split; [done|by apply drifted_emit|done].
  - apply remote_call_read in Hget as (_ & Hw & Hd & _).
    apply remote_call_update_refused in Hupd as (_ & Hw2 & Hd2 & Hl).
    repeat split; [done| |cbn in *; congruence].
    apply drifted_emit. eapply drifted_trans; [|exact Hd2]. by apply drifted_emit.
Qed.

(** The changeset's paths are never empty: no run panics or blocks. *)
Lemma apply_changeset_returns (read : Obj) (now : Time) (hash : string) :
  ∃ obj' err, Cronjob.apply read (Cronjob.changeset now hash) = Ret (obj', err).
Proof.
  destruct (decide (containers_on_path read)) as [Hs|Hs].
  - destruct (apply_changeset_ok read now hash Hs) as [obj' H]. eauto.
  - destruct (apply_changeset_stuck read now hash Hs) as [e H]. eauto.
Qed.

Lemma attempt_returns (ctx : context) (repo : Cronjob.Repository)
    (now : Time) (hash : string) (w : World) :
  ∃ r w', Cronjob.attempt ctx repo (Cronjob.changeset now hash) w = (Ret r, w').
Proof.
  destruct (Cronjob.attempt ctx repo (Cronjob.changeset now hash) w) as [r w'] eqn:Hrun.
  pose proof Hrun as Hinv. apply attempt_inv in Hinv. cbn zeta in Hinv.
  destruct Hinv as [(e1 & w1 & Hget & -> & ->)
                   |(read & w1 & Hget & [(o & Happ & -> & Ho)
                                        |(payload & Happ & [(e1 & w2 & Hupd & -> & ->)
                                                           |(stored & w2 & Hupd & -> & ->)])])];
    eauto.
  destruct (apply_changeset_returns read now hash) as (obj' & err & Hret).
  rewrite Hret in Happ. subst o. destruct err; [subst r; eauto|done].
Qed.

(** ** The rounds of the retry loop *)

Section Rounds.
Context (ctx : context) (repo : Cronjob.Repository)
        (changes : list Cronjob.unstructuredChange) (d : Z).

Let fn := Cronjob.attempt ctx repo changes.

(** What the loop leaves in the trace follows the grammar of rounds. *)
Lemma rounds_sound (n : nat) :
  (0 < d)%Z →
  ∀ lastErr (w w' : World) r,
    retry_rounds d (S n) fn lastErr w = (Ret r, w') →
    ∃ evs : list event,
      trace w' = trace w ++ evs
      ∧ rounds_trace (Cronjob.Namespace repo) (Cronjob.Name repo) changes d (S n)
          lastErr evs r.
Proof.
  intros Hd.
  induction n as [|n IH]; intros lastErr w w' r Hrun;
    cbn [retry_rounds] in Hrun; rewrite run_bind in Hrun;
    destruct (fn w) as [[[e|]| |] w1] eqn:Hfn; try done.
  - destruct (attempt_trace _ _ _ _ _ _ Hfn) as (evs & Ht & Hr).
    destruct (IsConflict e) eqn:Hc.
    + injection Hrun as <- <-. exists evs. split; [done|]. by apply rounds_exhausted.
    + exists evs. pose proof (rounds_failed _ _ _ d 0 lastErr _ _ Hr Hc) as Hf.
      destruct (Interrupted e); injection Hrun as <- <-; by split.
  - injection Hrun as <- <-.
    destruct (attempt_trace _ _ _ _ _ _ Hfn) as (evs & Ht & Hr).
    exists evs. split; [done|]. by apply rounds_done.
  - destruct (attempt_trace _ _ _ _ _ _ Hfn) as (evs & Ht & Hr).
    destruct (IsConflict e) eqn:Hc.
    + rewrite run_bind, pause_run in Hrun.
      apply IH in Hrun as (rest & Ht' & Hrest).
      exists (evs ++ EvSleep (slept d w1) :: rest). split.
      * rewrite Ht'. cbn. rewrite Ht, <- !app_assoc. reflexivity.
      * eapply rounds_retry; [done..|by apply slept_lengthened|done].
    + exists evs. pose proof (rounds_failed _ _ _ d (S n) lastErr _ _ Hr Hc) as Hf.
      destruct (Interrupted e); injection Hrun as <- <-; by split.
  - injection Hrun as <- <-.
    destruct (attempt_trace _ _ _ _ _ _ Hfn) as (evs & Ht & Hr).
    exists evs. split; [done|]. by apply rounds_done.
Qed.

(** A loop that ends in an error has written nothing and has not
    touched the WaitGroup. *)
Lemma rounds_error (n : nat) :
  ∀ lastErr (w w' : World) e,
    retry_rounds d (S n) fn lastErr w = (Ret (Some e), w') →
    drifted w w' ∧ wg w' = wg w.
Proof.
  induction n as [|n IH]; intros lastErr w w' e Hrun;
    cbn [retry_rounds] in Hrun; rewrite run_bind in Hrun;
    destruct (fn w) as [[[e1|]| |] w1] eqn:Hfn; try done;
    destruct (attempt_error _ _ _ _ _ _ Hfn) as (Hl & Hd & Hw).
  - destruct (IsConflict e1), (Interrupted e1); by injection Hrun as <- <-.
  - destruct (IsConflict e1).
    + rewrite run_bind, pause_run in Hrun.
      apply IH in Hrun as [Hd' Hw']. split; [|cbn in *; congruence].
      eapply drifted_trans; [|exact Hd']. by apply drifted_emit, drifted_drawn.
    + destruct (Interrupted e1); by injection Hrun as <- <-.
Qed.

End Rounds.

(** No run of the loop over the changeset panics or blocks. *)
Lemma applyChangeset_returns (ctx : context) (repo : Cronjob.Repository)
    (now : Time) (hash : string) (w : World) :
  ∃ r w', Cronjob.applyChangeset ctx repo (Cronjob.changeset now hash) w = (Ret r, w').
Proof.
  unfold Cronjob.applyChangeset. rewrite RetryOnConflict_rounds.
  generalize (@None error) at 1. generalize 5. intros n. revert w.
  induction n as [|n IH]; intros w lastErr; [cbn; eauto|].
  cbn [retry_rounds]. rewrite run_bind.
  destruct (attempt_returns ctx repo now hash w) as ([e|] & w1 & ->); [|cbn; eauto].
  destruct (IsConflict e).
  - destruct n; [cbn; eauto|]. rewrite run_bind, pause_run. apply IH.
  - destruct (Interrupted e); cbn; eauto.
Qed.


(** ** Conflicts and other failures of the update *)

(** A run is given by its outcome and the world it leaves. *)
Lemma run_outcome {A} (p : outcome A * World) (a : outcome A) :
  p.1 = a → p = (a, p.2).
Proof. destruct p. by intros <-. Qed.

(** Closes a goal that both sides compute to the same small value. *)
Ltac by_evaluation :=
  lazymatch goal with
  | |- ?l = ?r => vm_cast_no_check (@eq_refl _ r)
  end.

(** Rounds refused on the write, one after the other. *)
Lemma rounds_refused (ctx : context) (repo : Cronjob.Repository)
    (changes : list Cronjob.unstructuredChange) (d : Z) (k : nat) :
  ∀ (w : World) e,
    writes_refused k d (Cronjob.attempt ctx repo changes) w = Some e →
    IsConflict e = true
    ∧ drifted w (after_rounds k d (Cronjob.attempt ctx repo changes) w)
    ∧ (∃ evs : list event,
         trace (after_rounds k d (Cronjob.attempt ctx repo changes) w) = trace w ++ evs
         ∧ kind_of <$> evs = write_conflict_kinds k)
    ∧ ∀ m lastErr,
        retry_rounds d (k + m) (Cronjob.attempt ctx repo changes) lastErr w =
        match m with
        | 0 => (Ret (Some e), after_rounds k d (Cronjob.attempt ctx repo changes) w)
        | S _ => retry_rounds d m (Cronjob.attempt ctx repo changes) (Some e)
                   (pause d (after_rounds k d (Cronjob.attempt ctx repo changes) w)).2
        end.
Proof.
  induction k as [|k IH]; intros w e Hk; [done|].
  cbn [writes_refused] in Hk.
  destruct (Cronjob.attempt ctx repo changes w) as [[[e1|]| |] w1] eqn:Hfn; try done.
  destruct (IsConflict e1) eqn:Hc; [|done].
  destruct (refused_on_write w1 e1) eqn:Hlast; [|done]. cbn [andb] in Hk.
  destruct (attempt_error _ _ _ _ _ _ Hfn) as (Hl & Hd & Hw).
  destruct (attempt_trace _ _ _ _ _ _ Hfn) as (evs & Ht & Hr).
  assert (kind_of <$> evs = [KGet; KUpdate]) as Hkinds.
  { unfold refused_on_write in Hlast. rewrite Ht in Hlast.
    inversion Hr; subst; try done; rewrite last_snoc in Hlast; done. }
  destruct k as [|k].
  - injection Hk as <-. cbn [after_rounds]. rewrite Hfn. cbn [snd].
    repeat split; try done; [eauto|].
    intros m lastErr. cbn [retry_rounds Nat.add]. rewrite run_bind, Hfn, Hc.
    destruct m; [reflexivity|]. by rewrite run_bind, pause_run.
  - rewrite pause_run in Hk. cbn [snd] in Hk.
    apply IH in Hk as (Hce & Hd' & (rest & Ht' & Hkinds') & Hnext).
    change (after_rounds (S (S k)) d (Cronjob.attempt ctx repo changes) w)
      with (after_rounds (S k) d (Cronjob.attempt ctx repo changes)
              (pause d (Cronjob.attempt ctx repo changes w).2).2).
    rewrite Hfn. cbn [snd]. rewrite pause_run. cbn [snd].
    repeat split; try done.
    + eapply drifted_trans; [|exact Hd']. by apply drifted_emit, drifted_drawn.
    + exists (evs ++ EvSleep (slept d w1) :: rest). split.
      * rewrite Ht'. cbn. rewrite Ht, <- !app_assoc. reflexivity.
      * rewrite fmap_app, Hkinds, fmap_cons, Hkinds'. reflexivity.
    + intros m lastErr. cbn [retry_rounds Nat.add]. rewrite run_bind, Hfn, Hc.
      rewrite run_bind, pause_run. apply Hnext.
Qed.

(** C2. When the store refuses the write of [k] attempts in a row with a
    conflict, [k] at most the budget of five: with attempts left the loop
    sleeps its pause of ten milliseconds, lengthened at random by less than
    a tenth, and runs the closure again, which begins by
    reading the record anew; with the fifth refused it returns the conflict
    error of that last attempt.  Up to there the trace is read, write,
    sleep, read, write, ...; the cluster is as the incidents alone have made
    it, none of the Updater's writes being in it, and with no other writer
    about the records are what they were before. *)
Theorem write_conflict_is_retried_within_budget
    (ctx : context) (repo : Cronjob.Repository)
    (changes : list Cronjob.unstructuredChange) (k : nat) (w : World) (e : error) :
  (k ≤ 5)%nat →
  writes_refused k 10000000 (Cronjob.attempt ctx repo changes) w = Some e →
  let wk := after_rounds k 10000000 (Cronjob.attempt ctx repo changes) w in
  Cronjob.applyChangeset ctx repo changes w =
    (if decide (k = 5) then (Ret (Some e), wk)
     else retry_rounds 10000000 (5 - k) (Cronjob.attempt ctx repo changes) (Some e)
            (pause 10000000 wk).2)
  ∧ IsConflict e = true
  ∧ (∃ evs : list event,
       trace wk = trace w ++ evs ∧ kind_of <$> evs = write_conflict_kinds k)
  ∧ drifted w wk
  ∧ (Forall (λ i, is_rival i = false) (schedule w) → objects wk = objects w).
Proof.
  intros Hk Hrun wk.
  apply rounds_refused in Hrun as (Hc & Hd & Hevs & Hnext). fold wk in Hd, Hevs, Hnext.
  repeat split; try done.
  - unfold Cronjob.applyChangeset. rewrite RetryOnConflict_rounds.
    replace 5 with (k + (5 - k)) at 1 by lia. rewrite Hnext.
    destruct (decide (k = 5)) as [->|Hne]; [done|].
    destruct (5 - k) eqn:Hm; [lia|done].
  - intros Hcalm. destruct Hd as [j Hj]. unfold cluster in Hj.
    injection Hj as Ho _ _. rewrite Ho. by apply idle_no_rival.
Qed.

(** Five writes, each beaten by the rival: the loop gives up with the
    conflict of the fifth. *)
Lemma write_conflict_is_retried_within_budget_witness :
  (Cronjob.applyChangeset Background Sample.repository
     (Cronjob.changeset Sample.reference_time "abc123") Sample.storm).1
  = Ret (Some (conflict "repo-a")).
Proof.
  destruct (write_conflict_is_retried_within_budget Background Sample.repository
              (Cronjob.changeset Sample.reference_time "abc123") 5 Sample.storm
              (conflict "repo-a")) as (-> & _).
  - lia.
  - by_evaluation.
  - reflexivity.
Defined.

(** The error of a path that cannot be set is a plain one. *)
Lemma setNestedFieldNoCopy_plain (fields : list string) :
  ∀ seen (obj obj' : Obj) v err,
    setNestedFieldNoCopy seen obj v fields = Ret (obj', Some err) →
    Interrupted err = false.
Proof.
  induction fields as [|field rest IH]; intros seen obj obj' v err Hset; [done|].
  destruct rest as [|r rest]; [done|].
  rewrite setNestedFieldNoCopy_step in Hset.
  destruct (obj !! field) as [[| | | | |valMap]|] eqn:Hf;
    try (injection Hset as <- <-; done).
  - destruct (setNestedFieldNoCopy _ valMap v (r :: rest))
      as [[valMap' [e|]]| |] eqn:Hrec; try done.
    injection Hset as <- <-. by apply IH in Hrec.
  - destruct (setNestedFieldNoCopy _ ∅ v (r :: rest))
      as [[newVal [e|]]| |] eqn:Hrec; try done.
    injection Hset as <- <-. by apply IH in Hrec.
Qed.

Lemma apply_plain (changes : list Cronjob.unstructuredChange) :
  ∀ (obj obj' : Obj) err,
    Cronjob.apply obj changes = Ret (obj', Some err) → Interrupted err = false.
Proof.
  induction changes as [|c rest IH]; intros obj obj' err Happ; cbn in Happ; [done|].
  destruct (SetNestedField obj _ (Cronjob.keys c))
    as [[obj1 [e|]]| |] eqn:Hset; try done; [|eauto].
  injection Happ as <- <-. by apply setNestedFieldNoCopy_plain in Hset.
Qed.

(** The rounds that ended in a conflict are behind: the loop goes on from
    where they left it. *)
Lemma rounds_before_rounds (fn : M (option error)) (d : Z) (k : nat) :
  ∀ lastErr (w wk : World) lastErr' m,
    rounds_before k d fn lastErr w = Some (lastErr', wk) →
    retry_rounds d (k + S m) fn lastErr w = retry_rounds d (S m) fn lastErr' wk
    ∧ match k with
      | 0 => lastErr' = lastErr
      | S _ => ∃ c, lastErr' = Some c ∧ IsConflict c = true
      end.
Proof.
  induction k as [|k IH]; intros lastErr w wk lastErr' m Hk; cbn [rounds_before] in Hk.
  { by injection Hk as <- <-. }
  destruct (fn w) as [[[e|]| |] w1] eqn:Hfn; try done.
  destruct (IsConflict e) eqn:Hc; [|done].
  apply (IH _ _ _ _ m) in Hk as [Hnext Hlast]. split.
  - cbn [retry_rounds Nat.add]. rewrite run_bind, Hfn, Hc.
    rewrite Nat.add_succ_r, run_bind, pause_run. rewrite pause_run in Hnext.
    cbn [snd] in Hnext. by rewrite <- Nat.add_succ_r.
  - destruct k as [|k]; [subst lastErr'; eauto|done].
Qed.

(** C4, as it holds. After [k] rounds that each ended in a conflict, with
    an attempt left, the closure fails with [e].  If [e] is no conflict the
    loop ends there: [applyChangeset] returns in the world that run left,
    with the events of one round and no sleep.  What it returns is [e]
    itself, with one exception: when [e] is an error that
    [wait.Interrupted] recognises (a cancelled context, a deadline that has
    passed) and a conflict came before, it returns the last such conflict.
    This covers a read that fails otherwise than with a conflict, a write
    that does, and every path that cannot be set, whose error is never a
    conflict and never one of [wait.Interrupted], so that it is always
    returned as it is.  If [e] is a conflict, be it from the read or from
    the write, it is returned when that was the fifth attempt, and is else
    followed by a sleep and the next of the attempts left. *)
Theorem failure_that_is_no_conflict_ends_the_loop
    (ctx : context) (repo : Cronjob.Repository)
    (changes : list Cronjob.unstructuredChange) (k : nat) (w wk w1 : World)
    (lastErr : option error) (e : error) :
  (k < 5)%nat →
  rounds_before k 10000000 (Cronjob.attempt ctx repo changes) None w
    = Some (lastErr, wk) →
  Cronjob.attempt ctx repo changes wk = (Ret (Some e), w1) →
  Cronjob.applyChangeset ctx repo changes w =
    (if IsConflict e
     then (if decide (k = 4) then (Ret (Some e), w1)
           else retry_rounds 10000000 (4 - k) (Cronjob.attempt ctx repo changes)
                  (Some e) (pause 10000000 w1).2)
     else (Ret (Some (if Interrupted e then default e lastErr else e)), w1))
  ∧ (∃ evs : list event,
       trace w1 = trace wk ++ evs
       ∧ round_trace (Cronjob.Namespace repo) (Cronjob.Name repo) changes evs (Some e)
       ∧ count KSleep evs = 0)
  ∧ match k with
    | 0 => lastErr = None
    | S _ => ∃ c, lastErr = Some c ∧ IsConflict c = true
    end
  ∧ (∀ read obj' err,
       Cronjob.apply read changes = Ret (obj', Some err) →
       IsConflict err = false ∧ Interrupted err = false).
Proof.
  intros Hk Hbefore Hrun.
  destruct (rounds_before_rounds _ _ _ _ _ _ _ (4 - k) Hbefore) as [Hnext Hlast].
  split; [|split; [|split]].
  - unfold Cronjob.applyChangeset. rewrite RetryOnConflict_rounds.
    replace 5 with (k + S (4 - k)) by lia. rewrite Hnext.
    cbn [retry_rounds]. rewrite run_bind, Hrun.
    destruct (IsConflict e).
    + destruct (decide (k = 4)) as [->|Hne]; [reflexivity|].
      destruct (4 - k) eqn:Hm; [lia|]. by rewrite run_bind, pause_run.
    + by destruct (Interrupted e).
  - destruct (attempt_trace _ _ _ _ _ _ Hrun) as (evs & Ht & Hr).
    exists evs. repeat split; try done. by inversion Hr.
  - exact Hlast.
  - intros read obj' err Happ. split.
    + by apply apply_error in Happ as [? _].
    + by apply apply_plain in Happ.
Qed.

(** The server cannot be reached for the first read: one attempt, and the
    transport error comes back. *)
Lemma failure_that_is_no_conflict_ends_the_loop_witness :
  (Cronjob.applyChangeset Background Sample.repository
     (Cronjob.changeset Sample.reference_time "abc123") Sample.outage).1
  = Ret (Some (errorString "dial tcp: i/o timeout")).
Proof.
  destruct (failure_that_is_no_conflict_ends_the_loop Background Sample.repository
              (Cronjob.changeset Sample.reference_time "abc123") 0 Sample.outage
              Sample.outage
              (Cronjob.attempt Background Sample.repository
                 (Cronjob.changeset Sample.reference_time "abc123") Sample.outage).2
              None (errorString "dial tcp: i/o timeout")) as (-> & _).
  - lia.
  - reflexivity.
  - apply run_outcome. by_evaluation.
  - reflexivity.
Defined.

(** C4, as stated, fails twice over.  A read that is answered with a
    conflict status: the closure returns that read error, the record never
    having been read, and yet the loop does not return it; it sleeps, reads
    again and ends with no error at all.  And a read that is cut short by
    its deadline after a write was refused with a conflict: the loop ends
    at that read, but what it returns is the conflict of the round before,
    not that read error. *)
Lemma read_conflict_is_retried :
  (Cronjob.attempt Background Sample.repository
     (Cronjob.changeset Sample.reference_time "abc123") Sample.hiccup).1
    = Ret (Some (StatusError StatusReasonConflict "try again"))
  ∧ trace (Cronjob.attempt Background Sample.repository
             (Cronjob.changeset Sample.reference_time "abc123") Sample.hiccup).2
    = [EvGet "tacos" "repo-a" (inr (StatusError StatusReasonConflict "try again"))]
  ∧ (Cronjob.applyChangeset Background Sample.repository
       (Cronjob.changeset Sample.reference_time "abc123") Sample.hiccup).1 = Ret None
  ∧ kind_of <$> trace (Cronjob.applyChangeset Background Sample.repository
                         (Cronjob.changeset Sample.reference_time "abc123") Sample.hiccup).2
    = [KGet; KSleep; KGet; KUpdate]
  ∧ (Cronjob.applyChangeset Background Sample.repository
       (Cronjob.changeset Sample.reference_time "abc123") Sample.lapse).1
    = Ret (Some (conflict "repo-a"))
  ∧ last (trace (Cronjob.applyChangeset Background Sample.repository
                   (Cronjob.changeset Sample.reference_time "abc123") Sample.lapse).2)
    = Some (EvGet "tacos" "repo-a"
              (inr (contextError true "context deadline exceeded")))
  ∧ kind_of <$> trace (Cronjob.applyChangeset Background Sample.repository
                         (Cronjob.changeset Sample.reference_time "abc123") Sample.lapse).2
    = [KGet; KUpdate; KSleep; KGet].
Proof. repeat split; by_evaluation. Qed.

(** ** The resolver and the worker around it *)

Lemma remote_call_clone (url username password : string)
    (w w1 : World) (res : GitRepository + error) :
  remote_call Background (λ w, (serve_clone url username password w, w)) w = (res, w1) →
  trace w1 = trace w ∧ wg w1 = wg w ∧ drifted w w1.
Proof. intros H. apply remote_call_read in H as (? & ? & ? & _). done. Qed.

(** [getLatestCommit] written out: one clone and, if that went well, one
    look at HEAD; an error is handed back as it came. *)
Lemma Cronjob_getLatestCommit_unfold (ctx : context) (repo : Cronjob.Repository)
    (w : World) :
  Cronjob.getLatestCommit ctx repo w =
  let url := Cronjob.URL repo in
  let username := Cronjob.Username repo in
  let password := Cronjob.AccessToken repo in
  match remote_call Background (λ w, (serve_clone url username password w, w)) w with
  | (inr e, w1) =>
      (Ret (EmptyString, Some e), emit (EvClone url username password (inr e)) w1)
  | (inl r, w1) =>
      let w2 := emit (EvClone url username password (inl r)) w1 in
      match storage_head r with
      | Some hash => (Ret (hash, None), emit (EvHead (inl hash)) w2)
      | None =>
          (Ret (EmptyString, Some ErrReferenceNotFound),
           emit (EvHead (inr ErrReferenceNotFound)) w2)
      end
  end.
Proof.
  unfold Cronjob.getLatestCommit. rewrite run_bind. unfold Clone.
  destruct (remote_call _ _ w) as [[r|e] w1]; [|reflexivity].
  cbn zeta. rewrite run_bind. unfold Head. by destruct (storage_head r).
Qed.

Lemma Cmd_getLatestCommit_unfold (ctx : context) (repo : Cmd.Repository) (w : World) :
  Cmd.getLatestCommit ctx repo w =
  let url := Cmd.URL repo in
  let username := Cmd.Username repo in
  let password := Cmd.AccessToken repo in
  match remote_call Background (λ w, (serve_clone url username password w, w)) w with
  | (inr e, w1) =>
      (Ret (EmptyString, Some e), emit (EvClone url username password (inr e)) w1)
  | (inl r, w1) =>
      let w2 := emit (EvClone url username password (inl r)) w1 in
      match storage_head r with
      | Some hash => (Ret (hash, None), emit (EvHead (inl hash)) w2)
      | None =>
          (Ret (EmptyString, Some ErrReferenceNotFound),
           emit (EvHead (inr ErrReferenceNotFound)) w2)
      end
  end.
Proof.
  unfold Cmd.getLatestCommit. rewrite run_bind. unfold Clone.
  destruct (remote_call _ _ w) as [[r|e] w1]; [|reflexivity].
  cbn zeta. rewrite run_bind. unfold Head. by destruct (storage_head r).
Qed.

(** The worker after a resolver that failed: it logs and returns. *)
Lemma Cronjob_processRepo_unresolved (ctx : context) (repo : Cronjob.Repository)
    (w w' : World) (hash : string) (e : error) :
  Cronjob.getLatestCommit ctx repo w = (Ret (hash, Some e), w') →
  Cronjob.processRepo ctx repo w =
  (Ret (), emit (EvLog LevelError "Failed to get latest commit"
                   [error_attr e; ("repository", VString (Cronjob.URL repo))]) w').
Proof. intros H. unfold Cronjob.processRepo. by rewrite run_bind, H. Qed.

Lemma Cmd_processRepo_unresolved (ctx : context) (repo : Cmd.Repository)
    (w w' : World) (hash : string) (e : error) :
  Cmd.getLatestCommit ctx repo w = (Ret (hash, Some e), w') →
  Cmd.processRepo ctx repo w =
  (Ret (), emit (EvLog LevelError "Failed to get latest commit"
                   [error_attr e; ("repository", VString (Cmd.URL repo))]) w').
Proof. intros H. unfold Cmd.processRepo. by rewrite run_bind, H. Qed.

(** C8, as it holds. When [getLatestCommit] fails, in either variant that
    has it, it returns the empty hash and, untouched, the error that the
    clone or the look at HEAD reported: one clone, nothing tried a second
    time, and nothing added to the error, which says what the library made
    it say.  The repository's URL is put next to that error by
    [processRepo], in the record it logs. *)
Theorem resolver_failure_is_handed_back_unchanged :
  (∀ ctx repo (w w' : World) hash e,
     Cronjob.getLatestCommit ctx repo w = (Ret (hash, Some e), w') →
     hash = EmptyString
     ∧ (∃ evs : list event,
          trace w' = trace w ++ evs ∧ count KClone evs = 1
          ∧ (last evs = Some (EvClone (Cronjob.URL repo) (Cronjob.Username repo)
                                (Cronjob.AccessToken repo) (inr e))
             ∨ last evs = Some (EvHead (inr e))))
     ∧ Cronjob.processRepo ctx repo w =
       (Ret (), emit (EvLog LevelError "Failed to get latest commit"
                        [error_attr e; ("repository", VString (Cronjob.URL repo))]) w'))
  ∧ (∀ ctx repo (w w' : World) hash e,
       Cmd.getLatestCommit ctx repo w = (Ret (hash, Some e), w') →
       hash = EmptyString
       ∧ (∃ evs : list event,
            trace w' = trace w ++ evs ∧ count KClone evs = 1
            ∧ (last evs = Some (EvClone (Cmd.URL repo) (Cmd.Username repo)
                                  (Cmd.AccessToken repo) (inr e))
               ∨ last evs = Some (EvHead (inr e))))
       ∧ Cmd.processRepo ctx repo w =
         (Ret (), emit (EvLog LevelError "Failed to get latest commit"
                          [error_attr e; ("repository", VString (Cmd.URL repo))]) w')).
Proof.
  split; intros ctx repo w w' hash e Hrun.
  - split; [|split]; [| |by eapply Cronjob_processRepo_unresolved].
    + rewrite Cronjob_getLatestCommit_unfold in Hrun. cbn zeta in Hrun.
      destruct (remote_call _ _ w) as [[r|e1] w1]; [|by injection Hrun].
      destruct (storage_head r); by injection Hrun.
    + rewrite Cronjob_getLatestCommit_unfold in Hrun. cbn zeta in Hrun.
      destruct (remote_call _ _ w) as [[r|e1] w1] eqn:Hc;
        apply remote_call_clone in Hc as (Ht & _).
      * destruct (storage_head r); [done|]. injection Hrun as _ <- <-.
        eexists [_; _]. cbn. rewrite Ht, <- app_assoc. eauto.
      * injection Hrun as _ <- <-. eexists [_]. cbn. rewrite Ht. eauto.
  - split; [|split]; [| |by eapply Cmd_processRepo_unresolved].
    + rewrite Cmd_getLatestCommit_unfold in Hrun. cbn zeta in Hrun.
      destruct (remote_call _ _ w) as [[r|e1] w1]; [|by injection Hrun].
      destruct (storage_head r); by injection Hrun.
    + rewrite Cmd_getLatestCommit_unfold in Hrun. cbn zeta in Hrun.
      destruct (remote_call _ _ w) as [[r|e1] w1] eqn:Hc;
        apply remote_call_clone in Hc as (Ht & _).
      * destruct (storage_head r); [done|]. injection Hrun as _ <- <-.
        eexists [_; _]. cbn. rewrite Ht, <- app_assoc. eauto.
      * injection Hrun as _ <- <-. eexists [_]. cbn. rewrite Ht. eauto.
Qed.

(** A token the remote turns down: the worker logs go-git's own error with
    the URL beside it. *)
Lemma resolver_failure_is_handed_back_unchanged_witness :
  (Cronjob.processRepo Background Sample.intruder (Sample.world [])).1 = Ret ()
  ∧ last (trace (Cronjob.processRepo Background Sample.intruder (Sample.world [])).2)
    = Some (EvLog LevelError "Failed to get latest commit"
              [("error", VString "authentication required");
               ("repository", VString "https://example/a.git")]).
Proof.
  destruct resolver_failure_is_handed_back_unchanged as [H _].
  destruct (H Background Sample.intruder (Sample.world [])
              (Cronjob.getLatestCommit Background Sample.intruder (Sample.world [])).2
              EmptyString ErrAuthenticationRequired) as (_ & _ & ->).
  - apply run_outcome. by_evaluation.
  - split; by_evaluation.
Defined.

(** C8, as stated, fails: the error that comes back for a token the remote
    turns down is go-git's, as it is, and neither the URL nor the words
    "resolution failed" are in it. *)
Lemma resolver_error_carries_no_url :
  (Cronjob.getLatestCommit Background Sample.intruder (Sample.world [])).1
    = Ret (EmptyString, Some ErrAuthenticationRequired)
  ∧ Error ErrAuthenticationRequired = "authentication required"
  ∧ mentions ErrAuthenticationRequired (Cronjob.URL Sample.intruder) = false
  ∧ mentions ErrAuthenticationRequired "resolution failed" = false.
Proof. repeat split; by_evaluation. Qed.

(** A clone that cannot reach the remote: the error of the transport comes
    back as it is as well, and this one names the URL that was asked
    for. *)
Example transport_error_keeps_its_text :
  (Cronjob.getLatestCommit Background Sample.repository Sample.offline).1
    = Ret (EmptyString,
           Some (errorString
                   ("Get https://example/a.git/info/refs?service=git-upload-pack: "
                    +:+ "dial tcp: i/o timeout")))
  ∧ mentions (errorString
                ("Get https://example/a.git/info/refs?service=git-upload-pack: "
                 +:+ "dial tcp: i/o timeout"))
      (Cronjob.URL Sample.repository) = true.
Proof. split; by_evaluation. Qed.

(** The worker after a resolver that failed leaves the WaitGroup as it
    was: the [defer wg.Done()] at the end of the function is not reached. *)
Lemma early_return_skips_Done (ctx : context) (repo : Cronjob.Repository)
    (w w' : World) (hash : string) (e : error) :
  Cronjob.getLatestCommit ctx repo w = (Ret (hash, Some e), w') →
  ∃ w'' (evs : list event),
    Cronjob.processRepo ctx repo w = (Ret (), w'')
    ∧ wg w'' = wg w ∧ trace w'' = trace w ++ evs ∧ count KDone evs = 0.
Proof.
  intros Hrun. rewrite (Cronjob_processRepo_unresolved _ _ _ _ _ _ Hrun).
  rewrite Cronjob_getLatestCommit_unfold in Hrun. cbn zeta in Hrun.
  destruct (remote_call _ _ w) as [[r|e1] w1] eqn:Hc;
    apply remote_call_clone in Hc as (Ht & Hw & _).
  - destruct (storage_head r); [done|]. injection Hrun as _ <- <-.
    eexists _, [_; _; _]. split; [reflexivity|]. split; [done|].
    split; [cbn; rewrite Ht, <- !app_assoc; reflexivity|reflexivity].
  - injection Hrun as _ <- <-.
    eexists _, [_; _]. split; [reflexivity|]. split; [done|].
    split; [cbn; rewrite Ht, <- !app_assoc; reflexivity|reflexivity].
Qed.


(** C3 on the code. The clone of a repository fails.  In
    [cronjob/main.go] its worker returns with no [Done]: of the counter
    raised by the [Add(1)] calls one stays, and [wg.Wait()] never returns.
    That holds with the failing repository alone and with a second one
    beside it, whose worker is not held up: it gets its commit recorded.
    In [cmd/main.go] the same happens to the worker of a tick, and the
    [wg.Wait()] after the loop blocks once the interrupt has ended it. *)
Theorem failed_resolver_never_signals_Done :
  (Cronjob.main Sample.unreachable).1 = Hang
  ∧ wg (Cronjob.main Sample.unreachable).2 = 1%Z
  ∧ count KAdd (trace (Cronjob.main Sample.unreachable).2) = 1
  ∧ count KDone (trace (Cronjob.main Sample.unreachable).2) = 0
  ∧ (Cronjob.main Sample.pair).1 = Hang
  ∧ wg (Cronjob.main Sample.pair).2 = 1%Z
  ∧ count KAdd (trace (Cronjob.main Sample.pair).2) = 2
  ∧ count KDone (trace (Cronjob.main Sample.pair).2) = 1
  ∧ NestedField
      (default ∅ (objects (Cronjob.main Sample.pair).2 !! ("tacos", "repo-a")))
      Cronjob.commit_hash = Some (VString "abc123")
  ∧ (Cmd.main [case_ticker; case_done]
       (Sample.world [Calm; Calm; Fault (Transport "dial tcp: i/o timeout")])).1 = Hang
  ∧ wg (Cmd.main [case_ticker; case_done]
          (Sample.world [Calm; Calm; Fault (Transport "dial tcp: i/o timeout")])).2 = 1%Z.
Proof. repeat split; by_evaluation. Qed.

(** ** The lister *)

Lemma quiet_refl (w : World) : quiet w w.
Proof. exists []. by rewrite app_nil_r. Qed.

Lemma quiet_trans (w1 w2 w3 : World) : quiet w1 w2 → quiet w2 w3 → quiet w1 w3.
Proof.
  intros (e1 & H1 & F1) (e2 & H2 & F2). exists (e1 ++ e2). split.
  - by rewrite H2, H1, app_assoc.
  - by apply Forall_app.
Qed.

Lemma quiet_emit (w w' : World) (ev : event) :
  quiet w w' → idle_kind (kind_of ev) = true → quiet w (emit ev w').
Proof.
  intros (e1 & H1 & F1) Hev. exists (e1 ++ [ev]). split.
  - cbn. by rewrite H1, app_assoc.
  - apply Forall_app. split; [done|]. by constructor.
Qed.

Ltac decode_run :=
  unfold lift, slog_Info, tell, mbind, M_bind, mret, M_ret;
  cbn -[GetName GetNamespace map_index emit].

Ltac decode_crash :=
  decode_run; eexists _, _; split; [reflexivity|];
  first [apply quiet_refl | by apply quiet_emit; [apply quiet_refl|]].

(** A record that passes the assertions is decoded, under the name
    [GetName] reads (the empty string if there is none); the world gets a
    log line. *)
Lemma Cronjob_decode_decodable (repo : Obj) (w : World) :
  decodable repo →
  ∃ r w', Cronjob.decode repo w = (Ret r, w') ∧ quiet w w'
          ∧ Cronjob.Name r = GetName repo ∧ Cronjob.Unstructured r = repo.
Proof.
  unfold decodable, Cronjob.decode. intros H.
  destruct (repo !! "metadata") as [[| | | | |metadata]|]; try done.
  destruct (repo !! "spec") as [[| | | | |spec]|]; try done. decode_run.
  destruct (spec !! "repoUrl") as [[| | |url| |]|]; try done.
  destruct (spec !! "accessToken") as [[| | |token| |]|]; try done.
  destruct (spec !! "username") as [[| | |user| |]|]; try done. decode_run.
  eexists _, _. split; [reflexivity|]. split; [|done].
  by apply quiet_emit; [apply quiet_refl|].
Qed.

Lemma Cmd_decode_decodable (repo : Obj) (w : World) :
  decodable repo →
  ∃ r w', Cmd.decode repo w = (Ret r, w') ∧ quiet w w' ∧ Cmd.Name r = GetName repo.
Proof.
  unfold decodable, Cmd.decode. intros H.
  destruct (repo !! "metadata") as [[| | | | |metadata]|]; try done.
  destruct (repo !! "spec") as [[| | | | |spec]|]; try done. decode_run.
  destruct (spec !! "repoUrl") as [[| | |url| |]|]; try done.
  destruct (spec !! "accessToken") as [[| | |token| |]|]; try done.
  destruct (spec !! "username") as [[| | |user| |]|]; try done. decode_run.
  eexists _, _. split; [reflexivity|]. split; [|done].
  by apply quiet_emit; [apply quiet_refl|].
Qed.

(** A record that fails one of them makes the loop body panic, having at
    most logged. *)
Lemma Cronjob_decode_panics (repo : Obj) (w : World) :
  ¬ decodable repo → ∃ msg w', Cronjob.decode repo w = (Panic msg, w') ∧ quiet w w'.
Proof.
  unfold decodable, Cronjob.decode. intros H.
  destruct (repo !! "metadata") as [[| | | | |metadata]|]; try decode_crash.
  destruct (repo !! "spec") as [[| | | | |spec]|]; try decode_crash. decode_run.
  destruct (spec !! "repoUrl") as [[| | |url| |]|]; try decode_crash.
  destruct (spec !! "accessToken") as [[| | |token| |]|]; try decode_crash.
  destruct (spec !! "username") as [[| | |user| |]|]; try decode_crash.
  by destruct H.
Qed.

Lemma Cmd_decode_panics (repo : Obj) (w : World) :
  ¬ decodable repo → ∃ msg w', Cmd.decode repo w = (Panic msg, w') ∧ quiet w w'.
Proof.
  unfold decodable, Cmd.decode. intros H.
  destruct (repo !! "metadata") as [[| | | | |metadata]|]; try decode_crash.
  destruct (repo !! "spec") as [[| | | | |spec]|]; try decode_crash. decode_run.
  destruct (spec !! "repoUrl") as [[| | |url| |]|]; try decode_crash.
  destruct (spec !! "accessToken") as [[| | |token| |]|]; try decode_crash.
  destruct (spec !! "username") as [[| | |user| |]|]; try decode_crash.
  by destruct H.
Qed.

Lemma Ticker_decode_run (repo : Obj) (w : World) :
  quiet w (Ticker.decode repo w).2
  ∧ (metadata_is_map repo → ∃ r, (Ticker.decode repo w).1 = Ret r)
  ∧ (Ticker.decode repo w).1 ≠ Hang.
Proof.
  unfold metadata_is_map, Ticker.decode.
  destruct (repo !! "metadata") as [[| | | | |metadata]|]; decode_run;
    (split; [first [apply quiet_refl | by apply quiet_emit; [apply quiet_refl|]]|]);
    split; try done; eauto.
Qed.

(** The decoding loop: one entry for each record, or a panic at the first
    record that fails an assertion. *)
Lemma Cronjob_decode_all_decodable (items : list Obj) :
  ∀ w, Forall decodable items →
       ∃ repos w', Cronjob.decode_all items w = (Ret repos, w') ∧ quiet w w'
                   ∧ Cronjob.Name <$> repos = GetName <$> items
                   ∧ Cronjob.Unstructured <$> repos = items.
Proof.
  induction items as [|repo rest IH]; intros w Hall.
  - exists [], w. repeat split; try done. apply quiet_refl.
  - apply Forall_cons in Hall as [Hrepo Hrest].
    destruct (Cronjob_decode_decodable repo w Hrepo) as (r & w1 & Hr & Hq & Hname & Hu).
    destruct (IH w1 Hrest) as (rs & w2 & Hrs & Hq2 & Hnames & Hus).
    exists (r :: rs), w2. cbn [Cronjob.decode_all].
    rewrite run_bind, Hr, run_bind, Hrs. repeat split; try done.
    + by eapply quiet_trans.
    + rewrite !fmap_cons. congruence.
    + rewrite !fmap_cons. congruence.
Qed.

Lemma Cmd_decode_all_decodable (items : list Obj) :
  ∀ w, Forall decodable items →
       ∃ repos w', Cmd.decode_all items w = (Ret repos, w') ∧ quiet w w'
                   ∧ Cmd.Name <$> repos = GetName <$> items.
Proof.
  induction items as [|repo rest IH]; intros w Hall.
  - exists [], w. repeat split; try done. apply quiet_refl.
  - apply Forall_cons in Hall as [Hrepo Hrest].
    destruct (Cmd_decode_decodable repo w Hrepo) as (r & w1 & Hr & Hq & Hname).
    destruct (IH w1 Hrest) as (rs & w2 & Hrs & Hq2 & Hnames).
    exists (r :: rs), w2. cbn [Cmd.decode_all].
    rewrite run_bind, Hr, run_bind, Hrs. repeat split; try done.
    + by eapply quiet_trans.
    + rewrite !fmap_cons. congruence.
Qed.

Lemma Cronjob_decode_all_panics (items : list Obj) :
  ∀ w, Exists (λ repo, ¬ decodable repo) items →
       ∃ msg w', Cronjob.decode_all items w = (Panic msg, w') ∧ quiet w w'.
Proof.
  induction items as [|repo rest IH]; intros w Hex; [by apply Exists_nil in Hex|].
  cbn [Cronjob.decode_all]. rewrite run_bind.
  destruct (decide (decodable repo)) as [Hok|Hbad].
  - apply Exists_cons in Hex as [Hex|Hex]; [done|].
    destruct (Cronjob_decode_decodable repo w Hok) as (r & w1 & -> & Hq & _).
    destruct (IH w1 Hex) as (msg & w2 & Hrs & Hq2).
    rewrite run_bind, Hrs. exists msg, w2. split; [done|]. by eapply quiet_trans.
  - destruct (Cronjob_decode_panics repo w Hbad) as (msg & w1 & -> & Hq). eauto.
Qed.

Lemma Cmd_decode_all_panics (items : list Obj) :
  ∀ w, Exists (λ repo, ¬ decodable repo) items →
       ∃ msg w', Cmd.decode_all items w = (Panic msg, w') ∧ quiet w w'.
Proof.
  induction items as [|repo rest IH]; intros w Hex; [by apply Exists_nil in Hex|].
  cbn [Cmd.decode_all]. rewrite run_bind.
  destruct (decide (decodable repo)) as [Hok|Hbad].
  - apply Exists_cons in Hex as [Hex|Hex]; [done|].
    destruct (Cmd_decode_decodable repo w Hok) as (r & w1 & -> & Hq & _).
    destruct (IH w1 Hex) as (msg & w2 & Hrs & Hq2).
    rewrite run_bind, Hrs. exists msg, w2. split; [done|]. by eapply quiet_trans.
  - destruct (Cmd_decode_panics repo w Hbad) as (msg & w1 & -> & Hq). eauto.
Qed.

Lemma Ticker_decode_all_run (items : list Obj) :
  ∀ w, quiet w (Ticker.decode_all items w).2
       ∧ (Forall metadata_is_map items → ∃ repos, (Ticker.decode_all items w).1 = Ret repos)
       ∧ (Ticker.decode_all items w).1 ≠ Hang.
Proof.
  induction items as [|repo rest IH]; intros w.
  - repeat split; try done; [apply quiet_refl|]. intros _. by exists [].
  - cbn [Ticker.decode_all]. rewrite run_bind.
    destruct (Ticker_decode_run repo w) as (Hq & Hr & Hh).
    destruct (Ticker.decode repo w) as [[r|msg|] w1] eqn:Hd; cbn [fst snd] in *.
    + rewrite run_bind. destruct (IH w1) as (Hq1 & Hok & Hne).
      destruct (Ticker.decode_all rest w1) as [[rs|msg|] w2] eqn:Hrest; cbn [fst snd] in *.
      * repeat split; try done; [by eapply quiet_trans|]. eauto.
      * repeat split; try done; [by eapply quiet_trans|].
        intros Hall. apply Forall_cons in Hall as [_ Hall].
        destruct (Hok Hall) as [? [=]].
      * done.
    + repeat split; try done. intros Hall. apply Forall_cons in Hall as [Hm _].
      by destruct (Hr Hm) as [? [=]].
    + done.
Qed.

(** A listing changes nothing but the trace and the schedule. *)
Lemma List_run (ctx : context) (namespace : string) (w : World) :
  ∃ res w1, List ctx namespace w = (Ret res, w1) ∧ quiet w w1.
Proof.
  unfold List.
  destruct (remote_call ctx _ w) as [res w1] eqn:Hc.
  apply remote_call_read in Hc as (Ht & _).
  eexists _, _. split; [reflexivity|]. exists [EvList namespace res]. split.
  - cbn. by rewrite Ht.
  - by repeat constructor.
Qed.

Lemma Cronjob_getRepos_unfold (ctx : context) (w : World) :
  Cronjob.getRepos ctx w =
  match List ctx tacos w with
  | (Ret (inl items), w1) =>
      match Cronjob.decode_all items w1 with
      | (Ret repositories, w2) => (Ret (Some repositories, None), w2)
      | (Panic msg, w2) => (Panic msg, w2)
      | (Hang, w2) => (Hang, w2)
      end
  | (Ret (inr err), w1) => (Ret (None, Some err), w1)
  | (Panic msg, w1) => (Panic msg, w1)
  | (Hang, w1) => (Hang, w1)
  end.
Proof.
  unfold Cronjob.getRepos. rewrite run_bind.
  destruct (List ctx tacos w) as [[[items|err]| |] w1]; reflexivity.
Qed.

Lemma Cmd_getRepos_unfold (ctx : context) (w : World) :
  Cmd.getRepos ctx w =
  match List ctx tacos w with
  | (Ret (inl items), w1) =>
      match Cmd.decode_all items w1 with
      | (Ret repositories, w2) => (Ret (Some repositories, None), w2)
      | (Panic msg, w2) => (Panic msg, w2)
      | (Hang, w2) => (Hang, w2)
      end
  | (Ret (inr err), w1) => (Ret (None, Some err), w1)
  | (Panic msg, w1) => (Panic msg, w1)
  | (Hang, w1) => (Hang, w1)
  end.
Proof.
  unfold Cmd.getRepos. rewrite run_bind.
  destruct (List ctx tacos w) as [[[items|err]| |] w1]; reflexivity.
Qed.

Lemma Ticker_getRepos_unfold (ctx : context) (w : World) :
  Ticker.getRepos ctx w =
  match List ctx tacos w with
  | (Ret (inl items), w1) =>
      match Ticker.decode_all items w1 with
      | (Ret repositories, w2) => (Ret (None, None), w2)
      | (Panic msg, w2) => (Panic msg, w2)
      | (Hang, w2) => (Hang, w2)
      end
  | (Ret (inr err), w1) => (Ret (None, Some err), w1)
  | (Panic msg, w1) => (Panic msg, w1)
  | (Hang, w1) => (Hang, w1)
  end.
Proof.
  unfold Ticker.getRepos. rewrite run_bind.
  destruct (List ctx tacos w) as [[[items|err]| |] w1]; reflexivity.
Qed.

(** C7, as it holds. When some listed record fails one of the type
    assertions of the decoding loop ([metadata] or [spec] is no map, or
    [repoUrl], [accessToken] or [username] is missing or no string),
    [getRepos] of [cronjob/main.go] and of [cmd/main.go] panics: the pass
    ends in a crash, no error is returned and no record is skipped.  When
    every record passes them, each is decoded under the name [GetName]
    reads, which for a record with no name is the empty string. *)
Theorem record_failing_an_assertion_panics_the_lister :
  (∀ ctx (w : World) (items : list Obj),
     (List ctx tacos w).1 = Ret (inl items) →
     Exists (λ repo, ¬ decodable repo) items →
     (∃ msg, (Cronjob.getRepos ctx w).1 = Panic msg)
     ∧ (∃ msg, (Cmd.getRepos ctx w).1 = Panic msg))
  ∧ (∀ ctx (w : World) (items : list Obj),
       (List ctx tacos w).1 = Ret (inl items) →
       Forall decodable items →
       (∃ repos, (Cronjob.getRepos ctx w).1 = Ret (Some repos, None)
                 ∧ Cronjob.Name <$> repos = GetName <$> items)
       ∧ (∃ repos, (Cmd.getRepos ctx w).1 = Ret (Some repos, None)
                   ∧ Cmd.Name <$> repos = GetName <$> items)).
Proof.
  split; intros ctx w items Hlist Hitems;
    rewrite Cronjob_getRepos_unfold, Cmd_getRepos_unfold;
    destruct (List ctx tacos w) as [res w1]; cbn [fst] in Hlist; subst res.
  - destruct (Cronjob_decode_all_panics items w1 Hitems) as (m1 & w2 & -> & _).
    destruct (Cmd_decode_all_panics items w1 Hitems) as (m2 & w3 & -> & _).
    split; eexists; reflexivity.
  - destruct (Cronjob_decode_all_decodable items w1 Hitems) as (r1 & w2 & -> & _ & H1 & _).
    destruct (Cmd_decode_all_decodable items w1 Hitems) as (r2 & w3 & -> & _ & H2).
    split; eexists; (split; [reflexivity|done]).
Qed.

(** A record with no access token: the pass panics. *)
Lemma record_failing_an_assertion_panics_the_lister_witness :
  ∃ msg, (Cronjob.getRepos Background Sample.tokenless).1 = Panic msg.
Proof.
  destruct record_failing_an_assertion_panics_the_lister as [H _].
  destruct (H Background Sample.tokenless
              (elems (match (List Background tacos Sample.tokenless).1 with
                      | Ret (inl items) => Some items
                      | _ => None
                      end))) as [Hpanic _].
  - by_evaluation.
  - apply Exists_exists.
    exists (<["spec" := VMap (<["repoUrl" := VString "https://example/a.git"]>
                             (<["username" := VString "u"]> ∅))]> Sample.repo_a).
    split.
    + apply list_elem_of_In. vm_compute. left. reflexivity.
    + vm_compute. intros [].
  - exact Hpanic.
Defined.

(** C7, as stated, fails: with a record that has no access token the
    lister returns no error, it panics; and a record that has no name is
    not noticed at all, it is decoded with the empty name. *)
Lemma malformed_record_is_no_decoding_error :
  (Cronjob.getRepos Background Sample.tokenless).1
    = Panic "interface conversion: interface {} is nil, not string"
  ∧ (Cmd.getRepos Background Sample.tokenless).1
    = Panic "interface conversion: interface {} is nil, not string"
  ∧ (match (Cronjob.getRepos Background Sample.nameless).1 with
     | Ret (Some repos, None) => Some (Cronjob.Name <$> repos)
     | _ => None
     end) = Some [EmptyString].
Proof. repeat split; by_evaluation. Qed.

(** ** The ticker-only variant and the loops *)

Lemma Ticker_getRepos_quiet (ctx : context) (w : World) :
  quiet w (Ticker.getRepos ctx w).2.
Proof.
  rewrite Ticker_getRepos_unfold.
  destruct (List_run ctx tacos w) as (res & w1 & -> & Hq).
  destruct res as [items|err]; [|done].
  destruct (Ticker_decode_all_run items w1) as (Hq1 & _).
  destruct (Ticker.decode_all items w1) as [[| |] w2]; by eapply quiet_trans.
Qed.

Lemma Ticker_tick_quiet (w : World) : quiet w (Ticker.tick w).2.
Proof.
  unfold Ticker.tick. rewrite run_bind.
  pose proof (Ticker_getRepos_quiet NotifyContext w) as Hq.
  destruct (Ticker.getRepos NotifyContext w) as [[[repos [err|]]| |] w1];
    cbn [snd] in *; try done; by apply quiet_emit.
Qed.

Lemma cancel_quiet (w : World) : quiet w (emit EvCancel (set_cancelled true w)).
Proof. exists [EvCancel]. split; [reflexivity|by repeat constructor]. Qed.

Lemma Ticker_Loop_quiet (picked : list select_case) :
  ∀ w, quiet w (Ticker.Loop picked w).2.
Proof.
  induction picked as [|[|] rest IH]; intros w; cbn [Ticker.Loop].
  - apply quiet_refl.
  - rewrite run_bind. pose proof (Ticker_tick_quiet w) as Hq.
    destruct (Ticker.tick w) as [[[]| |] w1]; cbn [snd] in *; try done.
    eapply quiet_trans; [exact Hq|apply IH].
  - rewrite run_bind. unfold cancel.
    eapply quiet_trans; [|apply IH]. apply cancel_quiet.
Qed.

Lemma Ticker_main_quiet (picked : list select_case) (w : World) :
  quiet w (Ticker.main picked w).2.
Proof.
  unfold Ticker.main. rewrite run_bind. unfold slog_Info at 1, tell.
  rewrite run_bind.
  pose proof (Ticker_tick_quiet (emit (EvLog LevelInfo "Ernesto initialized" []) w)) as Hq.
  assert (quiet w (emit (EvLog LevelInfo "Ernesto initialized" []) w)) as H0
    by (by apply quiet_emit; [apply quiet_refl|]).
  destruct (Ticker.tick _) as [[[]| |] w1]; cbn [snd] in *;
    try (by eapply quiet_trans).
  eapply quiet_trans; [exact H0|]. eapply quiet_trans; [exact Hq|apply Ticker_Loop_quiet].
Qed.

(** C10. In the ticker-only variant, whenever the list call succeeds and
    the records pass the one assertion made for the log line, [getRepos]
    returns the nil slice and the nil error, and whatever the records it
    never returns a slice that is not nil; a whole run of that variant
    leaves nothing in the trace but listing, logging, dumping and
    cancelling, no work on any repository.  With records that pass their
    assertions, [getRepos] of [cmd/main.go] and of [cronjob/main.go]
    returns a slice with one entry for each listed record, in order. *)
Theorem ticker_variant_lists_and_discards :
  (∀ ctx (w : World) (items : list Obj),
     (List ctx tacos w).1 = Ret (inl items) →
     Forall metadata_is_map items →
     (Ticker.getRepos ctx w).1 = Ret (None, None))
  ∧ (∀ ctx (w : World) repos err,
       (Ticker.getRepos ctx w).1 = Ret (repos, err) → repos = None)
  ∧ (∀ picked (w : World), quiet w (Ticker.main picked w).2)
  ∧ (∀ ctx (w : World) (items : list Obj),
       (List ctx tacos w).1 = Ret (inl items) →
       Forall decodable items →
       (∃ repos, (Cmd.getRepos ctx w).1 = Ret (Some repos, None)
                 ∧ List.length repos = List.length items
                 ∧ Cmd.Name <$> repos = GetName <$> items)
       ∧ (∃ repos, (Cronjob.getRepos ctx w).1 = Ret (Some repos, None)
                   ∧ List.length repos = List.length items
                   ∧ Cronjob.Unstructured <$> repos = items)).
Proof.
  split; [|split; [|split]].
  - intros ctx w items Hlist Hitems. rewrite Ticker_getRepos_unfold.
    destruct (List ctx tacos w) as [res w1]; cbn [fst] in Hlist; subst res.
    destruct (Ticker_decode_all_run items w1) as (_ & Hok & _).
    destruct (Hok Hitems) as [repos Hrepos].
    destruct (Ticker.decode_all items w1) as [o w2]; cbn [fst] in Hrepos. by subst o.
  - intros ctx w repos err. rewrite Ticker_getRepos_unfold.
    destruct (List ctx tacos w) as [[[items|e]| |] w1]; try done.
    + destruct (Ticker.decode_all items w1) as [[| |] w2]; try done.
      by intros [= <- _].
    + by intros [= <- _].
  - apply Ticker_main_quiet.
  - intros ctx w items Hlist Hitems.
    rewrite Cronjob_getRepos_unfold, Cmd_getRepos_unfold.
    destruct (List ctx tacos w) as [res w1]; cbn [fst] in Hlist; subst res.
    destruct (Cronjob_decode_all_decodable items w1 Hitems) as (r1 & w2 & -> & _ & _ & H1).
    destruct (Cmd_decode_all_decodable items w1 Hitems) as (r2 & w3 & -> & _ & H2).
    split; eexists; (split; [reflexivity|]); split; try done.
    + by rewrite <- (length_fmap Cmd.Name), H2, length_fmap.
    + by rewrite <- H1, length_fmap.
Qed.

(** The scenario's cluster: the ticker-only variant reads the record and
    hands back nothing. *)
Lemma ticker_variant_lists_and_discards_witness :
  (Ticker.getRepos Background (Sample.world [])).1 = Ret (None, None).
Proof.
  destruct ticker_variant_lists_and_discards as [H _].
  apply (H Background (Sample.world []) [Sample.repo_a]).
  - by_evaluation.
  - apply Forall_cons_2; [vm_compute; exact I|apply Forall_nil_2].
Defined.

(** In [cmd/main.go] the loop is left at the first [Done] it receives:
    whatever is picked after that plays no part. *)
Lemma Cmd_Loop_ends_at_done (pre post : list select_case) :
  ∀ w, Cmd.Loop (pre ++ case_done :: post) w = Cmd.Loop (pre ++ [case_done]) w.
Proof.
  induction pre as [|[|] pre IH]; intros w; cbn [Cmd.Loop app]; try reflexivity.
  rewrite !run_bind. destruct (Cmd.tick w) as [[[]| |] w1]; try reflexivity. apply IH.
Qed.

Lemma Cmd_Loop_exits (post : list select_case) (w : World) :
  Cmd.Loop (case_done :: post) w = (Ret Exited, emit EvCancel (set_cancelled true w)).
Proof. reflexivity. Qed.

(** C9 on the code. The loop of the ticker-only variant has no way out:
    whatever its select picks, and for however long, it has not returned.
    After the [Done] case it is still in the loop and takes the next tick,
    listing again. *)
Theorem ticker_loop_outlives_cancellation :
  (∀ picked (w : World), (Ticker.Loop picked w).1 ≠ Ret Exited)
  ∧ (Ticker.Loop [case_done; case_ticker] (Sample.world [])).1 = Ret InLoop
  ∧ kind_of <$> trace (Ticker.Loop [case_done; case_ticker] (Sample.world [])).2
    = [KCancel; KList; KLog].
Proof.
  split; [|split; by_evaluation].
  induction picked as [|[|] rest IH]; intros w; cbn [Ticker.Loop]; [done| |].
  - rewrite run_bind. destruct (Ticker.tick w) as [[[]| |] w1]; [apply IH|done|done].
  - rewrite run_bind. apply IH.
Qed.

(** ** What an accepted write leaves in the cluster *)

Lemma name_unrelated_to_resourceVersion :
  unrelated ["metadata"; "name"] ["metadata"; "resourceVersion"].
Proof. split; intros [k Hk]; discriminate Hk. Qed.

Lemma stamp_frame (rv : string) (obj : Obj) (q : list string) :
  unrelated q ["metadata"; "resourceVersion"] →
  NestedField (stamp rv obj) q = NestedField obj q.
Proof.
  intros Hq. unfold stamp.
  destruct (SetNestedField obj _ _) as [[obj' [e|]]| |] eqn:Hset; try done.
  eapply setNestedFieldNoCopy_frame; eauto.
Qed.

Lemma GetName_stamp (rv : string) (obj : Obj) : GetName (stamp rv obj) = GetName obj.
Proof.
  unfold GetName, getNestedString.
  by rewrite (stamp_frame rv obj _ name_unrelated_to_resourceVersion).
Qed.

Lemma consistent_objects (w w' : World) :
  objects w' = objects w → consistent w → consistent w'.
Proof. unfold consistent. intros ->. done. Qed.

Lemma consistent_put (namespace : string) (obj : Obj) (w : World) :
  consistent w → consistent (put namespace (GetName obj) obj w).
Proof.
  intros Hw ns name o. unfold put. cbn.
  destruct (decide ((namespace, GetName obj) = (ns, name))) as [[= <- <-]|Hne].
  - rewrite lookup_insert_eq. intros [= <-]. apply GetName_stamp.
  - rewrite lookup_insert_ne by done. apply Hw.
Qed.

Lemma consistent_befall (w : World) : consistent w → consistent (befall w).2.
Proof.
  intros Hw. unfold befall.
  destruct (schedule w) as [|[|f|ns name fields v] rest]; try done. cbn.
  destruct (objects w !! (ns, name)) as [cur|] eqn:Hcur; [|done].
  destruct (SetNestedField cur v fields) as [[cur' [e|]]| |]; try done.
  destruct (decide _) as [Hname|]; [|done].
  rewrite <- (Hw _ _ _ Hcur), <- Hname.
  by apply (consistent_put ns cur' (set_schedule rest w)).
Qed.

Lemma consistent_drifted (w w' : World) : drifted w w' → consistent w → consistent w'.
Proof.
  intros [k Hk] Hw. unfold cluster in Hk. injection Hk as Ho _ _.
  apply (consistent_objects (idle k w)); [done|]. clear Ho.
  revert w Hw. induction k as [|k IH]; intros w Hw; [done|].
  cbn. apply IH. by apply consistent_befall.
Qed.

(** A loop that ends well ends with a run of the closure that went well,
    after rounds that wrote nothing. *)
Lemma rounds_success (ctx : context) (repo : Cronjob.Repository)
    (changes : list Cronjob.unstructuredChange) (d : Z) (n : nat) :
  ∀ lastErr (w w' : World),
    retry_rounds d (S n) (Cronjob.attempt ctx repo changes) lastErr w = (Ret None, w') →
    ∃ wa, drifted w wa ∧ wg wa = wg w
          ∧ Cronjob.attempt ctx repo changes wa = (Ret None, w').
Proof.
  induction n as [|n IH]; intros lastErr w w' Hrun;
    cbn [retry_rounds] in Hrun; rewrite run_bind in Hrun;
    destruct (Cronjob.attempt ctx repo changes w) as [[[e|]| |] w1] eqn:Hfn; try done;
    try (injection Hrun as <-; exists w; by repeat split; [apply drifted_refl|..]);
    destruct (attempt_error _ _ _ _ _ _ Hfn) as (Hl & Hd & Hw).
  - destruct (IsConflict e); [done|]. by destruct (Interrupted e).
  - destruct (IsConflict e); [|by destruct (Interrupted e)].
    rewrite run_bind, pause_run in Hrun.
    apply IH in Hrun as (wa & Hd' & Hw' & Hrun). exists wa. split; [|split]; try done.
    + eapply drifted_trans; [|exact Hd']. by apply drifted_emit, drifted_drawn.
    + cbn in *. congruence.
Qed.

(** A run of the closure that went well: the record then held under the
    repository's key is the record read, with the changes applied and the
    server's stamp. *)
Lemma attempt_written (ctx : context) (repo : Cronjob.Repository)
    (changes : list Cronjob.unstructuredChange) (w w' : World) :
  consistent w →
  Cronjob.attempt ctx repo changes w = (Ret None, w') →
  ∃ read payload stored rv (pre : list event),
    Cronjob.apply read changes = Ret (payload, None)
    ∧ trace w' = pre ++ [EvGet (Cronjob.Namespace repo) (Cronjob.Name repo) (inl read);
                         EvUpdate (Cronjob.Namespace repo) payload (inl stored)]
    ∧ GetName read = Cronjob.Name repo
    ∧ (GetName payload = GetName read →
       serve_get (Cronjob.Namespace repo) (Cronjob.Name repo) w' = inl (stamp rv payload))
    ∧ wg w' = wg w.
Proof.
  intros Hw Hrun. apply attempt_inv in Hrun. cbn zeta in Hrun.
  destruct Hrun as [(e & w1 & _ & [=] & _)
                   |(read & w1 & Hget & [(o & Happ & -> & Ho)
                                        |(payload & Happ & [(e & w2 & _ & [=] & _)
                                                           |(stored & w2 & Hupd & _ & ->)])])].
  { by destruct o as [[? [?|]]| |]. }
  apply remote_call_read in Hget as (Ht & Hwg & Hd & _ & Hread).
  specialize (Hread read eq_refl). unfold serve_get in Hread.
  destruct (objects w1 !! _) as [cur|] eqn:Hcur; [|done]. injection Hread as ->.
  pose proof (consistent_drifted _ _ Hd Hw _ _ _ Hcur) as Hname.
  apply remote_call_update_accepted in Hupd as (Ht2 & Hwg2 & Ho & _).
  exists read, payload, stored. eexists. exists (trace w).
  repeat split; try done.
  - cbn. rewrite Ht2. cbn. rewrite Ht, <- app_assoc. reflexivity.
  - intros Hpn. unfold serve_get. cbn [emit objects]. rewrite Ho.
    rewrite Hpn, Hname. by rewrite lookup_insert_eq.
  - cbn in *. congruence.
Qed.

(** ** One pass of the worker *)

(** The worker after a resolver that succeeded: it logs, reads the clock
    once, runs the conflict-safe update with the changeset made of that
    reading and the hash, warns if that failed, and signals [Done]. *)
Lemma Cronjob_processRepo_resolved (ctx : context) (repo : Cronjob.Repository)
    (w w1 w3 : World) (hash : string) (now : Time) :
  Cronjob.getLatestCommit ctx repo w = (Ret (hash, None), w1) →
  time_Now (emit (retrieved repo hash) w1) = (Ret now, w3) →
  Cronjob.processRepo ctx repo w =
  match Cronjob.applyChangeset ctx repo (Cronjob.changeset now hash) w3 with
  | (Ret None, w4) => wg_Done w4
  | (Ret (Some retryErr), w4) =>
      wg_Done (emit (EvLog LevelWarn "failed to update GithubRepository"
                       [error_attr retryErr;
                        ("namespace", VString (Cronjob.Namespace repo));
                        ("name", VString (Cronjob.Name repo))]) w4)
  | (Panic msg, w4) => (Panic msg, w4)
  | (Hang, w4) => (Hang, w4)
  end.
Proof.
  intros Hres Hnow. unfold Cronjob.processRepo.
  rewrite run_bind, Hres. rewrite run_bind. unfold slog_Info at 1, tell.
  fold (retrieved repo hash). rewrite run_bind, Hnow, run_bind.
  destruct (Cronjob.applyChangeset _ _ _ w3) as [[[e|]| |] w4]; reflexivity.
Qed.

Lemma name_unrelated_to_changeset (now : Time) (hash : string) :
  Forall (λ c, unrelated ["metadata"; "name"] (Cronjob.keys c))
         (Cronjob.changeset now hash).
Proof.
  repeat apply Forall_cons_2; [..|apply Forall_nil_2];
    split; intros [k Hk]; discriminate Hk.
Qed.

Lemma resourceVersion_unrelated :
  unrelated Cronjob.commit_hash ["metadata"; "resourceVersion"]
  ∧ unrelated Cronjob.last_sync_time ["metadata"; "resourceVersion"].
Proof. split; split; intros [k Hk]; discriminate Hk. Qed.

(** A get with nothing in its way returns what the cluster holds. *)
Lemma Get_undisturbed (namespace name : string) (w : World) :
  (Get Background namespace name (set_schedule [] w)).1
  = Ret (serve_get namespace name w).
Proof. reflexivity. Qed.

(** C1. The cluster stores every record under its own name.  A worker's
    resolver succeeds with [hash]; the worker logs, reads the clock, which
    says [now], and its conflict-safe update returns no error.  Then that
    is the whole run of [processRepo] but for the [Done], and a get of the
    repository's record that follows, with no other writer in between,
    returns a record with [hash] at [metadata.annotations] /
    [ernesto.0x42.in/commit-hash] and [now] in RFC 1123 format at
    [ernesto.0x42.in/last-sync-time]; against the record the last attempt
    read, just before its write, every path outside these two and the
    [resourceVersion] the server stamps reads the same. *)
Theorem pass_records_commit_and_time
    (ctx : context) (repo : Cronjob.Repository) (w w1 w3 w4 : World)
    (hash : string) (now : Time) :
  consistent w →
  Cronjob.getLatestCommit ctx repo w = (Ret (hash, None), w1) →
  time_Now (emit (retrieved repo hash) w1) = (Ret now, w3) →
  Cronjob.applyChangeset ctx repo (Cronjob.changeset now hash) w3 = (Ret None, w4) →
  Cronjob.processRepo ctx repo w = wg_Done w4
  ∧ ∃ record read payload stored (pre : list event),
      (Get Background (Cronjob.Namespace repo) (Cronjob.Name repo)
         (set_schedule [] w4)).1 = Ret (inl record)
      ∧ NestedField record Cronjob.commit_hash = Some (VString hash)
      ∧ NestedField record Cronjob.last_sync_time = Some (VString (Format_RFC1123 now))
      ∧ trace w4 = pre ++ [EvGet (Cronjob.Namespace repo) (Cronjob.Name repo) (inl read);
                           EvUpdate (Cronjob.Namespace repo) payload (inl stored)]
      ∧ ∀ q, unrelated q Cronjob.commit_hash →
             unrelated q Cronjob.last_sync_time →
             unrelated q ["metadata"; "resourceVersion"] →
             NestedField record q = NestedField read q.
Proof.
  intros Hw Hres Hnow Hupd. split.
  { rewrite (Cronjob_processRepo_resolved _ _ _ _ _ _ _ Hres Hnow). by rewrite Hupd. }
  assert (consistent w3) as Hw3.
  { rewrite Cronjob_getLatestCommit_unfold in Hres. cbn zeta in Hres.
    destruct (remote_call _ _ w) as [[r|e] wc] eqn:Hc; [|done].
    apply remote_call_clone in Hc as (_ & _ & Hd).
    apply (consistent_drifted _ _ Hd) in Hw.
    destruct (storage_head r); [|done]. injection Hres as _ <-.
    unfold time_Now in Hnow. cbn [emit clock] in Hnow.
    destruct (clock wc); injection Hnow as _ <-; exact Hw. }
  unfold Cronjob.applyChangeset in Hupd. rewrite RetryOnConflict_rounds in Hupd.
  apply rounds_success in Hupd as (wa & Hd & _ & Hrun).
  apply (consistent_drifted _ _ Hd) in Hw3.
  destruct (attempt_written _ _ _ _ _ Hw3 Hrun)
    as (read & payload & stored & rv & pre & Happ & Ht & Hname & Hget & _).
  destruct (apply_changeset_read _ _ _ _ Happ) as [Htime Hhash].
  destruct resourceVersion_unrelated as [Hrv1 Hrv2].
  exists (stamp rv payload), read, payload, stored, pre.
  split; [|split; [|split; [|split]]]; try done.
  - rewrite Get_undisturbed. f_equal. apply Hget. unfold GetName, getNestedString.
    by rewrite (apply_frame _ _ _ _ Happ (name_unrelated_to_changeset now hash)).
  - by rewrite stamp_frame.
  - by rewrite stamp_frame.
  - intros q Hq1 Hq2 Hq3. rewrite stamp_frame by done.
    eapply apply_frame; [exact Happ|].
    by repeat apply Forall_cons_2; [..|apply Forall_nil_2].
Qed.

(** The scenario: [repo-a], whose remote is at [abc123], with the clock
    at 15:04:05 MST on the second of January 2006. *)
Lemma pass_records_commit_and_time_witness :
  ∃ (w4 : World) (record : Obj),
    (Get Background "tacos" "repo-a" (set_schedule [] w4)).1 = Ret (inl record)
    ∧ NestedField record Cronjob.commit_hash = Some (VString "abc123")
    ∧ NestedField record Cronjob.last_sync_time
      = Some (VString "Mon, 02 Jan 2006 15:04:05 MST").
Proof.
  epose proof (pass_records_commit_and_time Background Sample.repository
                 (Sample.world []) _ _ _ "abc123" Sample.reference_time) as H.
  edestruct H as (_ & record & _ & _ & _ & _ & Hget & Hhash & Htime & _).
  - intros namespace name obj Hobj. cbn [Sample.world objects] in Hobj.
    apply lookup_insert_Some in Hobj as [[[= <- <-] <-]|[_ Hobj]]; [reflexivity|].
    by rewrite lookup_empty in Hobj.
  - apply run_outcome. by_evaluation.
  - apply run_outcome. by_evaluation.
  - apply run_outcome. by_evaluation.
  - eexists _, record. split; [exact Hget|]. split; [exact Hhash|exact Htime].
Defined.

(** ** What the retry loop repeats, and what it does not *)

Lemma count_app (k : kind) (a b : list event) :
  count k (a ++ b) = count k a + count k b.
Proof. unfold count. by rewrite filter_app, length_app. Qed.

Lemma count_none (k : kind) (evs : list event) :
  Forall (λ ev, kind_of ev ≠ k) evs → count k evs = 0.
Proof.
  unfold count. induction 1 as [|ev evs Hev _ IH]; [done|].
  by rewrite filter_cons_False.
Qed.

(** A round is a read, or a read and a write. *)
Lemma round_trace_kinds namespace name changes (evs : list event) r :
  round_trace namespace name changes evs r →
  Forall (λ ev, kind_of ev = KGet ∨ kind_of ev = KUpdate) evs.
Proof.
  inversion 1; repeat (apply Forall_cons_2; [cbn; eauto|]); apply Forall_nil_2.
Qed.

(** The loop is reads, writes and sleeps. *)
Lemma rounds_trace_kinds namespace name changes d n lastErr (evs : list event) r :
  rounds_trace namespace name changes d n lastErr evs r →
  Forall (λ ev, kind_of ev = KGet ∨ kind_of ev = KUpdate ∨ kind_of ev = KSleep) evs.
Proof.
  induction 1 as [n lastErr evs Hr|n lastErr evs e Hr Hc|lastErr evs e Hr Hc
                 |n lastErr evs e s rest res Hr Hc Hs Hrest IH];
    apply round_trace_kinds in Hr;
    try (eapply Forall_impl; [exact Hr|]; cbn; intros ? [?|?]; eauto).
  apply Forall_app. split.
  - eapply Forall_impl; [exact Hr|]. cbn. intros ? [?|?]; eauto.
  - apply Forall_cons_2; [cbn; eauto|exact IH].
Qed.






(** What the second attempt writes is built on what it has just read: the
    rival's label is in the record stored at the end, next to the hash. *)
Lemma retried_write_keeps_the_rivals_change :
  (Cronjob.processRepo Background Sample.repository (set_wg 1 Sample.gust)).1 = Ret ()
  ∧ kind_of <$> trace (Cronjob.processRepo Background Sample.repository
                         (set_wg 1 Sample.gust)).2
    = [KClone; KHead; KLog; KNow; KGet; KUpdate; KSleep; KGet; KUpdate; KDone]
  ∧ NestedField
      (default ∅ (objects (Cronjob.processRepo Background Sample.repository
                             (set_wg 1 Sample.gust)).2 !! ("tacos", "repo-a")))
      ["metadata"; "labels"; "owner"] = Some (VString "rival")
  ∧ NestedField
      (default ∅ (objects (Cronjob.processRepo Background Sample.repository
                             (set_wg 1 Sample.gust)).2 !! ("tacos", "repo-a")))
      Cronjob.commit_hash = Some (VString "abc123").
Proof. repeat split; by_evaluation. Qed.

(** The reference time of Go's layouts formats to the layout itself. *)
Example Format_RFC1123_reference :
  Format_RFC1123 Sample.reference_time = "Mon, 02 Jan 2006 15:04:05 MST".
Proof. by_evaluation. Qed.

(** ** Bounds on the retry loop *)

Lemma writes_accepted_app (a b : list event) :
  writes_accepted (a ++ b) = writes_accepted a + writes_accepted b.
Proof. unfold writes_accepted. by rewrite filter_app, length_app. Qed.

Lemma sleeps_app (a b : list event) : sleeps (a ++ b) = sleeps a ++ sleeps b.
Proof. apply omap_app. Qed.

(** One round: one read, at most one write, no sleep; a write is accepted
    exactly when the round returns no error, and an error is the one the
    last call of the round reported or the one of [SetNestedField]. *)
Lemma round_trace_counts namespace name changes (evs : list event) r :
  round_trace namespace name changes evs r →
  count KGet evs = 1 ∧ (count KUpdate evs ≤ 1)%nat ∧ count KSleep evs = 0
  ∧ sleeps evs = []
  ∧ writes_accepted evs = (if r is None then 1 else 0).
Proof. inversion 1; repeat split; try reflexivity; vm_compute; lia. Qed.

(** The whole loop with [n] attempts to go. *)
Lemma rounds_trace_counts namespace name changes d n lastErr (evs : list event) r :
  rounds_trace namespace name changes d n lastErr evs r →
  (1 ≤ count KGet evs ≤ n)%nat
  ∧ (count KUpdate evs ≤ count KGet evs)%nat
  ∧ S (count KSleep evs) = count KGet evs
  ∧ Forall (lengthened d) (sleeps evs)
  ∧ writes_accepted evs = (if r is None then 1 else 0).
Proof.
  induction 1 as [n lastErr evs Hr|n lastErr evs e Hr Hc|lastErr evs e Hr Hc
                 |n lastErr evs e s rest res Hr Hc Hlen Hrest IH];
    apply round_trace_counts in Hr as (Hg & Hu & Hs & Hd & Ha).
  - rewrite Hg, Hs, Hd, Ha. repeat split; try lia. apply Forall_nil_2.
  - rewrite Hg, Hs, Hd, Ha. repeat split; try lia. apply Forall_nil_2.
  - rewrite Hg, Hs, Hd, Ha. repeat split; try lia. apply Forall_nil_2.
  - destruct IH as (Hg' & Hu' & Hs' & Hd' & Ha').
    rewrite !count_app, sleeps_app, writes_accepted_app, Hg, Hs, Hd, Ha.
    change (EvSleep s :: rest) with ([EvSleep s] ++ rest).
    rewrite !count_app, sleeps_app, writes_accepted_app.
    change (count KGet [EvSleep s]) with 0. change (count KUpdate [EvSleep s]) with 0.
    change (count KSleep [EvSleep s]) with 1. change (sleeps [EvSleep s]) with [s].
    change (writes_accepted [EvSleep s]) with 0.
    repeat split; try lia. by apply Forall_cons_2.
Qed.

(** X1. Whatever the cluster answers, the conflict-safe update of
    [processRepo] returns, having read the record at least once and at
    most five times, written at most once for each read, and slept exactly
    once between two attempts: ten milliseconds each time, lengthened at
    random by less than one more. *)
Theorem applyChangeset_stays_within_budget
    (ctx : context) (repo : Cronjob.Repository) (now : Time) (hash : string)
    (w : World) :
  ∃ r (w' : World) (evs : list event),
    Cronjob.applyChangeset ctx repo (Cronjob.changeset now hash) w = (Ret r, w')
    ∧ trace w' = trace w ++ evs
    ∧ (1 ≤ count KGet evs ≤ 5)%nat
    ∧ (count KUpdate evs ≤ count KGet evs)%nat
    ∧ S (count KSleep evs) = count KGet evs
    ∧ Forall (λ slept, 10000000 ≤ slept < 11000000)%Z (sleeps evs).
Proof.
  destruct (applyChangeset_returns ctx repo now hash w) as (r & w' & Hrun).
  pose proof Hrun as Hrounds.
  unfold Cronjob.applyChangeset in Hrounds. rewrite RetryOnConflict_rounds in Hrounds.
  apply rounds_sound in Hrounds as (evs & Ht & Hevs); [|lia].
  apply rounds_trace_counts in Hevs as (Hg & Hu & Hs & Hd & _).
  exists r, w', evs. repeat split; try done; try lia.
  eapply Forall_impl; [exact Hd|]. unfold lengthened. cbn. lia.
Qed.

(** With a source of random numbers that yields a half and then three
    quarters, the sleeps after the first two of five refused writes are of
    ten and a half and of ten and three quarters milliseconds. *)
Example sleeps_are_lengthened_at_random :
  sleeps (trace (Cronjob.applyChangeset Background Sample.repository
                   (Cronjob.changeset Sample.reference_time "abc123")
                   (set_random Sample.dice Sample.storm)).2)
  = [10500000; 10750000; 10000000; 10000000]%Z.
Proof. by_evaluation. Qed.

(** An error of the loop is the error of its last round, or, when that one
    is of [wait.Interrupted], the conflict that came before it. *)
Lemma rounds_trace_error namespace name changes d n lastErr (evs : list event) r :
  rounds_trace namespace name changes d n lastErr evs r →
  ∀ e, r = Some e →
  ∃ (pre round : list event) e',
    evs = pre ++ round
    ∧ round_trace namespace name changes round (Some e')
    ∧ (e = e'
       ∨ (Interrupted e' = true
          ∧ ((pre = [] ∧ lastErr = Some e)
             ∨ (IsConflict e = true
                ∧ ∃ (pre' prev : list event) s,
                    pre = pre' ++ prev ++ [EvSleep s]
                    ∧ round_trace namespace name changes prev (Some e))))).
Proof.
  induction 1 as [n lastErr evs Hround|n lastErr evs e' Hround Hc|lastErr evs e' Hround Hc
                 |n lastErr evs e' s rest res Hround Hc Hlen Hrest IH];
    intros e Hr; try done.
  - exists [], evs, e'. split; [done|]. split; [done|].
    destruct (Interrupted e') eqn:Hi; [|left; congruence].
    destruct lastErr as [c|]; cbn in Hr; [|left; congruence].
    injection Hr as ->. right. split; [done|]. by left.
  - exists [], evs, e'. split; [done|]. split; [done|]. left. congruence.
  - destruct (IH e Hr) as (pre & round & e'' & -> & Hlast & Hcase).
    exists (evs ++ EvSleep s :: pre), round, e''. split; [by rewrite <- app_assoc|].
    split; [done|].
    destruct Hcase as [->|(Hi & [(-> & [= <-])|(Hce & pre' & prev & s' & -> & Hprev)])].
    + by left.
    + right. split; [done|]. right. split; [done|].
      by exists [], evs, s.
    + right. split; [done|]. right. split; [done|].
      exists (evs ++ EvSleep s :: pre'), prev, s'. split; [|done].
      by rewrite <- !app_assoc.
Qed.

(** An error of the loop is one of the client's or of [SetNestedField]. *)
Lemma rounds_from_library (ctx : context) (repo : Cronjob.Repository)
    (changes : list Cronjob.unstructuredChange) (d : Z) (n : nat) :
  ∀ lastErr (w w' : World) e,
    (∀ c, lastErr = Some c → from_library c) →
    retry_rounds d (S n) (Cronjob.attempt ctx repo changes) lastErr w
      = (Ret (Some e), w') →
    from_library e.
Proof.
  induction n as [|n IH]; intros lastErr w w' e Hlast Hrun;
    cbn [retry_rounds] in Hrun; rewrite run_bind in Hrun;
    destruct (Cronjob.attempt ctx repo changes w) as [[[e1|]| |] w1] eqn:Hfn; try done;
    destruct (attempt_error _ _ _ _ _ _ Hfn) as (Hl & _).
  - destruct (IsConflict e1), (Interrupted e1), lastErr as [c|];
      injection Hrun as <- <-; cbn; eauto.
  - destruct (IsConflict e1).
    + rewrite run_bind, pause_run in Hrun. eapply IH; [|exact Hrun]. by intros c [= <-].
    + destruct (Interrupted e1), lastErr as [c|]; injection Hrun as <- <-; cbn; eauto.
Qed.

(** X2. The conflict-safe update gets at most one write accepted: exactly
    one when it returns no error, none when it returns one.  The error it
    returns is the one its last attempt ended with, from the read, from
    [SetNestedField] or from the write; or, when that error is one that
    [wait.Interrupted] recognises (a cancelled context, a deadline that has
    passed), the conflict that the attempt before it ended with, if there
    was one.  It is never the timeout of the [wait] package, also when the
    attempts have run out. *)
Theorem applyChangeset_writes_once_or_fails
    (ctx : context) (repo : Cronjob.Repository) (now : Time) (hash : string)
    (w : World) :
  ∃ r (w' : World) (evs : list event),
    Cronjob.applyChangeset ctx repo (Cronjob.changeset now hash) w = (Ret r, w')
    ∧ trace w' = trace w ++ evs
    ∧ writes_accepted evs = (if r is None then 1 else 0)
    ∧ ∀ e, r = Some e →
           e ≠ ErrWaitTimeout
           ∧ ∃ (pre round : list event) e',
               evs = pre ++ round
               ∧ round_trace (Cronjob.Namespace repo) (Cronjob.Name repo)
                   (Cronjob.changeset now hash) round (Some e')
               ∧ (e = e'
                  ∨ (Interrupted e' = true
                     ∧ IsConflict e = true
                     ∧ ∃ (pre' prev : list event) s,
                         pre = pre' ++ prev ++ [EvSleep s]
                         ∧ round_trace (Cronjob.Namespace repo) (Cronjob.Name repo)
                             (Cronjob.changeset now hash) prev (Some e))).
Proof.
  destruct (applyChangeset_returns ctx repo now hash w) as (r & w' & Hrun).
  pose proof Hrun as Hrounds.
  unfold Cronjob.applyChangeset in Hrounds. rewrite RetryOnConflict_rounds in Hrounds.
  pose proof Hrounds as Hlib.
  apply rounds_sound in Hrounds as (evs & Ht & Hevs); [|lia].
  pose proof (rounds_trace_counts _ _ _ _ _ _ _ _ Hevs) as (_ & _ & _ & _ & Ha).
  exists r, w', evs. split; [done|]. split; [done|]. split; [done|].
  intros e ->. split.
  - eapply rounds_from_library; [|exact Hlib]. done.
  - destruct (rounds_trace_error _ _ _ _ _ _ _ _ Hevs e eq_refl)
      as (pre & round & e' & Hsplit & Hround & Hcase).
    exists pre, round, e'. split; [done|]. split; [done|].
    destruct Hcase as [->|(Hi & [(_ & [=])|(Hc & Hprev)])]; [by left|].
    right. done.
Qed.

(** ** The worker and the WaitGroup *)

(** The closure leaves the WaitGroup alone, however it ends. *)
Lemma attempt_wg (ctx : context) (repo : Cronjob.Repository)
    (changes : list Cronjob.unstructuredChange) (w w' : World)
    (r : outcome (option error)) :
  Cronjob.attempt ctx repo changes w = (r, w') → wg w' = wg w.
Proof.
  intros Hrun. apply attempt_inv in Hrun. cbn zeta in Hrun.
  destruct Hrun as [(e & w1 & Hget & _ & ->)
                   |(read & w1 & Hget & [(o & _ & -> & _)
                                        |(payload & _ & [(e & w2 & Hupd & _ & ->)
                                                        |(stored & w2 & Hupd & _ & ->)])])];
    apply remote_call_read in Hget as (_ & Hw & _); try done.
  - apply remote_call_update_refused in Hupd as (_ & Hw2 & _). cbn in *. congruence.
  - apply remote_call_update_accepted in Hupd as (_ & Hw2 & _). cbn in *. congruence.
Qed.

Lemma rounds_wg (ctx : context) (repo : Cronjob.Repository)
    (changes : list Cronjob.unstructuredChange) (d : Z) (n : nat) :
  ∀ lastErr (w w' : World) r,
    retry_rounds d n (Cronjob.attempt ctx repo changes) lastErr w = (r, w') →
    wg w' = wg w.
Proof.
  induction n as [|n IH]; intros lastErr w w' r Hrun; cbn [retry_rounds] in Hrun.
  { by injection Hrun as _ <-. }
  rewrite run_bind in Hrun.
  destruct (Cronjob.attempt ctx repo changes w) as [o w1] eqn:Hfn.
  apply attempt_wg in Hfn.
  destruct o as [[e|]| |]; try (by injection Hrun as _ <-).
  destruct (IsConflict e).
  - destruct n as [|n]; [by injection Hrun as _ <-|].
    rewrite run_bind, pause_run in Hrun.
    apply IH in Hrun. cbn in Hrun. congruence.
  - destruct (Interrupted e); by injection Hrun as _ <-.
Qed.

Lemma applyChangeset_wg (ctx : context) (repo : Cronjob.Repository)
    (changes : list Cronjob.unstructuredChange) (w w' : World)
    (r : outcome (option error)) :
  Cronjob.applyChangeset ctx repo changes w = (r, w') → wg w' = wg w.
Proof.
  unfold Cronjob.applyChangeset. rewrite RetryOnConflict_rounds. apply rounds_wg.
Qed.

Lemma count_cons (k : kind) (ev : event) (evs : list event) :
  count k (ev :: evs) = (if decide (kind_of ev = k) then 1 else 0) + count k evs.
Proof. unfold count. cbn. by destruct (decide _). Qed.

Lemma failed_resolves_app (a b : list event) :
  failed_resolves (a ++ b) = failed_resolves a + failed_resolves b.
Proof. unfold failed_resolves. by rewrite filter_app, length_app. Qed.

(** The loop is reads, writes and sleeps: no log line, no [Add], no
    [Done]. *)
Lemma rounds_trace_silent namespace name changes d n lastErr (evs : list event) r :
  rounds_trace namespace name changes d n lastErr evs r →
  count KAdd evs = 0 ∧ count KDone evs = 0 ∧ failed_resolves evs = 0.
Proof.
  intros H. apply rounds_trace_kinds in H.
  split; [|split].
  - apply count_none. eapply Forall_impl; [exact H|]. cbn. intros ev [-> | [-> | ->]]; done.
  - apply count_none. eapply Forall_impl; [exact H|]. cbn. intros ev [-> | [-> | ->]]; done.
  - unfold failed_resolves. induction H as [|ev evs Hev _ IH]; [done|].
    rewrite filter_cons_False; [exact IH|].
    destruct ev; cbn in Hev |- *; try done. by destruct Hev as [? | [? | ?]].
Qed.

(** The worker of [cronjob/main.go], whole: with a resolver that fails it
    logs that and leaves the counter; with one that succeeds it ends with
    one [Done]. *)
Lemma Cronjob_processRepo_run (ctx : context) (repo : Cronjob.Repository) (w : World) :
  (0 < wg w)%Z →
  ∃ (w' : World) (evs : list event),
    Cronjob.processRepo ctx repo w = (Ret (), w')
    ∧ trace w' = trace w ++ evs
    ∧ count KAdd evs = 0
    ∧ ((failed_resolves evs = 1 ∧ count KDone evs = 0 ∧ wg w' = wg w
        ∧ ∃ hash e, (Cronjob.getLatestCommit ctx repo w).1 = Ret (hash, Some e))
       ∨ (failed_resolves evs = 0 ∧ count KDone evs = 1 ∧ wg w' = (wg w - 1)%Z
          ∧ last evs = Some EvDone
          ∧ ∃ hash, (Cronjob.getLatestCommit ctx repo w).1 = Ret (hash, None))).
Proof.
  intros Hwg.
  destruct (Cronjob.getLatestCommit ctx repo w) as [o w1] eqn:Hres.
  pose proof Hres as Hunf. rewrite Cronjob_getLatestCommit_unfold in Hunf. cbn zeta in Hunf.
  destruct (remote_call _ _ w) as [[cloned|e] wc] eqn:Hc;
    apply remote_call_clone in Hc as (Htc & Hwc & _).
  2: { injection Hunf as <- <-.
       rewrite (Cronjob_processRepo_unresolved _ _ _ _ _ _ Hres).
       eexists _, [_; _]. split; [reflexivity|]. split.
       { cbn. rewrite Htc, <- !app_assoc. reflexivity. }
       split; [reflexivity|]. left. cbn [fst]. repeat split; eauto. }
  destruct (storage_head cloned) as [hash|]; injection Hunf as <- <-.
  2: { rewrite (Cronjob_processRepo_unresolved _ _ _ _ _ _ Hres).
       eexists _, [_; _; _]. split; [reflexivity|]. split.
       { cbn. rewrite Htc, <- !app_assoc. reflexivity. }
       split; [reflexivity|]. left. cbn [fst]. repeat split; eauto. }
  match type of Hres with _ = (_, ?W1) => set (w1 := W1) in * end.
  set (w2 := emit (retrieved repo hash) w1).
  destruct (time_Now w2) as [onow w3] eqn:Hnow.
  assert (∃ now, onow = Ret now ∧ trace w3 = trace w2 ++ [EvNow now] ∧ wg w3 = wg w)
    as (now & -> & Ht3 & Hw3).
  { unfold time_Now in Hnow. destruct (clock w2); injection Hnow as <- <-; eauto. }
  rewrite (Cronjob_processRepo_resolved _ _ _ _ _ _ _ Hres Hnow).
  clear Hres Hnow.
  destruct (applyChangeset_returns ctx repo now hash w3) as (r & w4 & Hrun).
  rewrite Hrun.
  pose proof (applyChangeset_wg _ _ _ _ _ _ Hrun) as Hw4.
  unfold Cronjob.applyChangeset in Hrun. rewrite RetryOnConflict_rounds in Hrun.
  apply rounds_sound in Hrun as (evs & Ht4 & Hevs); [|lia].
  apply rounds_trace_silent in Hevs as (Ha & Hd & Hf).
  assert (trace w2 = trace w ++ [EvClone (Cronjob.URL repo) (Cronjob.Username repo)
                                   (Cronjob.AccessToken repo) (inl cloned);
                                 EvHead (inl hash); retrieved repo hash]) as Ht2.
  { unfold w2. cbn. rewrite Htc, <- !app_assoc. reflexivity. }
  destruct r as [retryErr|]; unfold wg_Done; cbn [emit wg];
    rewrite decide_False by lia.
  - eexists _, ([EvClone (Cronjob.URL repo) (Cronjob.Username repo)
                          (Cronjob.AccessToken repo) (inl cloned);
                  EvHead (inl hash); retrieved repo hash]
                 ++ [EvNow now] ++ evs ++ [_; EvDone]).
    split; [reflexivity|]. split.
    { cbn [emit set_wg trace]. rewrite Ht4, Ht3, Ht2, <- !app_assoc. reflexivity. }
    rewrite !count_app, !failed_resolves_app, Ha, Hd, Hf.
    split; [reflexivity|]. right. cbn [fst]. repeat split; try reflexivity; eauto.
    + cbn [set_wg emit wg]. lia.
    + by rewrite !last_app.
  - eexists _, ([EvClone (Cronjob.URL repo) (Cronjob.Username repo)
                          (Cronjob.AccessToken repo) (inl cloned);
                  EvHead (inl hash); retrieved repo hash]
                 ++ [EvNow now] ++ evs ++ [EvDone]).
    split; [reflexivity|]. split.
    { cbn [emit set_wg trace]. rewrite Ht4, Ht3, Ht2, <- !app_assoc. reflexivity. }
    rewrite !count_app, !failed_resolves_app, Ha, Hd, Hf.
    split; [reflexivity|]. right. cbn [fst]. repeat split; try reflexivity; eauto.
    + cbn [set_wg emit wg]. lia.
    + by rewrite !last_app.
Qed.

(** X3. Once its resolver has returned a commit, the worker of
    [cronjob/main.go] runs to its end and signals [Done] there, once,
    whether its update went through or was given up with a warning; the
    WaitGroup it was added to goes down by one. *)
Theorem resolved_worker_signals_Done_once
    (ctx : context) (repo : Cronjob.Repository) (w w1 : World) (hash : string) :
  Cronjob.getLatestCommit ctx repo w = (Ret (hash, None), w1) →
  (0 < wg w)%Z →
  ∃ (w' : World) (evs : list event),
    Cronjob.processRepo ctx repo w = (Ret (), w')
    ∧ trace w' = trace w ++ evs
    ∧ count KDone evs = 1
    ∧ last evs = Some EvDone
    ∧ failed_resolves evs = 0
    ∧ wg w' = (wg w - 1)%Z.
Proof.
  intros Hres Hwg.
  destruct (Cronjob_processRepo_run ctx repo w Hwg)
    as (w' & evs & Hrun & Ht & _ & [(_ & _ & _ & h & e & He)|(Hf & Hd & Hw & Hl & _)]).
  { rewrite Hres in He. discriminate He. }
  exists w', evs. repeat split; done.
Qed.

(** The scenario, with the worker added: it ends with the counter at
    zero. *)
Lemma resolved_worker_signals_Done_once_witness :
  ∃ (w' : World) (evs : list event),
    Cronjob.processRepo Background Sample.repository Sample.started = (Ret (), w')
    ∧ trace w' = trace Sample.started ++ evs
    ∧ count KDone evs = 1
    ∧ wg w' = 0%Z.
Proof.
  epose proof (resolved_worker_signals_Done_once Background Sample.repository
                 Sample.started _ "abc123") as H.
  edestruct H as (w' & evs & Hrun & Ht & Hd & _ & _ & Hw).
  - apply run_outcome. by_evaluation.
  - reflexivity.
  - exists w', evs. repeat split; done.
Defined.

(** ** The books of the WaitGroup *)

Lemma listing_refl (w : World) : listing w w.
Proof. split; [done|]. exists []. by rewrite app_nil_r. Qed.

Lemma listing_trans (w1 w2 w3 : World) : listing w1 w2 → listing w2 w3 → listing w1 w3.
Proof.
  intros (Hw1 & e1 & H1 & F1) (Hw2 & e2 & H2 & F2). split; [congruence|].
  exists (e1 ++ e2). split.
  - by rewrite H2, H1, app_assoc.
  - by apply Forall_app.
Qed.

Lemma listing_emit (w w' : World) (ev : event) :
  listing w w' → lister_event ev = true → listing w (emit ev w').
Proof.
  intros (Hw & e1 & H1 & F1) Hev. split; [done|]. exists (e1 ++ [ev]). split.
  - cbn. by rewrite H1, app_assoc.
  - apply Forall_app. split; [done|]. by constructor.
Qed.

(** Listing starts and ends no worker. *)
Lemma listing_accounted (w w' : World) :
  listing w w' → ∃ evs, accounted w w' evs ∧ count KAdd evs = 0.
Proof.
  intros (Hw & evs & Ht & Hevs). exists evs.
  assert (count KAdd evs = 0 ∧ count KDone evs = 0 ∧ failed_resolves evs = 0)
    as (Ha & Hd & Hf).
  { clear Ht. unfold failed_resolves.
    induction Hevs as [|ev evs Hev _ IH]; [done|]. destruct IH as (Ha & Hd & Hf).
    rewrite !count_cons, Ha, Hd.
    destruct ev as [| | | | | | |[] ? ?| | | |]; try discriminate Hev; repeat split; try done;
      rewrite filter_cons_False; done. }
  unfold accounted. rewrite Ha, Hd, Hf. repeat split; try done. lia.
Qed.

Lemma accounted_refl (w : World) : accounted w w [].
Proof. unfold accounted. rewrite app_nil_r. repeat split; try done. cbn. lia. Qed.

Lemma accounted_trans (w1 w2 w3 : World) (e1 e2 : list event) :
  accounted w1 w2 e1 → accounted w2 w3 e2 → accounted w1 w3 (e1 ++ e2).
Proof.
  intros (Ht1 & Hc1 & Hw1) (Ht2 & Hc2 & Hw2). unfold accounted.
  rewrite !count_app, failed_resolves_app, Ht2, Ht1, Hw2, Hw1, app_assoc.
  repeat split; lia.
Qed.

(** A log line that is no failed resolver, a dump, a cancel: the books
    stay as they are. *)
Lemma accounted_emit (w w' : World) (evs : list event) (ev : event) :
  accounted w w' evs →
  kind_of ev ≠ KAdd → kind_of ev ≠ KDone → resolve_failure ev = false →
  accounted w (emit ev w') (evs ++ [ev]).
Proof.
  intros (Ht & Hc & Hw) Ha Hd Hf. unfold accounted.
  rewrite !count_app, failed_resolves_app, !count_cons. unfold failed_resolves at 2 4.
  rewrite filter_cons_False by (by rewrite Hf).
  rewrite !decide_False by done. cbn [emit trace wg List.length filter count].
  rewrite Ht, <- app_assoc. repeat split; try done; cbn; lia.
Qed.

Ltac decode_listing :=
  split;
  [decode_run; first [apply listing_refl | by apply listing_emit; [apply listing_refl|]]
  |decode_run; done].

Lemma Cronjob_decode_listing (repo : Obj) (w : World) :
  listing w (Cronjob.decode repo w).2 ∧ (Cronjob.decode repo w).1 ≠ Hang.
Proof.
  unfold Cronjob.decode.
  destruct (repo !! "metadata") as [[| | | | |metadata]|]; try decode_listing.
  destruct (repo !! "spec") as [[| | | | |spec]|]; try decode_listing. decode_run.
  destruct (spec !! "repoUrl") as [[| | |url| |]|]; try decode_listing.
  destruct (spec !! "accessToken") as [[| | |token| |]|]; try decode_listing.
  destruct (spec !! "username") as [[| | |user| |]|]; decode_listing.
Qed.

Lemma Cmd_decode_listing (repo : Obj) (w : World) :
  listing w (Cmd.decode repo w).2 ∧ (Cmd.decode repo w).1 ≠ Hang.
Proof.
  unfold Cmd.decode.
  destruct (repo !! "metadata") as [[| | | | |metadata]|]; try decode_listing.
  destruct (repo !! "spec") as [[| | | | |spec]|]; try decode_listing. decode_run.
  destruct (spec !! "repoUrl") as [[| | |url| |]|]; try decode_listing.
  destruct (spec !! "accessToken") as [[| | |token| |]|]; try decode_listing.
  destruct (spec !! "username") as [[| | |user| |]|]; decode_listing.
Qed.

Lemma Cronjob_decode_all_listing (items : list Obj) :
  ∀ w, listing w (Cronjob.decode_all items w).2 ∧ (Cronjob.decode_all items w).1 ≠ Hang.
Proof.
  induction items as [|repo rest IH]; intros w; [split; [apply listing_refl|done]|].
  cbn [Cronjob.decode_all]. rewrite run_bind.
  destruct (Cronjob_decode_listing repo w) as [Hq Hh].
  destruct (Cronjob.decode repo w) as [[r|msg|] w1]; cbn [fst snd] in *; try done.
  rewrite run_bind. destruct (IH w1) as [Hq1 Hh1].
  destruct (Cronjob.decode_all rest w1) as [[rs|msg|] w2]; cbn [fst snd] in *; try done;
    (split; [by eapply listing_trans|done]).
Qed.

Lemma Cmd_decode_all_listing (items : list Obj) :
  ∀ w, listing w (Cmd.decode_all items w).2 ∧ (Cmd.decode_all items w).1 ≠ Hang.
Proof.
  induction items as [|repo rest IH]; intros w; [split; [apply listing_refl|done]|].
  cbn [Cmd.decode_all]. rewrite run_bind.
  destruct (Cmd_decode_listing repo w) as [Hq Hh].
  destruct (Cmd.decode repo w) as [[r|msg|] w1]; cbn [fst snd] in *; try done.
  rewrite run_bind. destruct (IH w1) as [Hq1 Hh1].
  destruct (Cmd.decode_all rest w1) as [[rs|msg|] w2]; cbn [fst snd] in *; try done;
    (split; [by eapply listing_trans|done]).
Qed.

Lemma List_listing (ctx : context) (namespace : string) (w : World) :
  ∃ res w1, List ctx namespace w = (Ret res, w1) ∧ listing w w1.
Proof.
  unfold List.
  destruct (remote_call ctx _ w) as [res w1] eqn:Hc.
  apply remote_call_read in Hc as (Ht & Hw & _).
  eexists _, _. split; [reflexivity|]. split; [done|].
  exists [EvList namespace res]. split.
  - cbn. by rewrite Ht.
  - by repeat constructor.
Qed.

(** [getRepos]: it lists, it may panic, it never blocks; with an error it
    returns the nil slice. *)
Lemma Cronjob_getRepos_listing (ctx : context) (w : World) :
  listing w (Cronjob.getRepos ctx w).2
  ∧ (Cronjob.getRepos ctx w).1 ≠ Hang
  ∧ ∀ repos err, (Cronjob.getRepos ctx w).1 = Ret (repos, Some err) → repos = None.
Proof.
  rewrite Cronjob_getRepos_unfold.
  destruct (List_listing ctx tacos w) as (res & w1 & -> & Hq).
  destruct res as [items|err];
    [|split; [exact Hq|split; [done|by intros ?? [= <- _]]]].
  destruct (Cronjob_decode_all_listing items w1) as [Hq1 Hh].
  destruct (Cronjob.decode_all items w1) as [[| |] w2]; cbn [fst snd] in *; try done;
    (split; [by eapply listing_trans|done]).
Qed.

Lemma Cmd_getRepos_listing (ctx : context) (w : World) :
  listing w (Cmd.getRepos ctx w).2
  ∧ (Cmd.getRepos ctx w).1 ≠ Hang
  ∧ ∀ repos err, (Cmd.getRepos ctx w).1 = Ret (repos, Some err) → repos = None.
Proof.
  rewrite Cmd_getRepos_unfold.
  destruct (List_listing ctx tacos w) as (res & w1 & -> & Hq).
  destruct res as [items|err];
    [|split; [exact Hq|split; [done|by intros ?? [= <- _]]]].
  destruct (Cmd_decode_all_listing items w1) as [Hq1 Hh].
  destruct (Cmd.decode_all items w1) as [[| |] w2]; cbn [fst snd] in *; try done;
    (split; [by eapply listing_trans|done]).
Qed.

(** One worker of [cronjob/main.go], added and run. *)
Lemma Cronjob_worker_accounted (repo : Cronjob.Repository) (w : World) :
  (0 ≤ wg w)%Z →
  ∃ (w' : World) (evs : list event),
    (w1 ← wg_Add 1; go (Cronjob.processRepo Background repo)) w = (Ret (), w')
    ∧ accounted w w' evs ∧ count KAdd evs = 1.
Proof.
  intros Hwg. rewrite run_bind. unfold wg_Add, go. cbn zeta.
  rewrite decide_False by lia.
  set (w1 := emit (EvAdd 1) (set_wg (wg w + 1) w)).
  destruct (Cronjob_processRepo_run Background repo w1) as (w' & evs & -> & Ht & Ha & Hcase);
    [cbn; lia|].
  exists w', (EvAdd 1 :: evs). split; [done|].
  unfold accounted. rewrite !count_cons, Ha, Ht. cbn [w1 emit set_wg trace wg kind_of].
  rewrite decide_True, decide_False by done.
  change (failed_resolves (EvAdd 1 :: evs)) with (failed_resolves evs).
  rewrite <- app_assoc. cbn in Hcase.
  destruct Hcase as [(-> & -> & -> & _)|(-> & -> & -> & _)]; repeat split; cbn; lia.
Qed.

Lemma Cronjob_dispatch_accounted (repos : list Cronjob.Repository) :
  ∀ w, (0 ≤ wg w)%Z →
       ∃ (w' : World) (evs : list event),
         Cronjob.dispatch repos w = (Ret (), w')
         ∧ accounted w w' evs ∧ count KAdd evs = List.length repos.
Proof.
  induction repos as [|repo rest IH]; intros w Hwg.
  { exists w, []. split; [done|]. split; [apply accounted_refl|done]. }
  destruct (Cronjob_worker_accounted repo w Hwg) as (w1 & e1 & Hrun & Hacc & Ha).
  assert (0 ≤ wg w1)%Z as Hwg1 by (destruct Hacc as (_ & _ & ->); lia).
  destruct (IH w1 Hwg1) as (w2 & e2 & Hrest & Hacc2 & Ha2).
  exists w2, (e1 ++ e2). split.
  - cbn [Cronjob.dispatch]. rewrite run_bind in Hrun |- *.
    destruct (wg_Add 1 w) as [[[]| |] wa]; try done.
    rewrite run_bind, Hrun. exact Hrest.
  - split; [by eapply accounted_trans|]. rewrite count_app, Ha, Ha2. done.
Qed.

Lemma accounted_listing (w w1 w2 : World) (evs : list event) :
  accounted w w1 evs → listing w1 w2 →
  ∃ evs', accounted w w2 evs' ∧ count KAdd evs' = count KAdd evs.
Proof.
  intros Hacc Hl. apply listing_accounted in Hl as (e & He & Ha).
  exists (evs ++ e). split; [by eapply accounted_trans|].
  rewrite count_app, Ha. lia.
Qed.

(** X4. [main] of [cronjob/main.go], started with a fresh WaitGroup.  Over
    the whole run every worker added has signalled [Done] or logged a
    failed resolver, and the counter stands at the number of the latter;
    [main] returns when no resolver has failed, blocks in [wg.Wait()] for
    good when one has, and panics only in the lister, with no worker
    added. *)
Theorem Cronjob_main_returns_unless_a_resolver_failed (w : World) :
  wg w = 0%Z →
  ∃ evs : list event,
    accounted w (Cronjob.main w).2 evs
    ∧ match (Cronjob.main w).1 with
      | Ret _ => failed_resolves evs = 0
      | Hang => 0 < failed_resolves evs
      | Panic _ => count KAdd evs = 0
      end.
Proof.
  intros Hwg. destruct (Cronjob.main w) as [o w'] eqn:Hmain. cbn [fst snd].
  unfold Cronjob.main in Hmain. rewrite run_bind in Hmain.
  unfold slog_Info at 1, tell in Hmain.
  set (w0 := emit (EvLog LevelInfo "Ernesto initialized" []) w) in Hmain.
  assert (accounted w w0 ([] ++ [EvLog LevelInfo "Ernesto initialized" []])) as H0
    by (by apply accounted_emit; [apply accounted_refl|..]).
  rewrite run_bind in Hmain.
  destruct (Cronjob_getRepos_listing Background w0) as (Hl & Hh & Hnil).
  destruct (Cronjob.getRepos Background w0) as [[[repos err]|msg|] w1];
    cbn [fst snd] in *; [| |done].
  2: { injection Hmain as <- <-.
       destruct (accounted_listing _ _ _ _ H0 Hl) as (evs & Hacc & Ha).
       exists evs. split; [exact Hacc|]. by rewrite Ha. }
  destruct (accounted_listing _ _ _ _ H0 Hl) as (e1 & Hacc & _).
  assert (∃ (w2 : World) (ev : event),
            (match err with
             | Some err => slog_Error "Failed to get repos" [error_attr err]
             | None => spew_Dump
             end) w1 = (Ret (), w2)
            ∧ accounted w w2 (e1 ++ [ev])) as (w2 & ev & Hlog & Hacc2).
  { destruct err as [err|]; eexists _, _; (split; [reflexivity|]);
      by apply accounted_emit. }
  rewrite run_bind, Hlog, run_bind in Hmain.
  assert (0 ≤ wg w2)%Z as Hwg2 by (destruct Hacc2 as (_ & _ & ->); lia).
  destruct (Cronjob_dispatch_accounted (elems repos) w2 Hwg2) as (w3 & e3 & Hd & Hacc3 & _).
  rewrite Hd in Hmain.
  pose proof (accounted_trans _ _ _ _ _ Hacc2 Hacc3) as Hacc'.
  exists ((e1 ++ [ev]) ++ e3). unfold wg_Wait in Hmain.
  destruct (decide (wg w3 = 0)%Z) as [Hz|Hnz]; injection Hmain as <- <-;
    (split; [done|]); destruct Hacc' as (_ & _ & Hw); lia.
Qed.

(** The scenario: one repository, its remote reachable; [main] returns. *)
Lemma Cronjob_main_returns_unless_a_resolver_failed_witness :
  ∃ evs : list event,
    trace (Cronjob.main (Sample.world [])).2 = evs
    ∧ count KAdd evs = count KDone evs
    ∧ failed_resolves evs = 0.
Proof.
  destruct (Cronjob_main_returns_unless_a_resolver_failed (Sample.world []))
    as (evs & (Ht & Hc & _) & Hout); [reflexivity|].
  replace (Cronjob.main (Sample.world [])).1 with (Ret () : outcome ()) in Hout
    by by_evaluation.
  exists evs. split; [exact Ht|]. split; [lia|exact Hout].
Defined.

(** ** The long-running variant *)

(** The worker of [cmd/main.go], whole: one clone, at most one look at
    HEAD, one log line, and a [Done] when the resolver succeeded. *)
Lemma Cmd_processRepo_run (ctx : context) (repo : Cmd.Repository) (w : World) :
  (0 < wg w)%Z →
  ∃ (w' : World) (evs : list event),
    Cmd.processRepo ctx repo w = (Ret (), w')
    ∧ trace w' = trace w ++ evs
    ∧ Forall (λ ev, resolver_kind (kind_of ev) = true) evs
    ∧ count KClone evs = 1
    ∧ (count KHead evs ≤ 1)%nat
    ∧ ((failed_resolves evs = 1 ∧ count KDone evs = 0 ∧ wg w' = wg w)
       ∨ (failed_resolves evs = 0 ∧ count KDone evs = 1 ∧ wg w' = (wg w - 1)%Z
          ∧ last evs = Some EvDone)).
Proof.
  intros Hwg.
  destruct (Cmd.getLatestCommit ctx repo w) as [o w1] eqn:Hres.
  pose proof Hres as Hunf. rewrite Cmd_getLatestCommit_unfold in Hunf. cbn zeta in Hunf.
  destruct (remote_call _ _ w) as [[cloned|e] wc] eqn:Hc;
    apply remote_call_clone in Hc as (Htc & Hwc & _).
  2: { injection Hunf as <- <-.
       rewrite (Cmd_processRepo_unresolved _ _ _ _ _ _ Hres).
       eexists _, [_; _]. split; [reflexivity|]. split.
       { cbn. rewrite Htc, <- !app_assoc. reflexivity. }
       split; [by repeat constructor|]. split; [reflexivity|]. split; [vm_compute; lia|].
       left. repeat split; done. }
  destruct (storage_head cloned) as [hash|]; injection Hunf as <- <-.
  2: { rewrite (Cmd_processRepo_unresolved _ _ _ _ _ _ Hres).
       eexists _, [_; _; _]. split; [reflexivity|]. split.
       { cbn. rewrite Htc, <- !app_assoc. reflexivity. }
       split; [by repeat constructor|]. split; [reflexivity|]. split; [vm_compute; lia|].
       left. repeat split; done. }
  unfold Cmd.processRepo. rewrite run_bind, Hres, run_bind.
  unfold slog_Info, tell, wg_Done. cbn [emit wg]. rewrite decide_False by lia.
  eexists _, [_; _; _; _]. split; [reflexivity|]. split.
  { cbn. rewrite Htc, <- !app_assoc. reflexivity. }
  split; [by repeat constructor|]. split; [reflexivity|]. split; [vm_compute; lia|].
  right. repeat split; try done. cbn. lia.
Qed.



Lemma Cmd_started_accounted (repo : Cmd.Repository) (w : World) :
  (0 ≤ wg w)%Z →
  ∃ (w' : World) (evs : list event),
    (w1 ← wg_Add 1; go (Cmd.processRepo Background repo)) w = (Ret (), w')
    ∧ accounted w w' evs.
Proof.
  intros Hwg. rewrite run_bind. unfold wg_Add, go. cbn zeta.
  rewrite decide_False by lia.
  set (w1 := emit (EvAdd 1) (set_wg (wg w + 1) w)).
  destruct (Cmd_processRepo_run Background repo w1)
    as (w' & evs & -> & Ht & Hk & _ & _ & Hcase); [cbn; lia|].
  assert (count KAdd evs = 0) as Ha.
  { apply count_none. eapply Forall_impl; [exact Hk|]. cbn. intros ev Hev Heq.
    rewrite Heq in Hev. discriminate Hev. }
  exists w', (EvAdd 1 :: evs). split; [done|].
  unfold accounted. rewrite !count_cons, Ha, Ht. cbn [w1 emit set_wg trace wg kind_of].
  rewrite decide_True, decide_False by done.
  change (failed_resolves (EvAdd 1 :: evs)) with (failed_resolves evs).
  rewrite <- app_assoc. cbn in Hcase.
  destruct Hcase as [(-> & -> & ->)|(-> & -> & -> & _)]; repeat split; cbn; lia.
Qed.

Lemma Cmd_dispatch_accounted (repos : list Cmd.Repository) :
  ∀ w, (0 ≤ wg w)%Z →
       ∃ (w' : World) (evs : list event),
         Cmd.dispatch repos w = (Ret (), w') ∧ accounted w w' evs.
Proof.
  induction repos as [|repo rest IH]; intros w Hwg.
  { exists w, []. split; [done|]. apply accounted_refl. }
  destruct (Cmd_started_accounted repo w Hwg) as (w1 & e1 & Hrun & Hacc).
  assert (0 ≤ wg w1)%Z as Hwg1 by (destruct Hacc as (_ & _ & ->); lia).
  destruct (IH w1 Hwg1) as (w2 & e2 & Hrest & Hacc2).
  exists w2, (e1 ++ e2). split.
  - cbn [Cmd.dispatch]. rewrite run_bind in Hrun |- *.
    destruct (wg_Add 1 w) as [[[]| |] wa]; try done.
    rewrite run_bind, Hrun. exact Hrest.
  - by eapply accounted_trans.
Qed.

(** One firing of the ticker: it may panic in the lister, it never
    blocks. *)
Lemma Cmd_tick_accounted (w : World) :
  (0 ≤ wg w)%Z →
  ∃ evs : list event, accounted w (Cmd.tick w).2 evs ∧ (Cmd.tick w).1 ≠ Hang.
Proof.
  intros Hwg. unfold Cmd.tick. rewrite run_bind.
  destruct (Cmd_getRepos_listing NotifyContext w) as (Hl & Hh & _).
  destruct (Cmd.getRepos NotifyContext w) as [[[repos err]|msg|] w1];
    cbn [fst snd] in *; [| |done].
  2: { apply listing_accounted in Hl as (evs & Hacc & _). eauto. }
  pose proof Hl as (Hw1 & _).
  apply listing_accounted in Hl as (e1 & Hacc & _).
  destruct err as [err|].
  - eexists. split; [|done]. by apply accounted_emit.
  - destruct (Cmd_dispatch_accounted (elems repos) w1) as (w2 & e2 & -> & Hacc2); [lia|].
    exists (e1 ++ e2). split; [by eapply accounted_trans|done].
Qed.

(** The loop: it is left at a [Done] received and at nothing else. *)
Lemma Cmd_Loop_accounted (picked : list select_case) :
  ∀ w, (0 ≤ wg w)%Z →
       ∃ evs : list event,
         accounted w (Cmd.Loop picked w).2 evs
         ∧ match (Cmd.Loop picked w).1 with
           | Ret Exited => case_done ∈ picked ∧ cancelled (Cmd.Loop picked w).2 = true
           | Ret InLoop => case_done ∉ picked
           | Panic _ => True
           | Hang => False
           end.
Proof.
  induction picked as [|[|] rest IH]; intros w Hwg; cbn [Cmd.Loop].
  - exists []. split; [apply accounted_refl|]. cbn. apply not_elem_of_nil.
  - rewrite run_bind.
    destruct (Cmd_tick_accounted w Hwg) as (e1 & Hacc & Hh).
    destruct (Cmd.tick w) as [[[]|msg|] w1]; cbn [fst snd] in *; [|by eauto|done].
    assert (0 ≤ wg w1)%Z as Hwg1 by (destruct Hacc as (_ & _ & ->); lia).
    destruct (IH w1 Hwg1) as (e2 & Hacc2 & Hout).
    exists (e1 ++ e2). split; [by eapply accounted_trans|].
    destruct (Cmd.Loop rest w1) as [[[|]|msg|] w2]; cbn [fst snd] in *; try done.
    + destruct Hout as [Hin Hc]. split; [apply elem_of_cons; by right|done].
    + intros Hin. apply elem_of_cons in Hin as [Heq|Hin]; [discriminate Heq|done].
  - eexists. split.
    + apply accounted_emit; [|done..]. unfold accounted. cbn [set_cancelled trace wg].
      apply accounted_refl.
    + cbn. split; [apply elem_of_cons; by left|done].
Qed.

(** X6. [main] of [cmd/main.go], started with a fresh WaitGroup and run
    through any sequence of ticks and interrupts.  Over the whole run every
    worker added has signalled [Done] or logged a failed resolver, and the
    counter stands at the number of the latter.  [main] gets out of its loop
    at an interrupt and at nothing else; having got out, it returns when no
    resolver has failed on the way and blocks in [wg.Wait()] for good when
    one has. *)
Theorem Cmd_main_returns_unless_a_resolver_failed
    (picked : list select_case) (w : World) :
  wg w = 0%Z →
  ∃ evs : list event,
    accounted w (Cmd.main picked w).2 evs
    ∧ match (Cmd.main picked w).1 with
      | Ret Exited => case_done ∈ picked ∧ failed_resolves evs = 0
      | Ret InLoop => case_done ∉ picked
      | Hang => case_done ∈ picked ∧ 0 < failed_resolves evs
      | Panic _ => True
      end.
Proof.
  intros Hwg. destruct (Cmd.main picked w) as [o w'] eqn:Hmain. cbn [fst snd].
  unfold Cmd.main in Hmain. rewrite run_bind in Hmain.
  unfold slog_Info at 1, tell in Hmain.
  set (w0 := emit (EvLog LevelInfo "Ernesto initialized" []) w) in Hmain.
  assert (accounted w w0 ([] ++ [EvLog LevelInfo "Ernesto initialized" []])) as H0
    by (by apply accounted_emit; [apply accounted_refl|..]).
  rewrite run_bind in Hmain.
  destruct (Cmd_getRepos_listing NotifyContext w0) as (Hl & Hh & _).
  destruct (Cmd.getRepos NotifyContext w0) as [[[repos err]|msg|] w1];
    cbn [fst snd] in *; [| |done].
  2: { injection Hmain as <- <-.
       destruct (accounted_listing _ _ _ _ H0 Hl) as (evs & Hacc & _). eauto. }
  destruct (accounted_listing _ _ _ _ H0 Hl) as (e1 & Hacc & _).
  assert (∃ (w2 : World) (ev : event),
            (match err with
             | Some err => slog_Error "Failed to get repos" [error_attr err]
             | None => spew_Dump
             end) w1 = (Ret (), w2)
            ∧ accounted w w2 (e1 ++ [ev])) as (w2 & ev & Hlog & Hacc2).
  { destruct err as [err|]; eexists _, _; (split; [reflexivity|]);
      by apply accounted_emit. }
  rewrite run_bind, Hlog, run_bind in Hmain.
  assert (0 ≤ wg w2)%Z as Hwg2 by (destruct Hacc2 as (_ & _ & ->); lia).
  destruct (Cmd_Loop_accounted picked w2 Hwg2) as (e3 & Hacc3 & Hout).
  pose proof (accounted_trans _ _ _ _ _ Hacc2 Hacc3) as Hacc'.
  destruct (Cmd.Loop picked w2) as [[[|]|msg|] w3]; cbn [fst snd] in *; [| | |done].
  - rewrite run_bind in Hmain. unfold wg_Wait in Hmain.
    destruct Hout as [Hin _].
    destruct (decide (wg w3 = 0)%Z) as [Hz|Hnz].
    + injection Hmain as <- <-. eexists. split.
      * apply accounted_emit; [exact Hacc'|done..].
      * split; [done|]. rewrite failed_resolves_app.
        destruct Hacc' as (_ & _ & Hw). change (failed_resolves [EvCancel]) with 0. lia.
    + injection Hmain as <- <-. eexists. split; [exact Hacc'|].
      split; [done|]. destruct Hacc' as (_ & _ & Hw). lia.
  - injection Hmain as <- <-. eauto.
  - injection Hmain as <- <-. eauto.
Qed.

(** A tick and then the interrupt, over the scenario: [main] returns. *)
Lemma Cmd_main_returns_unless_a_resolver_failed_witness :
  ∃ evs : list event,
    trace (Cmd.main [case_ticker; case_done] (Sample.world [])).2 = evs
    ∧ count KAdd evs = count KDone evs
    ∧ failed_resolves evs = 0.
Proof.
  destruct (Cmd_main_returns_unless_a_resolver_failed [case_ticker; case_done]
              (Sample.world [])) as (evs & (Ht & Hc & _) & Hout); [reflexivity|].
  replace (Cmd.main [case_ticker; case_done] (Sample.world [])).1
    with (Ret Exited : outcome standing) in Hout by by_evaluation.
  destruct Hout as [_ Hf].
  exists evs. split; [exact Ht|]. split; [lia|exact Hf].
Defined.

(** ** One pass after another *)

(** The changeset on a record with its containers in place, written
    out. *)
Lemma apply_changeset_unfold (record : Obj) (now : Time) (hash : string) :
  Cronjob.apply record (Cronjob.changeset now hash) =
  let set (annotations : Obj) : Obj :=
    <["ernesto.0x42.in/commit-hash" := VString hash]>
      (<["ernesto.0x42.in/last-sync-time" := VString (Format_RFC1123 now)]> annotations) in
  match record !! "metadata" with
  | None =>
      Ret (<["metadata" := VMap (<["annotations" := VMap (set ∅)]> ∅)]> record, None)
  | Some (VMap md) =>
      match md !! "annotations" with
      | None =>
          Ret (<["metadata" := VMap (<["annotations" := VMap (set ∅)]> md)]> record, None)
      | Some (VMap ann) =>
          Ret (<["metadata" := VMap (<["annotations" := VMap (set ann)]> md)]> record, None)
      | Some _ =>
          Ret (record, Some (errorString
                 ("value cannot be set because " +:+ jsonPath ["metadata"; "annotations"]
                  +:+ " is not a map[string]interface{}")))
      end
  | Some _ =>
      Ret (record, Some (errorString
             ("value cannot be set because " +:+ jsonPath ["metadata"]
              +:+ " is not a map[string]interface{}")))
  end.
Proof.
  unfold Cronjob.changeset, Cronjob.apply,
    Cronjob.last_sync_time, Cronjob.commit_hash; cbn [Cronjob.keys Cronjob.value].
  rewrite SetNestedField_three. cbn zeta.
  destruct (record !! "metadata") as [[| | | | |md]|]; try reflexivity.
  - destruct (md !! "annotations") as [[| | | | |ann]|]; try reflexivity;
      rewrite SetNestedField_three, lookup_insert_eq, lookup_insert_eq;
      by rewrite !insert_insert_eq.
  - rewrite SetNestedField_three, lookup_insert_eq, lookup_insert_eq.
    by rewrite !insert_insert_eq.
Qed.

Lemma annotations_overwritten (ann : Obj) (t1 h1 t2 h2 : value) :
  <["ernesto.0x42.in/commit-hash" := h2]>
    (<["ernesto.0x42.in/last-sync-time" := t2]>
       (<["ernesto.0x42.in/commit-hash" := h1]>
          (<["ernesto.0x42.in/last-sync-time" := t1]> ann)))
  = <["ernesto.0x42.in/commit-hash" := h2]>
      (<["ernesto.0x42.in/last-sync-time" := t2]> ann).
Proof.
  apply map_eq. intros k.
  destruct (decide (k = "ernesto.0x42.in/commit-hash")) as [->|Hc];
    [by rewrite !lookup_insert_eq|].
  rewrite !(lookup_insert_ne _ "ernesto.0x42.in/commit-hash") by done.
  destruct (decide (k = "ernesto.0x42.in/last-sync-time")) as [->|Ht];
    [by rewrite !lookup_insert_eq|].
  rewrite !(lookup_insert_ne _ "ernesto.0x42.in/last-sync-time") by done.
  rewrite (lookup_insert_ne _ "ernesto.0x42.in/commit-hash") by done.
  by rewrite (lookup_insert_ne _ "ernesto.0x42.in/last-sync-time").
Qed.

(** X7. What a pass has written, the next pass replaces: applying the
    changeset of a second pass to the record the first has produced gives
    the record that the second alone would have given, so nothing of the
    first is left behind and nothing piles up; and applying the same
    changeset a second time changes nothing. *)
Theorem later_changeset_replaces_the_earlier
    (record r1 : Obj) (now1 now2 : Time) (hash1 hash2 : string) :
  Cronjob.apply record (Cronjob.changeset now1 hash1) = Ret (r1, None) →
  Cronjob.apply r1 (Cronjob.changeset now2 hash2)
    = Cronjob.apply record (Cronjob.changeset now2 hash2)
  ∧ Cronjob.apply r1 (Cronjob.changeset now1 hash1) = Ret (r1, None).
Proof.
  intros Happ.
  assert (∀ now hash, Cronjob.apply r1 (Cronjob.changeset now hash)
                      = Cronjob.apply record (Cronjob.changeset now hash)) as Hsame.
  { intros now hash. rewrite !apply_changeset_unfold in *. cbn zeta in *.
    destruct (record !! "metadata") as [[| | | | |md]|] eqn:Hmd; try done.
    - destruct (md !! "annotations") as [[| | | | |ann]|] eqn:Hann; try done;
        injection Happ as <-;
        rewrite !lookup_insert_eq, !insert_insert_eq, annotations_overwritten; done.
    - injection Happ as <-.
      rewrite !lookup_insert_eq, !insert_insert_eq, annotations_overwritten. done. }
  split; [apply Hsame|]. by rewrite Hsame.
Qed.

(** The scenario's record, synced at [abc123] and then at [def456]. *)
Lemma later_changeset_replaces_the_earlier_witness :
  ∃ r1 : Obj,
    Cronjob.apply Sample.repo_a (Cronjob.changeset Sample.reference_time "abc123")
      = Ret (r1, None)
    ∧ Cronjob.apply r1 (Cronjob.changeset Sample.reference_time "def456")
      = Cronjob.apply Sample.repo_a (Cronjob.changeset Sample.reference_time "def456").
Proof.
  destruct (apply_changeset_ok Sample.repo_a Sample.reference_time "abc123")
    as [r1 Hr1]; [vm_compute; exact I|].
  exists r1. split; [exact Hr1|].
  exact (proj1 (later_changeset_replaces_the_earlier Sample.repo_a r1
                  Sample.reference_time Sample.reference_time "abc123" "def456" Hr1)).
Defined.

(** ** A list call that fails *)

(** X8. When the list call fails, [getRepos] of each of the three
    programs hands its error back as it came, with the nil slice, and has
    done nothing but that call.  [main] of [cronjob/main.go] then logs the
    error, finds nothing to range over and returns: the run is the start-up
    line, the list call and the error line.  A tick of [cmd/main.go] logs
    the error and is over, with the loop left standing for the next
    tick. *)
Theorem failed_list_is_logged_and_starts_no_worker :
  (∀ ctx (w : World) err,
     (List ctx tacos w).1 = Ret (inr err) →
     Cronjob.getRepos ctx w = (Ret (None, Some err), (List ctx tacos w).2)
     ∧ Cmd.getRepos ctx w = (Ret (None, Some err), (List ctx tacos w).2)
     ∧ Ticker.getRepos ctx w = (Ret (None, Some err), (List ctx tacos w).2))
  ∧ (∀ (w : World) err,
       wg w = 0%Z →
       (List Background tacos (emit (EvLog LevelInfo "Ernesto initialized" []) w)).1
         = Ret (inr err) →
       (Cronjob.main w).1 = Ret ()
       ∧ trace (Cronjob.main w).2
         = trace w ++ [EvLog LevelInfo "Ernesto initialized" [];
                       EvList tacos (inr err);
                       EvLog LevelError "Failed to get repos" [error_attr err]])
  ∧ (∀ (w : World) err (rest : list select_case),
       (List NotifyContext tacos w).1 = Ret (inr err) →
       Cmd.tick w
         = (Ret (), emit (EvLog LevelError "Failed to get repos" [error_attr err])
                      (List NotifyContext tacos w).2)
       ∧ Cmd.Loop (case_ticker :: rest) w
         = Cmd.Loop rest (emit (EvLog LevelError "Failed to get repos" [error_attr err])
                            (List NotifyContext tacos w).2)).
Proof.
  assert (∀ ctx (w : World) err,
            (List ctx tacos w).1 = Ret (inr err) →
            Cronjob.getRepos ctx w = (Ret (None, Some err), (List ctx tacos w).2)
            ∧ Cmd.getRepos ctx w = (Ret (None, Some err), (List ctx tacos w).2)
            ∧ Ticker.getRepos ctx w = (Ret (None, Some err), (List ctx tacos w).2))
    as Hgets.
  { intros ctx w err Hlist.
    rewrite Cronjob_getRepos_unfold, Cmd_getRepos_unfold, Ticker_getRepos_unfold.
    destruct (List ctx tacos w) as [o w1]; cbn [fst snd] in *. by subst o. }
  split; [exact Hgets|]. split.
  - intros w err Hwg Hlist.
    set (w0 := emit (EvLog LevelInfo "Ernesto initialized" []) w) in *.
    destruct (Hgets Background w0 err Hlist) as (Hget & _).
    assert (trace (List Background tacos w0).2 = trace w0 ++ [EvList tacos (inr err)]
            ∧ wg (List Background tacos w0).2 = 0%Z) as [Ht Hw].
    { revert Hlist. unfold List.
      destruct (remote_call Background _ w0) as [res w1] eqn:Hc.
      apply remote_call_read in Hc as (Ht & Hw & _). cbn. intros [= ->].
      by rewrite Ht, Hw. }
    assert (Cronjob.main w
            = (Ret (), emit (EvLog LevelError "Failed to get repos" [error_attr err])
                         (List Background tacos w0).2)) as ->.
    { unfold Cronjob.main. rewrite run_bind. unfold slog_Info at 1, tell. fold w0.
      rewrite run_bind, Hget, run_bind. unfold slog_Error, tell.
      rewrite run_bind. cbn [Cronjob.dispatch elems default]. rewrite run_ret.
      unfold wg_Wait. cbn [emit wg]. by rewrite Hw. }
    split; [done|]. cbn [snd emit trace]. rewrite Ht. unfold w0. cbn [emit trace].
    by rewrite <- !app_assoc.
  - intros w err rest Hlist.
    destruct (Hgets NotifyContext w err Hlist) as (_ & Hget & _).
    assert (Cmd.tick w
            = (Ret (), emit (EvLog LevelError "Failed to get repos" [error_attr err])
                         (List NotifyContext tacos w).2)) as Htick.
    { unfold Cmd.tick. by rewrite run_bind, Hget. }
    split; [exact Htick|]. cbn [Cmd.Loop]. by rewrite run_bind, Htick.
Qed.

(** The server cannot be reached when [main] of [cronjob/main.go] lists:
    it logs that and returns. *)
Lemma failed_list_is_logged_and_starts_no_worker_witness :
  (Cronjob.main Sample.outage).1 = Ret ()
  ∧ trace (Cronjob.main Sample.outage).2
    = [EvLog LevelInfo "Ernesto initialized" [];
       EvList tacos (inr (errorString "dial tcp: i/o timeout"));
       EvLog LevelError "Failed to get repos"
         [error_attr (errorString "dial tcp: i/o timeout")]].
Proof.
  destruct failed_list_is_logged_and_starts_no_worker as (_ & H & _).
  apply (H Sample.outage (errorString "dial tcp: i/o timeout")).
  - reflexivity.
  - by_evaluation.
Defined.

(** ** What the lister puts in an entry *)

Lemma Cronjob_decode_fields (repo : Obj) (w : World) :
  decodable repo →
  ∃ r w', Cronjob.decode repo w = (Ret r, w')
          ∧ Cronjob.Name r = GetName repo
          ∧ Cronjob.Namespace r = GetNamespace repo
          ∧ NestedField repo ["spec"; "repoUrl"] = Some (VString (Cronjob.URL r))
          ∧ NestedField repo ["spec"; "accessToken"] = Some (VString (Cronjob.AccessToken r))
          ∧ NestedField repo ["spec"; "username"] = Some (VString (Cronjob.Username r))
          ∧ Cronjob.Unstructured r = repo.
Proof.
  unfold decodable, Cronjob.decode. intros H. cbn [NestedField].
  destruct (repo !! "metadata") as [[| | | | |metadata]|]; try done.
  destruct (repo !! "spec") as [[| | | | |spec]|]; try done. decode_run.
  destruct (spec !! "repoUrl") as [[| | |url| |]|]; try done.
  destruct (spec !! "accessToken") as [[| | |token| |]|]; try done.
  destruct (spec !! "username") as [[| | |user| |]|]; try done. decode_run.
  eexists _, _. split; [reflexivity|]. done.
Qed.

Lemma Cmd_decode_fields (repo : Obj) (w : World) :
  decodable repo →
  ∃ r w', Cmd.decode repo w = (Ret r, w')
          ∧ Cmd.Name r = GetName repo
          ∧ Cmd.Namespace r = GetNamespace repo
          ∧ NestedField repo ["spec"; "repoUrl"] = Some (VString (Cmd.URL r))
          ∧ NestedField repo ["spec"; "accessToken"] = Some (VString (Cmd.AccessToken r))
          ∧ NestedField repo ["spec"; "username"] = Some (VString (Cmd.Username r)).
Proof.
  unfold decodable, Cmd.decode. intros H. cbn [NestedField].
  destruct (repo !! "metadata") as [[| | | | |metadata]|]; try done.
  destruct (repo !! "spec") as [[| | | | |spec]|]; try done. decode_run.
  destruct (spec !! "repoUrl") as [[| | |url| |]|]; try done.
  destruct (spec !! "accessToken") as [[| | |token| |]|]; try done.
  destruct (spec !! "username") as [[| | |user| |]|]; try done. decode_run.
  eexists _, _. split; [reflexivity|]. done.
Qed.

(** X9. The entries [getRepos] returns, in [cronjob/main.go] and in
    [cmd/main.go], stand for the listed records one for one and in order,
    and each carries its record's fields as they are: the name and the
    namespace that [GetName] and [GetNamespace] read, and the strings at
    [spec.repoUrl], [spec.accessToken] and [spec.username]; in
    [cronjob/main.go] the record itself besides. *)
Theorem entry_carries_the_fields_of_its_record
    (ctx : context) (w : World) (items : list Obj) :
  (List ctx tacos w).1 = Ret (inl items) →
  Forall decodable items →
  (∃ repos, (Cronjob.getRepos ctx w).1 = Ret (Some repos, None)
            ∧ Forall2 (λ repo r,
                 Cronjob.Name r = GetName repo
                 ∧ Cronjob.Namespace r = GetNamespace repo
                 ∧ NestedField repo ["spec"; "repoUrl"] = Some (VString (Cronjob.URL r))
                 ∧ NestedField repo ["spec"; "accessToken"]
                   = Some (VString (Cronjob.AccessToken r))
                 ∧ NestedField repo ["spec"; "username"]
                   = Some (VString (Cronjob.Username r))
                 ∧ Cronjob.Unstructured r = repo) items repos)
  ∧ (∃ repos, (Cmd.getRepos ctx w).1 = Ret (Some repos, None)
              ∧ Forall2 (λ repo r,
                   Cmd.Name r = GetName repo
                   ∧ Cmd.Namespace r = GetNamespace repo
                   ∧ NestedField repo ["spec"; "repoUrl"] = Some (VString (Cmd.URL r))
                   ∧ NestedField repo ["spec"; "accessToken"]
                     = Some (VString (Cmd.AccessToken r))
                   ∧ NestedField repo ["spec"; "username"]
                     = Some (VString (Cmd.Username r))) items repos).
Proof.
  intros Hlist Hitems.
  rewrite Cronjob_getRepos_unfold, Cmd_getRepos_unfold.
  destruct (List ctx tacos w) as [res w1]; cbn [fst] in Hlist; subst res.
  clear w. split.
  - revert w1. induction Hitems as [|repo rest Hrepo _ IH]; intros w.
    { exists []. split; [done|constructor]. }
    cbn [Cronjob.decode_all]. rewrite run_bind.
    destruct (Cronjob_decode_fields repo w Hrepo) as (r & w1 & -> & Hr).
    rewrite run_bind. destruct (IH w1) as (rs & Hrs & Hall).
    destruct (Cronjob.decode_all rest w1) as [[rs'| |] w2]; try done.
    injection Hrs as ->. exists (r :: rs). split; [done|]. by constructor.
  - revert w1. induction Hitems as [|repo rest Hrepo _ IH]; intros w.
    { exists []. split; [done|constructor]. }
    cbn [Cmd.decode_all]. rewrite run_bind.
    destruct (Cmd_decode_fields repo w Hrepo) as (r & w1 & -> & Hr).
    rewrite run_bind. destruct (IH w1) as (rs & Hrs & Hall).
    destruct (Cmd.decode_all rest w1) as [[rs'| |] w2]; try done.
    injection Hrs as ->. exists (r :: rs). split; [done|]. by constructor.
Qed.

(** The scenario's cluster: one record, one entry, with its URL. *)
Lemma entry_carries_the_fields_of_its_record_witness :
  ∃ repos, (Cronjob.getRepos Background (Sample.world [])).1 = Ret (Some repos, None)
           ∧ Cronjob.URL <$> repos = ["https://example/a.git"].
Proof.
  destruct (entry_carries_the_fields_of_its_record Background (Sample.world [])
              [Sample.repo_a]) as [(repos & Hrun & Hall) _].
  - by_evaluation.
  - apply Forall_cons_2; [vm_compute; exact I|apply Forall_nil_2].
  - exists repos. split; [exact Hrun|].
    apply Forall2_cons_inv_l in Hall as (r & rs & (_ & _ & Hurl & _) & Hnil & ->).
    apply Forall2_nil_inv_l in Hnil as ->.
    change (NestedField Sample.repo_a ["spec"; "repoUrl"])
      with (Some (VString "https://example/a.git")) in Hurl.
    injection Hurl as Hurl. by rewrite fmap_cons, <- Hurl.
Defined.

(** ** The records of the others *)

Lemma drifted_others (key : string * string) (w w' : World) :
  drifted w w' → others_as_left key w w'.
Proof. intros [k Hk]. exists k. intros key' _. by injection Hk as -> _ _. Qed.

Lemma others_after_drift (key : string * string) (w wa w' : World) :
  drifted w wa → others_as_left key wa w' → others_as_left key w w'.
Proof.
  intros [j Hj] [k Hk]. exists (j + k). intros key' Hne. rewrite (Hk key' Hne).
  pose proof (idle_cluster k _ _ Hj) as Hc. rewrite idle_add in Hc.
  by injection Hc as -> _ _.
Qed.

Lemma others_objects (key : string * string) (w w' w'' : World) :
  others_as_left key w w' → objects w'' = objects w' → others_as_left key w w''.
Proof. intros [k Hk] Ho. exists k. intros key' Hne. rewrite Ho. by apply Hk. Qed.

(** One run of the closure over the changeset of a pass, however it ends:
    the one record it may have written is the repository's. *)
Lemma attempt_others (ctx : context) (repo : Cronjob.Repository)
    (now : Time) (hash : string) (w w' : World) (r : outcome (option error)) :
  consistent w →
  Cronjob.attempt ctx repo (Cronjob.changeset now hash) w = (r, w') →
  others_as_left (Cronjob.Namespace repo, Cronjob.Name repo) w w'.
Proof.
  intros Hw Hrun. apply attempt_inv in Hrun. cbn zeta in Hrun.
  destruct Hrun as [(e & w1 & Hget & _ & ->)
                   |(read & w1 & Hget & [(o & _ & -> & _)
                                        |(payload & Happ & [(e & w2 & Hupd & _ & ->)
                                                           |(stored & w2 & Hupd & _ & ->)])])];
    apply remote_call_read in Hget as (_ & _ & Hd & _ & Hread).
  - apply drifted_others. by apply drifted_emit.
  - apply drifted_others. by apply drifted_emit.
  - apply remote_call_update_refused in Hupd as (_ & _ & Hd2 & _).
    apply drifted_others, drifted_emit. eapply drifted_trans; [|exact Hd2].
    by apply drifted_emit.
  - apply remote_call_update_accepted in Hupd as (_ & _ & Ho & _). cbn zeta in Ho.
    specialize (Hread read eq_refl). unfold serve_get in Hread.
    destruct (objects w1 !! _) as [cur|] eqn:Hcur; [|done]. injection Hread as ->.
    pose proof (consistent_drifted _ _ Hd Hw _ _ _ Hcur) as Hname.
    assert (GetName payload = Cronjob.Name repo) as Hpay.
    { rewrite <- Hname. unfold GetName, getNestedString.
      by rewrite (apply_frame _ _ _ _ Happ (name_unrelated_to_changeset now hash)). }
    rewrite Hpay in Ho.
    set (wr := emit (EvGet (Cronjob.Namespace repo) (Cronjob.Name repo) (inl read)) w1) in *.
    assert (drifted w (befall wr).2) as [k Hk].
    { eapply drifted_trans; [|apply drifted_befall]. by apply drifted_emit. }
    exists k. intros key' Hne. cbn [emit objects]. rewrite Ho.
    rewrite lookup_insert_ne by done. by injection Hk as -> _ _.
Qed.

Lemma rounds_others (ctx : context) (repo : Cronjob.Repository)
    (now : Time) (hash : string) (d : Z) (n : nat) :
  ∀ lastErr (w w' : World) r,
    consistent w →
    retry_rounds d n (Cronjob.attempt ctx repo (Cronjob.changeset now hash)) lastErr w
      = (r, w') →
    others_as_left (Cronjob.Namespace repo, Cronjob.Name repo) w w'.
Proof.
  induction n as [|n IH]; intros lastErr w w' r Hw Hrun; cbn [retry_rounds] in Hrun.
  { injection Hrun as _ <-. apply drifted_others, drifted_refl. }
  rewrite run_bind in Hrun.
  destruct (Cronjob.attempt ctx repo _ w) as [o w1] eqn:Hfn.
  pose proof (attempt_others _ _ _ _ _ _ _ Hw Hfn) as Ho.
  destruct o as [[e|]| |]; try (by injection Hrun as _ <-).
  destruct (attempt_error _ _ _ _ _ _ Hfn) as (_ & Hd & _).
  destruct (IsConflict e).
  - destruct n as [|n]; [by injection Hrun as _ <-|].
    rewrite run_bind, pause_run in Hrun.
    apply IH in Hrun.
    + eapply others_after_drift; [|exact Hrun]. by apply drifted_emit, drifted_drawn.
    + eapply consistent_drifted; [|exact Hw]. by apply drifted_emit, drifted_drawn.
  - destruct (Interrupted e); by injection Hrun as _ <-.
Qed.

(** X10. A worker of [cronjob/main.go], run over a cluster that stores
    every record under its own name, however the run ends: no record but
    the one of its repository is written by it.  Every other record is,
    after the run, what the other writers alone have made of it in the
    meantime. *)
Theorem worker_writes_no_record_but_its_own
    (ctx : context) (repo : Cronjob.Repository) (w : World) :
  consistent w →
  others_as_left (Cronjob.Namespace repo, Cronjob.Name repo) w
    (Cronjob.processRepo ctx repo w).2.
Proof.
  intros Hw.
  destruct (Cronjob.getLatestCommit ctx repo w) as [o w1] eqn:Hres.
  pose proof Hres as Hunf. rewrite Cronjob_getLatestCommit_unfold in Hunf. cbn zeta in Hunf.
  destruct (remote_call _ _ w) as [[cloned|e] wc] eqn:Hc;
    apply remote_call_clone in Hc as (_ & _ & Hd).
  2: { injection Hunf as <- <-.
       rewrite (Cronjob_processRepo_unresolved _ _ _ _ _ _ Hres).
       apply drifted_others. by repeat apply drifted_emit. }
  destruct (storage_head cloned) as [hash|]; injection Hunf as <- <-.
  2: { rewrite (Cronjob_processRepo_unresolved _ _ _ _ _ _ Hres).
       apply drifted_others. by repeat apply drifted_emit. }
  match type of Hres with _ = (_, ?W1) => set (w1 := W1) in * end.
  set (w2 := emit (retrieved repo hash) w1).
  destruct (time_Now w2) as [onow w3] eqn:Hnow.
  assert (∃ now, onow = Ret now ∧ drifted w w3) as (now & -> & Hd3).
  { unfold time_Now in Hnow. destruct (clock w2) eqn:Hclock; injection Hnow as <- <-;
      eexists; (split; [reflexivity|]); destruct Hd as [k Hk]; by exists k. }
  rewrite (Cronjob_processRepo_resolved _ _ _ _ _ _ _ Hres Hnow).
  destruct (Cronjob.applyChangeset ctx repo (Cronjob.changeset now hash) w3)
    as [r w4] eqn:Hrun.
  unfold Cronjob.applyChangeset in Hrun. rewrite RetryOnConflict_rounds in Hrun.
  apply rounds_others in Hrun; [|by eapply consistent_drifted].
  pose proof (others_after_drift _ _ _ _ Hd3 Hrun) as Hall.
  destruct r as [[e|]| |]; try done; unfold wg_Done; cbn [emit wg];
    destruct (decide _); cbn [snd]; try done;
    eapply others_objects; try exact Hall; done.
Qed.

(** The two repositories: the worker of [repo-a] leaves the record of
    [repo-b] as it was. *)
Lemma worker_writes_no_record_but_its_own_witness :
  ∃ k, objects (Cronjob.processRepo Background Sample.repository Sample.pair).2
         !! ("tacos", "repo-b")
       = objects (idle k Sample.pair) !! ("tacos", "repo-b").
Proof.
  destruct (worker_writes_no_record_but_its_own Background Sample.repository Sample.pair)
    as [k Hk].
  - intros namespace name obj Hobj. cbn [Sample.pair objects] in Hobj.
    apply lookup_insert_Some in Hobj as [[[= <- <-] <-]|[_ Hobj]]; [reflexivity|].
    apply lookup_insert_Some in Hobj as [[[= <- <-] <-]|[_ Hobj]]; [reflexivity|].
    by rewrite lookup_empty in Hobj.
  - exists k. by apply Hk.
Defined.
